(** * LLC eviction-set construction and the port-contention harness

    A shallow embedding of [constants.h], [constructingEvictionSet.cpp] and
    the bank-window walk of [portAttack.cpp], with the properties of the
    builder proved over it.

    Modelling conventions.
    - A [Node*] is the address of the node, a [Z]. The [next] and [prev]
      fields of all nodes are two finite maps from addresses; a field that
      was never written (the region comes from [aligned_alloc] and is not
      initialised) has no entry, and reading it is undefined behaviour.
    - [__rdtsc()] reads the next value of a finite trace of cycle-counter
      readings carried in the machine state. Pointer-chase loops that only
      exist to load the cache (and the [garbage] accumulator that keeps the
      compiler from deleting them) do not change any program variable that
      is read later; their effect is visible through the readings only.
    - [std::random_shuffle] after [srand(0)] is a fixed function on index
      vectors, a parameter of the development.
    - [while] loops take a bound on their number of iterations. *)

From Stdlib Require Import ZArith Lia List Bool Sorted.
From stdpp Require Import base tactics option list gmap.

Local Open Scope Z_scope.

(** ** constants.h *)

Definition KiB : Z := 1024.
Definition MiB : Z := KiB * KiB.
Definition CACHE_LINE_SIZE : Z := 64.
Definition LLC_BANKS : Z := 12.
Definition WAYS_PER_BANK : Z := 20.
Definition SETS_PER_BANK : Z := 2048.

Definition SET_INDEX_BITS : Z := 0x1FFC0.    (* 0b11111111111000000 *)
Definition CACHE_LINE_BITS : Z := 0x3F.      (* 0b111111 *)
Definition NUM_SET_INDEX_BITS : Z := 11.
Definition NUM_CACHE_LINE_BITS : Z := 6.

Definition ARRAY_SIZE : Z := 64 * MiB.
Definition ARRAY_ENTRIES : Z := ARRAY_SIZE / CACHE_LINE_SIZE.

Definition LLC_CYCLE_THRESHOLD : Z := 100.
Definition CONFLICT_SET_SIZE : Z := LLC_BANKS * WAYS_PER_BANK.

(** [uint64_t] arithmetic wraps modulo [2^64]. *)
Definition u64 (z : Z) : Z := z mod 2 ^ 64.

(** ** Outcomes of a run *)

(** The [assert]s of the builder, in source order. *)
Inductive assertion : Type :=
| ArrayIsNull            (* assert that the caller's array pointer is null *)
| ValidSetIndex          (* assert(setIndex < SETS_PER_BANK) *)
| NodeAligned            (* assert((address & CACHE_LINE_BITS) == 0) *)
| InsufficientCandidates (* assert(candidates.size() >= 2 * LLC_BANKS * WAYS_PER_BANK) *)
| CandidateListClosed    (* assert(count == candidates.size()) *)
| CandidatesMissToDRAM   (* assert(time >= 165); assert(time <= 190) *)
| SeedConflictSize       (* assert(count == WAYS_PER_BANK) *)
| SeedCandidateSize      (* assert(count == candidates.size() - WAYS_PER_BANK) *)
| ConflictSetSize        (* assert(count == CONFLICT_SET_SIZE) *)
| ConflictSetHitsLLC     (* assert(time > 30 && time < 50) *)
| LeftoverSize           (* assert(count == candidates.size() - CONFLICT_SET_SIZE) *)
| OtherCandidatesLeft    (* assert(candidate->next != candidate) *)
| EvictionSetSize        (* assert(evictionSetSize == WAYS_PER_BANK) *)
| EvictionSetsDisjoint   (* assert(allNodes.size() == CONFLICT_SET_SIZE) *)
| EvictionSetHitsLLC.    (* assert(time > 25 && time < 55) *)

Inductive outcome (A : Type) : Type :=
| Returned (a : A)              (* normal completion *)
| Aborted (which : assertion)   (* an assert failed *)
| Undefined                     (* read of a field that was never written,
                                   or of an index outside a vector *)
| ClockExhausted                (* the trace of cycle-counter readings ended *)
| OutOfFuel.                    (* a while loop exceeded its iteration bound *)
Arguments Returned {A} a.
Arguments Aborted {A} which.
Arguments Undefined {A}.
Arguments ClockExhausted {A}.
Arguments OutOfFuel {A}.

(** ** Machine state *)

Record machine : Type := Machine {
  nxt : gmap Z Z;   (* node address |-> its next field *)
  prv : gmap Z Z;   (* node address |-> its prev field *)
  tsc : list Z      (* cycle-counter readings still to come *)
}.

Definition M (A : Type) : Type := machine -> outcome (A * machine).

Definition ret {A} (a : A) : M A := fun s => Returned (a, s).

Definition bind {A B} (c : M A) (k : A -> M B) : M B :=
  fun s =>
    match c s with
    | Returned (a, s') => k a s'
    | Aborted w => Aborted w
    | Undefined => Undefined
    | ClockExhausted => ClockExhausted
    | OutOfFuel => OutOfFuel
    end.

Notation "'let*' x ':=' c 'in' k" := (bind c (fun x => k))
  (at level 10, x pattern, c at level 100, k at level 200,
   format "'[v' 'let*'  x  ':='  c  'in' '/' k ']'").
Notation "c ';;' k" := (bind c (fun _ => k))
  (at level 100, k at level 200, right associativity).

Definition abort {A} (w : assertion) : M A := fun _ => Aborted w.
Definition out_of_fuel {A} : M A := fun _ => OutOfFuel.

Definition assert (w : assertion) (b : bool) : M unit :=
  if b then ret tt else abort w.

(** [n->next], [n->prev] as right values. *)
Definition get_next (n : Z) : M Z :=
  fun s => match nxt s !! n with Some v => Returned (v, s) | None => Undefined end.
Definition get_prev (n : Z) : M Z :=
  fun s => match prv s !! n with Some v => Returned (v, s) | None => Undefined end.

(** [n->next = v], [n->prev = v]. *)
Definition set_next (n v : Z) : M unit :=
  fun s => Returned (tt, Machine (<[n := v]> (nxt s)) (prv s) (tsc s)).
Definition set_prev (n v : Z) : M unit :=
  fun s => Returned (tt, Machine (nxt s) (<[n := v]> (prv s)) (tsc s)).

(** [__rdtsc()]. *)
Definition rdtsc : M Z :=
  fun s =>
    match tsc s with
    | t :: rest => Returned (t, Machine (nxt s) (prv s) rest)
    | [] => ClockExhausted
    end.

(** ** Probe *)

(** The body of [while (time < 20 || time > 200)]: each attempt brackets the
    re-read of the candidate by two counter readings and keeps their
    difference. [time] starts at 0, so the body runs at least once. *)
Fixpoint Probe_attempts (clock : list Z) : outcome (Z * list Z) :=
  match clock with
  | t0 :: t1 :: rest =>
      let time := u64 (t1 - t0) in
      if (time <? 20) || (200 <? time) then Probe_attempts rest
      else Returned (time, rest)
  | _ => ClockExhausted
  end.

(** The latency on which [Probe] decides. *)
Definition Probe_time (setStartNode candidate : Z) : M Z :=
  fun s =>
    match Probe_attempts (tsc s) with
    | Returned (time, rest) => Returned (time, Machine (nxt s) (prv s) rest)
    | Aborted w => Aborted w
    | Undefined => Undefined
    | ClockExhausted => ClockExhausted
    | OutOfFuel => OutOfFuel
    end.

Definition Probe (setStartNode candidate : Z) : M bool :=
  let* time := Probe_time setStartNode candidate in
  ret (LLC_CYCLE_THRESHOLD <? time).

(** ** std::set<Node*>: kept in ascending address order *)

Fixpoint set_insert (x : Z) (l : list Z) : list Z :=
  match l with
  | [] => [x]
  | y :: l' =>
      if x <? y then x :: l
      else if x =? y then l
      else y :: set_insert x l'
  end.

(** [*s.begin()]; undefined on an empty set. *)
Definition set_begin (l : list Z) : M Z :=
  fun s => match l with x :: _ => Returned (x, s) | [] => Undefined end.

(** [v[i]] on a [std::vector]; undefined outside the vector. *)
Definition vec_at (v : list Z) (i : nat) : M Z :=
  fun s => match v !! i with Some x => Returned (x, s) | None => Undefined end.

Definition lift {A} (r : outcome A) : M A :=
  fun s =>
    match r with
    | Returned a => Returned (a, s)
    | Aborted w => Aborted w
    | Undefined => Undefined
    | ClockExhausted => ClockExhausted
    | OutOfFuel => OutOfFuel
    end.

(** ** SizeOfLinkedList *)

Fixpoint SizeOfLinkedList_loop (n : nat) (head node size : Z) : M Z :=
  if node =? head then ret size
  else
    match n with
    | O => out_of_fuel
    | S n' =>
        let* node := get_next node in
        SizeOfLinkedList_loop n' head node (size + 1)
    end.

Definition SizeOfLinkedList (fuel : nat) (node : Z) : M Z :=
  let* next := get_next node in
  if node =? next then ret 1
  else SizeOfLinkedList_loop fuel node next 1.

(** ** Sanity oracles (timing part) *)

(** [time = __rdtsc(); <pointer chase>; time = __rdtsc() - time;
    time /= iterations]. *)
Definition average_access_time (iterations : Z) : M Z :=
  let* t0 := rdtsc in
  let* t1 := rdtsc in
  ret (u64 (t1 - t0) / iterations).

Definition SanityCheckCandidates (candidateSetNode : Z) : M unit :=
  let iterations := 100000 * LLC_BANKS * WAYS_PER_BANK in
  let* time := average_access_time iterations in
  assert CandidatesMissToDRAM (165 <=? time);;
  assert CandidatesMissToDRAM (time <=? 190).

Definition SanityCheckConflictSet (conflictSet : Z) : M unit :=
  let iterations := 10000 * LLC_BANKS * WAYS_PER_BANK in
  let* time := average_access_time iterations in
  assert ConflictSetHitsLLC ((30 <? time) && (time <? 50)).

(** ** FindCandidates *)

(** The body of [for (i = 0; i < ARRAY_ENTRIES; ++i)] at index [i];
    [&array[i]] is [array + i * sizeof(Node)], and [wanted] is the value of
    [setIndex << NUM_CACHE_LINE_BITS], which does not change in the loop. *)
Definition FindCandidates_body (array wanted i : Z) (candidates : list Z)
    : outcome (list Z) :=
  let address := array + i * CACHE_LINE_SIZE in
  if Z.land address CACHE_LINE_BITS =? 0 then
    Returned (if Z.land address SET_INDEX_BITS =? wanted
              then set_insert address candidates else candidates)
  else Aborted NodeAligned.

(** One iteration on the loop state: the index and the set so far (or the
    failure that ended the loop). *)
Definition FindCandidates_step (array wanted : Z)
    (st : Z * outcome (list Z)) : Z * outcome (list Z) :=
  (fst st + 1,
   match snd st with
   | Returned candidates => FindCandidates_body array wanted (fst st) candidates
   | failure => failure
   end).

Definition FindCandidates (array : Z) (candidates : list Z) (setIndex : Z)
    : outcome (list Z) :=
  let wanted := u64 (Z.shiftl setIndex NUM_CACHE_LINE_BITS) in
  snd (Z.iter ARRAY_ENTRIES (FindCandidates_step array wanted)
              (0, Returned candidates)).

(** ** Unlinking a node from its ring

    The source writes the two stores in three orders; with both fields of
    the node defined they leave the same state. *)

(** [c->prev->next = c->next; c->next->prev = c->prev;] *)
Definition unlink (c : Z) : M unit :=
  let* p := get_prev c in
  let* n := get_next c in
  set_next p n;;
  let* n := get_next c in
  let* p := get_prev c in
  set_prev n p.

(** [c->next->prev = c->prev; c->prev->next = c->next;] *)
Definition unlink_rev (c : Z) : M unit :=
  let* n := get_next c in
  let* p := get_prev c in
  set_prev n p;;
  let* p := get_prev c in
  let* n := get_next c in
  set_next p n.

(** [assert(candidate->next != candidate); <unlink candidate>;
    candidate = candidate->next;] *)
Definition drop_candidate (candidate : Z) : M Z :=
  let* n := get_next candidate in
  assert OtherCandidatesLeft (negb (n =? candidate));;
  unlink candidate;;
  get_next candidate.

(** ** RandomizeLinkedList and the builder *)

Section Builder.

(** [std::random_shuffle] on a vector of indices, seeded by [srand(0)]. *)
Variable random_shuffle : list nat -> list nat.

(** [dictionary[permutation[i]] = i] for every [i]. *)
Definition make_dictionary (permutation : list nat) : gmap nat nat :=
  fold_left (fun dictionary i => <[ permutation !!! i := i ]> dictionary)
            (seq 0 (length permutation)) ∅.

(** The last loop of [RandomizeLinkedList]; [dictionary[k]] on a missing key
    is [std::map::operator[]], which yields 0. *)
Fixpoint link_in_order (indices : list nat) (dictionary : gmap nat nat)
    (size : nat) (candidateList : list Z) : M unit :=
  match indices with
  | [] => ret tt
  | i :: rest =>
      let startIndex := default 0%nat (dictionary !! i) in
      let endIndex := default 0%nat (dictionary !! ((i + 1) mod size)%nat) in
      let* startNode := vec_at candidateList startIndex in
      let* endNode := vec_at candidateList endIndex in
      set_next startNode endNode;;
      set_prev endNode startNode;;
      link_in_order rest dictionary size candidateList
  end.

Definition RandomizeLinkedList (candidates : list Z) : M unit :=
  let candidateList := candidates in
  let permutation := random_shuffle (seq 0 (length candidateList)) in
  let dictionary := make_dictionary permutation in
  link_in_order (seq 0 (length permutation)) dictionary (length permutation)
                candidateList.

(** [for (i = 0; i < n; ++i) node = node->next;] *)
Fixpoint advance (n : nat) (node : Z) : M Z :=
  match n with
  | O => ret node
  | S n' => let* node := get_next node in advance n' node
  end.

(** Lines 387-408: the first [WAYS_PER_BANK] nodes after the head become
    the conflict ring. Returns [candidateSetHead]. *)
Definition seed_conflict_set (fuel : nat) (size : Z) (conflictSetHead : Z) : M Z :=
  let* candidateSetHead := advance (Z.to_nat WAYS_PER_BANK) conflictSetHead in
  let* conflictSetTail := get_prev candidateSetHead in
  let* candidateSetTail := get_prev conflictSetHead in
  set_prev candidateSetHead candidateSetTail;;
  set_next candidateSetTail candidateSetHead;;
  set_prev conflictSetHead conflictSetTail;;
  set_next conflictSetTail conflictSetHead;;
  let* count := SizeOfLinkedList fuel conflictSetHead in
  assert SeedConflictSize (count =? WAYS_PER_BANK);;
  let* count := SizeOfLinkedList fuel candidateSetHead in
  assert SeedCandidateSize (count =? u64 (size - WAYS_PER_BANK));;
  ret candidateSetHead.

(** Lines 416-419. *)
Fixpoint warmup (n : nat) (conflictSetHead candidate : Z) : M unit :=
  match n with
  | O => ret tt
  | S n' => Probe conflictSetHead candidate;; warmup n' conflictSetHead candidate
  end.

(** Lines 430-449: move [candidate] from the candidate ring to the back of
    the conflict ring. Returns the new [candidateSetHead] and the next
    candidate. *)
Definition move_to_conflict_set (conflictSetHead candidateSetHead candidate : Z)
    : M (Z * Z) :=
  let* nextCandidate := get_next candidate in
  let* next := get_next candidate in
  let* prev := get_prev candidate in
  set_prev next prev;;
  set_next prev next;;
  let candidateSetHead :=
    if candidate =? candidateSetHead then next else candidateSetHead in
  let next := conflictSetHead in
  let* prev := get_prev conflictSetHead in
  set_next candidate next;;
  set_prev candidate prev;;
  set_prev next candidate;;
  set_next prev candidate;;
  ret (candidateSetHead, nextCandidate).

(** The body of [while (count < CONFLICT_SET_SIZE)], lines 423-453. *)
Definition fill_step (count conflictSetHead candidateSetHead candidate : Z)
    : M (Z * Z * Z) :=
  let* missToDRAM := Probe conflictSetHead candidate in
  if negb missToDRAM then
    let count := count + 1 in
    let* (candidateSetHead, candidate) :=
      move_to_conflict_set conflictSetHead candidateSetHead candidate in
    ret (count, candidateSetHead, candidate)
  else
    let* candidate := get_next candidate in
    ret (count, candidateSetHead, candidate).

Fixpoint fill_conflict_set (n : nat)
    (count conflictSetHead candidateSetHead candidate : Z) : M Z :=
  if count <? CONFLICT_SET_SIZE then
    match n with
    | O => out_of_fuel
    | S n' =>
        let* (count, candidateSetHead, candidate) :=
          fill_step count conflictSetHead candidateSetHead candidate in
        fill_conflict_set n' count conflictSetHead candidateSetHead candidate
    end
  else ret candidateSetHead.

(** Lines 509-524: [while (!missToDRAM)] drops candidates that hit. *)
Fixpoint drop_hits (n : nat) (conflictSetHead candidate : Z)
    (missToDRAM : bool) : M Z :=
  if negb missToDRAM then
    match n with
    | O => out_of_fuel
    | S n' =>
        let* candidate := drop_candidate candidate in
        let* missToDRAM := Probe conflictSetHead candidate in
        drop_hits n' conflictSetHead candidate missToDRAM
    end
  else ret candidate.

(** Lines 533-551: [i] more confirmation probes; returns [foundCandidate]
    and the candidate to go on with. *)
Fixpoint confirm (i : nat) (conflictSetHead candidate : Z) : M (bool * Z) :=
  match i with
  | O => ret (true, candidate)
  | S i' =>
      let* missToDRAM := Probe conflictSetHead candidate in
      if negb missToDRAM then
        let* candidate := drop_candidate candidate in
        ret (false, candidate)
      else confirm i' conflictSetHead candidate
  end.

(** Lines 503-552: [while (!foundCandidate)]. *)
Fixpoint find_witness (n : nat) (fuel : nat) (conflictSetHead candidate : Z)
    : M Z :=
  match n with
  | O => out_of_fuel
  | S n' =>
      let* missToDRAM := Probe conflictSetHead candidate in
      let* candidate := drop_hits fuel conflictSetHead candidate missToDRAM in
      let* (foundCandidate, candidate) :=
        confirm 100 conflictSetHead candidate in
      if foundCandidate then ret candidate
      else find_witness n' fuel conflictSetHead candidate
  end.

(** Lines 580-603: test one node of the conflict ring against the witness.
    Returns the marked set and the next test node. *)
Definition test_node (candidate testNode : Z) (evictionSet : list Z)
    : M (list Z * Z) :=
  unlink testNode;;
  let* start := get_next testNode in
  let* missToDRAM := Probe start candidate in
  let* p := get_prev testNode in
  set_next p testNode;;
  let* n := get_next testNode in
  set_prev n testNode;;
  let evictionSet :=
    if negb missToDRAM then set_insert testNode evictionSet else evictionSet in
  let* testNode := get_next testNode in
  ret (evictionSet, testNode).

(** Lines 570-604: [while (evictionSet.size() < WAYS_PER_BANK)]. *)
Fixpoint isolate_slice (n : nat) (candidate testNode : Z)
    (evictionSet : list Z) : M (list Z) :=
  if Z.of_nat (length evictionSet) <? WAYS_PER_BANK then
    match n with
    | O => out_of_fuel
    | S n' =>
        if bool_decide (testNode ∈ evictionSet) then
          let* testNode := get_next testNode in
          isolate_slice n' candidate testNode evictionSet
        else
          let* (evictionSet, testNode) :=
            test_node candidate testNode evictionSet in
          isolate_slice n' candidate testNode evictionSet
    end
  else ret evictionSet.

(** Lines 618-633: the other marked nodes go to the back of the new ring. *)
Fixpoint splice_rest (nodes : list Z) (evictionSetHead conflictSetHead : Z)
    : M Z :=
  match nodes with
  | [] => ret conflictSetHead
  | node :: rest =>
      let* conflictSetHead :=
        (if node =? conflictSetHead then get_next conflictSetHead
         else ret conflictSetHead) in
      unlink_rev node;;
      set_next node evictionSetHead;;
      let* tail := get_prev evictionSetHead in
      set_prev node tail;;
      let* n := get_next node in
      set_prev n node;;
      let* p := get_prev node in
      set_next p node;;
      splice_rest rest evictionSetHead conflictSetHead
  end.

(** Lines 608-633. Returns [evictionSetHead] and the new [conflictSetHead]. *)
Definition splice_out (evictionSet : list Z) (conflictSetHead : Z)
    : M (Z * Z) :=
  let* evictionSetHead := set_begin evictionSet in
  let* conflictSetHead :=
    (if evictionSetHead =? conflictSetHead then get_next conflictSetHead
     else ret conflictSetHead) in
  unlink_rev evictionSetHead;;
  set_next evictionSetHead evictionSetHead;;
  set_prev evictionSetHead evictionSetHead;;
  let* conflictSetHead :=
    splice_rest (tail evictionSet) evictionSetHead conflictSetHead in
  ret (evictionSetHead, conflictSetHead).

(** The body of [while (evictionSetHeads.size() < LLC_BANKS - 1)],
    lines 499-645. *)
Definition partition_round (fuel : nat) (conflictSetHead candidate : Z)
    : M (Z * Z * Z) :=
  let* candidate := find_witness fuel fuel conflictSetHead candidate in
  let* evictionSet := isolate_slice fuel candidate conflictSetHead [] in
  let* (evictionSetHead, conflictSetHead) :=
    splice_out evictionSet conflictSetHead in
  let* candidate := drop_candidate candidate in
  ret (evictionSetHead, conflictSetHead, candidate).

Fixpoint partition (n : nat) (fuel : nat) (evictionSetHeads : list Z)
    (conflictSetHead candidate : Z) : M (list Z * Z) :=
  if Z.of_nat (length evictionSetHeads) <? LLC_BANKS - 1 then
    match n with
    | O => out_of_fuel
    | S n' =>
        let* (evictionSetHead, conflictSetHead, candidate) :=
          partition_round fuel conflictSetHead candidate in
        partition n' fuel (evictionSetHeads ++ [evictionSetHead])
                  conflictSetHead candidate
    end
  else ret (evictionSetHeads, conflictSetHead).

(** ** SanityCheckEvictionSets *)

(** [while (node != evictionSetHeads[i])], lines 127-131. *)
Fixpoint walk_eviction_set (n : nat) (head node : Z) (allNodes : list Z)
    (evictionSetSize : Z) : M (list Z * Z) :=
  if node =? head then ret (allNodes, evictionSetSize)
  else
    match n with
    | O => out_of_fuel
    | S n' =>
        let allNodes := set_insert node allNodes in
        let evictionSetSize := evictionSetSize + 1 in
        let* node := get_next node in
        walk_eviction_set n' head node allNodes evictionSetSize
    end.

(** Lines 121-136. *)
Fixpoint check_sizes (fuel : nat) (evictionSetHeads : list Z)
    (allNodes : list Z) : M (list Z) :=
  match evictionSetHeads with
  | [] => ret allNodes
  | head :: rest =>
      let allNodes := set_insert head allNodes in
      let* node := get_next head in
      let* (allNodes, evictionSetSize) :=
        walk_eviction_set fuel head node allNodes 1 in
      assert EvictionSetSize (evictionSetSize =? WAYS_PER_BANK);;
      check_sizes fuel rest allNodes
  end.

(** Lines 146-173. *)
Fixpoint check_times (evictionSetHeads : list Z) : M unit :=
  match evictionSetHeads with
  | [] => ret tt
  | _ :: rest =>
      let iterations := 10000 * LLC_BANKS * WAYS_PER_BANK in
      let* time := average_access_time iterations in
      assert EvictionSetHitsLLC ((25 <? time) && (time <? 55));;
      check_times rest
  end.

Definition SanityCheckEvictionSets (fuel : nat) (evictionSetHeads : list Z)
    : M unit :=
  let* allNodes := check_sizes fuel evictionSetHeads [] in
  assert EvictionSetsDisjoint (Z.of_nat (length allNodes) =? CONFLICT_SET_SIZE);;
  check_times evictionSetHeads.

(** ** GetEvictionSet *)

(** Lines 382-469: carve the conflict set out of the randomized ring through
    [conflictSetHead]; [size] is [candidates.size()]. Returns
    [conflictSetHead] and [candidateSetHead]. *)
Definition construct_conflict_set (fuel : nat) (size : Z) (conflictSetHead : Z)
    : M (Z * Z) :=
  let* candidateSetHead := seed_conflict_set fuel size conflictSetHead in
  let count := WAYS_PER_BANK in
  let candidate := candidateSetHead in
  warmup 10 conflictSetHead candidate;;
  let* candidateSetHead :=
    fill_conflict_set fuel count conflictSetHead candidateSetHead candidate in
  let* count := SizeOfLinkedList fuel conflictSetHead in
  assert ConflictSetSize (count =? CONFLICT_SET_SIZE);;
  SanityCheckConflictSet conflictSetHead;;
  let* count := SizeOfLinkedList fuel candidateSetHead in
  assert LeftoverSize (count =? u64 (size - CONFLICT_SET_SIZE));;
  ret (conflictSetHead, candidateSetHead).

(** Lines 355-469: from the enumerated candidates to the conflict set. *)
Definition build_conflict_set (fuel : nat) (candidates : list Z) : M (Z * Z) :=
  RandomizeLinkedList candidates;;
  let* first := set_begin candidates in
  let* count := SizeOfLinkedList fuel first in
  assert CandidateListClosed (count =? Z.of_nat (length candidates));;
  SanityCheckCandidates first;;
  construct_conflict_set fuel (Z.of_nat (length candidates)) first.

(** Lines 477-660: from the conflict set to the eviction sets. *)
Definition partition_conflict_set (fuel : nat)
    (conflictSetHead candidateSetHead : Z) : M (list Z) :=
  let evictionSetHeads := [] in
  let candidate := candidateSetHead in
  let* (evictionSetHeads, conflictSetHead) :=
    partition fuel fuel evictionSetHeads conflictSetHead candidate in
  let evictionSetHeads := evictionSetHeads ++ [conflictSetHead] in
  SanityCheckEvictionSets fuel evictionSetHeads;;
  ret evictionSetHeads.

(** [array] is the value of [*array] on entry; [region] is the address
    that [aligned_alloc(CACHE_LINE_SIZE, ARRAY_SIZE)] returns, which the
    builder stores into [*array]. *)
Definition GetEvictionSet (fuel : nat) (array region setIndex : Z)
    : M (list Z) :=
  assert ArrayIsNull (array =? 0);;
  assert ValidSetIndex (setIndex <? SETS_PER_BANK);;
  assert ArrayIsNull (array =? 0);;
  let array := region in
  let* candidates := lift (FindCandidates array [] setIndex) in
  assert InsufficientCandidates
    (2 * LLC_BANKS * WAYS_PER_BANK <=? Z.of_nat (length candidates));;
  let* (conflictSetHead, candidateSetHead) :=
    build_conflict_set fuel candidates in
  partition_conflict_set fuel conflictSetHead candidateSetHead.

End Builder.

(** ** portAttack.cpp: SplitResultsIntoBanks *)

Definition ATTACKER_TIMED_ITERATIONS : Z := 5000000.

(** A read of [attackerTimesArray[index]] at or beyond the end of the array
    ends the walk: the source has no bounds check there. *)
Inductive walk (A : Type) : Type :=
| Walked (a : A)
| OutOfBounds (index : Z).
Arguments Walked {A} a.
Arguments OutOfBounds {A} index.

(** [while (attackerTimesArray[access] < bound) ++access;] where [rest] is
    the array from index [access] on. Returns the final [access] and the
    array from there on. *)
Fixpoint advance_to (rest : list Z) (access bound : Z) : walk (Z * list Z) :=
  match rest with
  | [] => OutOfBounds access
  | t :: rest' =>
      if t <? bound then advance_to rest' (access + 1) bound
      else Walked (access, rest)
  end.

(** The body of [for (bank = 0; bank < LLC_BANKS; ++bank)] for the banks
    still to do. *)
Fixpoint SplitResultsIntoBanks_from (banks : list nat)
    (victimBankBoundaries : list Z) (rest : list Z) (access : Z)
    (boundaries : list Z) : walk (list Z) :=
  match banks with
  | [] => Walked boundaries
  | bank :: banks' =>
      match advance_to rest access (victimBankBoundaries !!! (bank * 2)%nat) with
      | OutOfBounds i => OutOfBounds i
      | Walked (access, rest) =>
          let boundaries := boundaries ++ [access] in
          match advance_to rest access
                  (victimBankBoundaries !!! (bank * 2 + 1)%nat) with
          | OutOfBounds i => OutOfBounds i
          | Walked (access, rest) =>
              let boundaries := boundaries ++ [u64 (access - 1)] in
              SplitResultsIntoBanks_from banks' victimBankBoundaries rest
                                         access boundaries
          end
      end
  end.

Definition SplitResultsIntoBanks (attackerTimesArray : list Z)
    (victimBankBoundaries : list Z) : walk (list Z) :=
  SplitResultsIntoBanks_from (seq 0 (Z.to_nat LLC_BANKS)) victimBankBoundaries
                             attackerTimesArray 0 [].

(** ** GetAttackerClosestBank *)

(** The body of [for (bank = 0; bank < LLC_BANKS; ++bank)] for the banks
    still to do: the chase through the bank's eviction set is bracketed by
    two counter readings, and the bank becomes [*closestBank] when its time
    is below [shortestTime]. The calls that pin the thread to a core change
    no variable of the program. Returns [*closestBank]. *)
Fixpoint closest_bank_from (banks : list nat) (evictionSetsAttacker : list Z)
    (closestBank shortestTime : Z) : M Z :=
  match banks with
  | [] => ret closestBank
  | bank :: banks' =>
      let* node := vec_at evictionSetsAttacker bank in
      let* t0 := rdtsc in
      let* t1 := rdtsc in
      let time := u64 (t1 - t0) in
      if time <? shortestTime
      then closest_bank_from banks' evictionSetsAttacker (Z.of_nat bank) time
      else closest_bank_from banks' evictionSetsAttacker closestBank shortestTime
  end.

(** [*closestBank = -1; uint64_t shortestTime = -1;] and the loop. *)
Definition GetAttackerClosestBank (evictionSetsAttacker : list Z) : M Z :=
  closest_bank_from (seq 0 (Z.to_nat LLC_BANKS)) evictionSetsAttacker
                    (u64 (-1)) (u64 (-1)).

(** * Specification vocabulary *)

(** The latencies that a trace of counter readings yields when it is read
    two readings at a time, as [Probe] does. *)
Fixpoint measurements (clock : list Z) : list Z :=
  match clock with
  | t0 :: t1 :: rest => u64 (t1 - t0) :: measurements rest
  | _ => []
  end.

(** Outside the plausibility window of [Probe]. *)
Definition implausible (time : Z) : Prop := time < 20 \/ 200 < time.

(** [x->next == y] and [y->prev == x]. *)
Definition linked (s : machine) (x y : Z) : Prop :=
  nxt s !! x = Some y /\ prv s !! y = Some x.

(** Each node of [l] is linked to the one after it. *)
Fixpoint path (s : machine) (l : list Z) : Prop :=
  match l with
  | x :: l' =>
      match l' with
      | y :: _ => linked s x y /\ path s l'
      | [] => True
      end
  | [] => True
  end.

(** A circular doubly-linked list: following [next] from the first node of
    [l] visits the nodes of [l] in order, once each, and comes back to the
    first; [prev] goes the other way round. *)
Definition ring (s : machine) (l : list Z) : Prop :=
  NoDup l /\ match l with [] => False | x :: _ => path s (l ++ [x]) end.

(** The state after the two stores [x->next = y; y->prev = x]. *)
Definition link (x y : Z) (s : machine) : machine :=
  Machine (<[x := y]> (nxt s)) (<[y := x]> (prv s)) (tsc s).

(** Edges that survive a block of stores: those whose source is outside
    [X] (the nodes whose [next] was written) and whose target is outside
    [Y] (the nodes whose [prev] was written). *)
Definition frame (X Y : list Z) (s s' : machine) : Prop :=
  forall a b, linked s a b -> a ∉ X -> b ∉ Y -> linked s' a b.

(** Conflict-set construction on lists, after the specification (4.4):
    probe the candidate in front of the leftover pool against the conflict
    ring; when the probe says [false] (not evicted) the candidate moves to
    the back of the conflict ring, otherwise it stays in the pool, behind
    the others; stop when the conflict ring has [CONFLICT_SET_SIZE] nodes.
    The probes decide on the readings in [clock]. *)
Fixpoint grow_conflict (n : nat) (clock : list Z) (conflict leftover : list Z)
    : outcome (list Z * list Z * list Z) :=
  if Z.of_nat (length conflict) <? CONFLICT_SET_SIZE then
    match n with
    | O => OutOfFuel
    | S n' =>
        match leftover with
        | [] => Undefined
        | c :: rest =>
            match Probe_attempts clock with
            | Returned (time, clock') =>
                if LLC_CYCLE_THRESHOLD <? time
                then grow_conflict n' clock' conflict (rest ++ [c])
                else grow_conflict n' clock' (conflict ++ [c]) rest
            | Aborted w => Aborted w
            | Undefined => Undefined
            | ClockExhausted => ClockExhausted
            | OutOfFuel => OutOfFuel
            end
        end
    end
  else Returned (conflict, leftover, clock).

(** The readings left after [n] probes whose verdict is not used. *)
Fixpoint skip_probes (n : nat) (clock : list Z) : outcome (list Z) :=
  match n with
  | O => Returned clock
  | S n' =>
      match Probe_attempts clock with
      | Returned (_, clock') => skip_probes n' clock'
      | Aborted w => Aborted w
      | Undefined => Undefined
      | ClockExhausted => ClockExhausted
      | OutOfFuel => OutOfFuel
      end
  end.

(** [n] probes in a row: [true] when all of them say evicted; stops at the
    first that does not. *)
Fixpoint unanimous (n : nat) (clock : list Z) : outcome (bool * list Z) :=
  match n with
  | O => Returned (true, clock)
  | S n' =>
      match Probe_attempts clock with
      | Returned (time, clock') =>
          if LLC_CYCLE_THRESHOLD <? time then unanimous n' clock'
          else Returned (false, clock')
      | Aborted w => Aborted w
      | Undefined => Undefined
      | ClockExhausted => ClockExhausted
      | OutOfFuel => OutOfFuel
      end
  end.

(** The witness search after the specification (4.5, step 1): the candidate
    in front of the leftover pool is the witness when one probe and 100
    confirmations all say evicted; otherwise it leaves the pool and the next
    candidate is tried. Returns the pool from the witness on. *)
Fixpoint pick_witness (clock : list Z) (leftover : list Z)
    : outcome (list Z * list Z) :=
  match leftover with
  | [] => Undefined
  | w :: rest =>
      match unanimous 101 clock with
      | Returned (true, clock') => Returned (leftover, clock')
      | Returned (false, clock') =>
          match rest with
          | [] => Aborted OtherCandidatesLeft
          | _ :: _ => pick_witness clock' rest
          end
      | Aborted w => Aborted w
      | Undefined => Undefined
      | ClockExhausted => ClockExhausted
      | OutOfFuel => OutOfFuel
      end
  end.

(** The search once the candidate in front has been dropped. *)
Definition pick_next (clock : list Z) (leftover : list Z)
    : outcome (list Z * list Z) :=
  match leftover with
  | _ :: (_ :: _) as rest => pick_witness clock rest
  | _ => Aborted OtherCandidatesLeft
  end.

(** The search after the first probe of the candidate in front. *)
Definition pick_after_first (missToDRAM : bool) (clock : list Z)
    (leftover : list Z) : outcome (list Z * list Z) :=
  if missToDRAM then
    match unanimous 100 clock with
    | Returned (true, clock') => Returned (leftover, clock')
    | Returned (false, clock') => pick_next clock' leftover
    | Aborted w => Aborted w
    | Undefined => Undefined
    | ClockExhausted => ClockExhausted
    | OutOfFuel => OutOfFuel
    end
  else pick_next clock leftover.

(** The order in which a [std::set<Node*>] keeps its elements. *)
Definition ascending (l : list Z) : Prop := StronglySorted Z.lt l.

(** The state of slice partitioning between two rounds: the conflict ring
    [conf] with its handle, the leftover pool with the candidate in front,
    and the eviction rings [evs] found so far with their handles. *)
Definition partition_inv (s : machine) (conf0 : list Z)
    (conflictSetHead candidate : Z) (heads : list Z)
    (conf pool : list Z) (evs : list (list Z)) : Prop :=
  ring s conf /\ conflictSetHead ∈ conf /\
  ring s pool /\ (exists prest, pool = candidate :: prest) /\
  (forall r, r ∈ evs -> ring s r /\ length r = 20%nat) /\
  Forall2 (fun h r => h ∈ r) heads evs /\
  NoDup (pool ++ conf ++ concat evs) /\
  concat evs ++ conf ≡ₚ conf0 /\
  (length conf + 20 * length evs = 240)%nat.

(** One step of the loop that fills [dictionary]. *)
Definition add_entry (permutation : list nat) (dictionary : gmap nat nat) (i : nat)
    : gmap nat nat :=
  <[ permutation !!! i := i ]> dictionary.

(** The stores of the linking loop, as edges. *)
Definition link_all (src dst : nat -> Z) (idxs : list nat) (s : machine) : machine :=
  fold_left (fun s i => link (src i) (dst i) s) idxs s.

(** The address selects cache set [setIndex] (specification, 4.1). *)
Definition maps_to_set (setIndex address : Z) : Prop :=
  Z.shiftr address NUM_CACHE_LINE_BITS mod Z.shiftl 1 NUM_SET_INDEX_BITS = setIndex.

(** The address of a node of the backing region at [array]. *)
Definition node_of_region (array address : Z) : Prop :=
  exists i, 0 <= i < ARRAY_ENTRIES /\ address = array + i * CACHE_LINE_SIZE.

(** Every assertion that [c] can fail satisfies [P]. *)
Definition aborts_within (P : assertion -> Prop) {A} (c : M A) : Prop :=
  forall s w, c s = Aborted w -> P w.

(** The assertions that come after the candidate count check. *)
Definition checked_after_enumeration (w : assertion) : Prop :=
  match w with
  | ArrayIsNull | ValidSetIndex | NodeAligned | InsufficientCandidates => False
  | _ => True
  end.

(** [c'] does what [c] does, except where [c] runs out of fuel. *)
Definition extends {A} (c c' : M A) : Prop :=
  forall s, c s = OutOfFuel \/ c s = c' s.

(** An attacker that is done before the first victim window opens: its
    [ATTACKER_TIMED_ITERATIONS] timestamps, 300 cycles apart, all lie before
    the victims' boundaries. *)
Definition late_victim_times : list Z :=
  (fun i : nat => 1000 + 300 * Z.of_nat i) <$> seq 0 (Z.to_nat ATTACKER_TIMED_ITERATIONS).

(** Twenty-four victim boundaries, all after the attacker's last timestamp. *)
Definition late_victim_boundaries : list Z :=
  (fun b : nat => 2000000000 + 1000000 * Z.of_nat b) <$> seq 0 24.

(** Counter readings that bracket the given latencies. *)
Fixpoint clock_from (now : Z) (latencies : list Z) : list Z :=
  match latencies with
  | [] => []
  | d :: rest => now :: (now + d) :: clock_from (now + d + 1000) rest
  end.

(** An address that [aligned_alloc] may return. *)
Definition region27 : Z := 0x40000000.

(** The 512 nodes of the region at [region27] that map to cache set 27. *)
Definition candidates27 : list Z :=
  (fun k => region27 + 27 * 64 + k * 131072) <$> seqZ 0 512.

(** The latencies (in cycles) of an undisturbed run on 512 candidates: the
    candidates' sanity loop at 170 per access; ten warm-up probes and 220
    probes that hit; the conflict set's sanity loop at 40 per access; for
    each of eleven slices a witness that is evicted 101 times in a row and
    twenty test nodes whose removal makes it hit; the twelve final sanity
    loops. *)
Definition quiet_latencies : list Z :=
  [170 * 24000000] ++ repeat 40 10 ++ repeat 40 220 ++ [40 * 2400000]
  ++ concat (repeat (repeat 170 101 ++ repeat 40 20) 11)
  ++ repeat (40 * 2400000) 12.


(** Fresh memory (no field written yet) with the two traces. *)
Definition quiet_machine : machine := Machine ∅ ∅ (clock_from 5000 quiet_latencies).


(** The run completed normally. *)
Definition returned {A} (r : outcome A) : bool :=
  match r with Returned _ => true | _ => false end.



(** [ring] and its parts are decidable, by evaluation. *)
Global Instance linked_dec s x y : Decision (linked s x y).
Proof. unfold linked. apply _. Defined.

Global Instance path_dec s l : Decision (path s l).
Proof.
  induction l as [|x [|y l] IH]; simpl; [left; exact I|left; exact I|].
  apply and_dec; [apply _|exact IH].
Defined.

Global Instance ring_dec s l : Decision (ring s l).
Proof.
  unfold ring. apply and_dec; [apply _|]. destruct l; [right; tauto|apply _].
Defined.




(** The state in which conflict-set construction starts in the quiet run:
    the candidates linked in shuffled order, the first sanity loop done. *)
Definition randomized_machine : machine :=
  match RandomizeLinkedList (@rev nat) candidates27 quiet_machine with
  | Returned (_, s) => Machine (nxt s) (prv s) (drop 2 (tsc s))
  | _ => quiet_machine
  end.

(** A ring of three nodes, and readings for one probe that hits followed by
    101 that miss. *)
Definition small_pool : machine :=
  link 192 64 (link 128 192 (link 64 128
    (Machine ∅ ∅ (clock_from 5000 ([40] ++ repeat 170 101))))).

(** The machine [s] with another trace of readings. *)
Definition with_clock (s : machine) (clock : list Z) : machine :=
  Machine (nxt s) (prv s) clock.

(** What the builder can make of one measured time. As the latency of a
    probe: nothing while it is outside the window [[20, 200]] and the probe
    is repeated, otherwise the verdict [time > LLC_CYCLE_THRESHOLD]. As the
    elapsed time of a sanity loop: whether the average passes the assertion
    of [SanityCheckCandidates], of [SanityCheckConflictSet] and of
    [SanityCheckEvictionSets]. *)
Definition decisions_on (time : Z) : option bool * bool * bool * bool :=
  (if (time <? 20) || (200 <? time) then None
   else Some (LLC_CYCLE_THRESHOLD <? time),
   (165 <=? time / (100000 * LLC_BANKS * WAYS_PER_BANK))
   && (time / (100000 * LLC_BANKS * WAYS_PER_BANK) <=? 190),
   (30 <? time / (10000 * LLC_BANKS * WAYS_PER_BANK))
   && (time / (10000 * LLC_BANKS * WAYS_PER_BANK) <? 50),
   (25 <? time / (10000 * LLC_BANKS * WAYS_PER_BANK))
   && (time / (10000 * LLC_BANKS * WAYS_PER_BANK) <? 55)).

(** Two traces of readings whose latencies, taken in order, fall on the
    same side of every threshold of the builder. The readings themselves,
    and the latencies, may differ. *)
Definition same_decisions (clock1 clock2 : list Z) : Prop :=
  decisions_on <$> measurements clock1 = decisions_on <$> measurements clock2.

(** Two outcomes that differ at most in the readings left, which still lead
    to the same decisions. *)
Definition agree {A} (r1 r2 : outcome (A * machine)) : Prop :=
  match r1, r2 with
  | Returned (a1, s1), Returned (a2, s2) =>
      a1 = a2 /\ nxt s1 = nxt s2 /\ prv s1 = prv s2 /\
      same_decisions (tsc s1) (tsc s2)
  | Aborted w1, Aborted w2 => w1 = w2
  | Undefined, Undefined => True
  | ClockExhausted, ClockExhausted => True
  | OutOfFuel, OutOfFuel => True
  | _, _ => False
  end.

(** A computation that uses the counter only through these decisions. *)
Definition decides_alike {A} (c : M A) : Prop :=
  forall s1 s2, nxt s1 = nxt s2 -> prv s1 = prv s2 ->
    same_decisions (tsc s1) (tsc s2) -> agree (c s1) (c s2).


(** The number of timestamps below [bound]; in a sorted array, the index of
    the first timestamp that is not below it. *)
Definition count_below (bound : Z) (times : list Z) : Z :=
  Z.of_nat (length (filter (fun t => t < bound) times)).

(** The window of a bank: from the first attacker access at or after the
    victim's start to the last one before the victim's end. *)
Definition bank_window (times victimBankBoundaries : list Z) (bank : nat) : list Z :=
  [count_below (victimBankBoundaries !!! (bank * 2)%nat) times;
   count_below (victimBankBoundaries !!! (bank * 2 + 1)%nat) times - 1].

Definition sample_times : list Z := [10; 20; 30; 40; 50; 60].

Definition sample_boundaries : list Z :=
  Eval vm_compute in (fun k : nat => 15 + Z.of_nat k) <$> seq 0 24.

(** Twelve handles. *)
Definition sample_handles : list Z := (fun k => 4096 + 64 * k) <$> seqZ 0 12.

(** Readings whose latencies have their minimum, 40, at banks 1 and 3. *)
Definition sample_bank_clock : machine :=
  Machine ∅ ∅ (clock_from 1000 [50; 40; 60; 40; 70; 80; 90; 55; 65; 75; 85; 95]).

(** Following [next] from [x] leads through the nodes of [l], in order, to
    [y]. *)
Fixpoint follows (s : machine) (x : Z) (l : list Z) (y : Z) : Prop :=
  match l with
  | [] => nxt s !! x = Some y
  | z :: l' => nxt s !! x = Some z /\ follows s z l' y
  end.

(** The nodes [c], starting with [h], are those met by following [next]
    from [h] until it comes back to [h]. *)
Definition next_cycle (s : machine) (h : Z) (c : list Z) : Prop :=
  exists l, c = h :: l /\ follows s h l h /\ h ∉ l.

(** Twelve rings of twenty nodes each, node [j] of ring [k] at address
    [64 * (20 * k + j)], with readings for the twelve timing loops. *)
Definition sample_ring_links (k : Z) (s : machine) : machine :=
  foldr (fun j => link (64 * (20 * k + j)) (64 * (20 * k + (j + 1) mod 20)))
        s (seqZ 0 20).

Definition sample_rings : machine :=
  foldr sample_ring_links
        (Machine ∅ ∅ (clock_from 1000 (repeat (40 * 2400000) 12))) (seqZ 0 12).

Definition sample_ring_heads : list Z := (fun k => 64 * (20 * k)) <$> seqZ 0 12.

(** The nodes of the region at [array] that map to cache set [setIndex],
    in address order: one in every [SETS_PER_BANK] consecutive nodes. *)
Definition candidates_of (array setIndex : Z) : list Z :=
  (fun k => array + ((setIndex - array / 64) mod 2048 + 2048 * k) * 64)
    <$> seqZ 0 512.

(** The assertions on a measured time, and the one on a leftover pool that
    has run out of candidates. *)
Definition timing_or_exhaustion (w : assertion) : Prop :=
  match w with
  | CandidatesMissToDRAM | ConflictSetHitsLLC | OtherCandidatesLeft
  | EvictionSetHitsLLC => True
  | _ => False
  end.

(** An outcome that the measurements account for: no field was read before
    it was written, and no assertion on the shape of the lists failed. *)
Definition benign {A} (r : outcome A) : Prop :=
  match r with
  | Aborted w => timing_or_exhaustion w
  | Undefined => False
  | _ => True
  end.

(** The variables of the loop that fills the conflict set. *)
Definition fill_inv (s : machine) (count h : Z) (cl : list Z) (c : Z)
    (prest : list Z) (csh : Z) (total : nat) : Prop :=
  ring s (h :: cl) /\ ring s (c :: prest) /\
  NoDup ((h :: cl) ++ c :: prest) /\ csh ∈ c :: prest /\
  count = Z.of_nat (length (h :: cl)) /\
  length ((h :: cl) ++ c :: prest) = total.

(** Readings of a run in which the candidates' sanity loop is too fast. *)
Definition cached_machine : machine :=
  Machine ∅ ∅ (clock_from 5000 [40 * 24000000]).

(** A conflict ring of two nodes and a leftover pool of three. *)
Definition two_rings : machine :=
  link 128 64 (link 64 128
    (link 1152 1024 (link 1088 1152 (link 1024 1088 (Machine ∅ ∅ []))))).

(** The first of the twelve sample rings, with readings for twenty probes
    that hit. *)
Definition sample_slice : machine :=
  with_clock sample_rings (clock_from 1000 (repeat 40 20)).

(** Counter readings of two probes: a latency of 7 cycles, then one of 40. *)
Definition glitch_clock : list Z := [1000; 1007; 2000; 2040].

(** * Properties *)

(** ** Probe *)

Lemma Probe_attempts_inv clock time rest :
  Probe_attempts clock = Returned (time, rest) ->
  exists (discarded : list Z) (t0 t1 : Z),
    clock = discarded ++ t0 :: t1 :: rest /\
    time = u64 (t1 - t0) /\
    Nat.Even (length discarded) /\
    Forall implausible (measurements discarded) /\
    20 <= time <= 200.
Proof.
  revert time rest.
  induction clock as [clock IH] using (induction_ltof1 _ (@length Z)).
  unfold ltof in IH. intros time rest H.
  destruct clock as [|t0 [|t1 clock']]; simpl in H; try discriminate.
  destruct ((u64 (t1 - t0) <? 20) || (200 <? u64 (t1 - t0))) eqn:E.
  - apply IH in H; [|simpl; lia].
    destruct H as (d & a & b & Hc & Hm & He & Hf & Ht).
    exists (t0 :: t1 :: d), a, b. simpl.
    split; [by rewrite Hc|]. split; [exact Hm|].
    split; [destruct He as [k Hk]; exists (S k); lia|].
    split; [|exact Ht].
    constructor; [|exact Hf]. unfold implausible.
    apply orb_true_iff in E. destruct E as [E|E]; [left|right]; lia.
  - inversion H; subst. exists [], t0, t1. simpl.
    apply orb_false_iff in E.
    split; [reflexivity|]. split; [reflexivity|].
    split; [exists O; reflexivity|]. split; [constructor|lia].
Qed.

Lemma Probe_attempts_total discarded t0 t1 rest :
  Nat.Even (length discarded) ->
  Forall implausible (measurements discarded) ->
  20 <= u64 (t1 - t0) <= 200 ->
  Probe_attempts (discarded ++ t0 :: t1 :: rest) = Returned (u64 (t1 - t0), rest).
Proof.
  induction discarded as [discarded IH] using (induction_ltof1 _ (@length Z)).
  unfold ltof in IH. intros He Hf Ht.
  destruct discarded as [|a [|b d]].
  - simpl. replace ((u64 (t1 - t0) <? 20) || (200 <? u64 (t1 - t0))) with false;
      [reflexivity|]. symmetry. apply orb_false_iff. lia.
  - destruct He as [k Hk]. simpl in Hk. lia.
  - simpl in Hf. inversion Hf as [|? ? Hab Hf']; subst.
    change ((a :: b :: d) ++ t0 :: t1 :: rest)
      with (a :: b :: (d ++ t0 :: t1 :: rest)).
    simpl. replace ((u64 (b - a) <? 20) || (200 <? u64 (b - a))) with true.
    + apply IH; [simpl; lia| |exact Hf'|exact Ht].
      destruct He as [k Hk]. simpl in Hk. exists (k - 1)%nat. lia.
    + symmetry. apply orb_true_iff. unfold implausible in Hab. lia.
Qed.

(** C2. [Probe] returns [true] exactly when the accepted latency exceeds
    [LLC_CYCLE_THRESHOLD]; every latency measured before the accepted one
    was outside the window [20, 200] and made the probe start over, and the
    accepted one lies inside it. The links of the nodes are not changed. *)
Theorem Probe_decides_on_accepted_latency
    (setStartNode candidate : Z) (s s' : machine) (b : bool) :
  Probe setStartNode candidate s = Returned (b, s') <->
  exists (discarded : list Z) (t0 t1 : Z),
    tsc s = discarded ++ t0 :: t1 :: tsc s' /\
    Nat.Even (length discarded) /\
    Forall implausible (measurements discarded) /\
    20 <= u64 (t1 - t0) <= 200 /\
    b = (LLC_CYCLE_THRESHOLD <? u64 (t1 - t0)) /\
    nxt s' = nxt s /\ prv s' = prv s.
Proof.
  unfold Probe, bind, Probe_time, ret. split.
  - destruct (Probe_attempts (tsc s)) as [[time rest]| | | |] eqn:E;
      try discriminate.
    intros H. inversion H; subst; clear H. simpl.
    apply Probe_attempts_inv in E.
    destruct E as (d & t0 & t1 & Hc & Hm & He & Hf & Ht). subst time.
    exists d, t0, t1. auto 10.
  - intros (d & t0 & t1 & Hc & He & Hf & Ht & Hb & Hn & Hp).
    rewrite Hc, (Probe_attempts_total d t0 t1 (tsc s') He Hf Ht).
    destruct s' as [n' p' c']. simpl in *. subst. reflexivity.
Qed.

Lemma Probe_decides_on_accepted_latency_witness :
  Probe 4096 8192 (Machine ∅ ∅ [1000; 1005; 2000; 9000; 10000; 10170; 11000])
  = Returned (true, Machine ∅ ∅ [11000]).
Proof.
  apply (proj2 (Probe_decides_on_accepted_latency 4096 8192
                 (Machine ∅ ∅ [1000; 1005; 2000; 9000; 10000; 10170; 11000])
                 (Machine ∅ ∅ [11000]) true)).
  exists [1000; 1005; 2000; 9000], 10000, 10170. simpl.
  split; [reflexivity|]. split; [exists 2%nat; reflexivity|].
  split.
  { constructor; [left; vm_compute; reflexivity|].
    constructor; [right; vm_compute; reflexivity|]. constructor. }
  split; [split; vm_compute; discriminate|].
  repeat split; vm_compute; reflexivity.
Defined.

(** ** Paths and rings *)

Lemma linked_link_same x y s : linked (link x y s) x y.
Proof. split; simpl; apply lookup_insert_eq. Qed.

Lemma linked_link_other x y s a b :
  a <> x -> b <> y -> linked s a b -> linked (link x y s) a b.
Proof.
  intros Ha Hb [H1 H2]. split; simpl.
  - rewrite lookup_insert_ne; auto.
  - rewrite lookup_insert_ne; auto.
Qed.

Lemma path_cons2 s x y l : path s (x :: y :: l) <-> linked s x y /\ path s (y :: l).
Proof. reflexivity. Qed.

Lemma path_lookup s l :
  path s l <->
  forall (i : nat) x y, l !! i = Some x -> l !! S i = Some y -> linked s x y.
Proof.
  induction l as [|a [|b l] IH].
  - split; [intros _ i x y H; discriminate | intros; exact I].
  - split; [intros _ [|i] x y H1 H2; discriminate | intros; exact I].
  - rewrite path_cons2, IH. split.
    + intros [Hab H] [|i] x y H1 H2.
      * simpl in *. congruence.
      * apply (H i); assumption.
    + intros H. split.
      * apply (H O); reflexivity.
      * intros i x y H1 H2. apply (H (S i)); assumption.
Qed.

Lemma path_app s l1 x l2 :
  path s (l1 ++ x :: l2) <-> path s (l1 ++ [x]) /\ path s (x :: l2).
Proof.
  induction l1 as [|a [|b l1] IH].
  - simpl. tauto.
  - simpl. destruct l2; tauto.
  - change (path s (a :: (b :: l1) ++ x :: l2) <->
            path s (a :: (b :: l1) ++ [x]) /\ path s (x :: l2)).
    change ((b :: l1) ++ x :: l2) with (b :: (l1 ++ x :: l2)) in *.
    change ((b :: l1) ++ [x]) with (b :: (l1 ++ [x])) in *.
    rewrite !path_cons2. tauto.
Qed.

Lemma path_tail s x l : path s (x :: l) -> path s l.
Proof. destruct l; simpl; tauto. Qed.

Lemma path_app_l s l1 l2 : path s (l1 ++ l2) -> path s l1.
Proof.
  destruct l2 as [|x l2]; [by rewrite app_nil_r|].
  rewrite path_app. intros [H _].
  rewrite path_lookup in *. intros i a b H1 H2.
  apply (H i); apply lookup_app_l_Some; assumption.
Qed.

Lemma path_app_r s l1 l2 : path s (l1 ++ l2) -> path s l2.
Proof.
  induction l1; simpl; auto. intros H. apply IHl1. eapply path_tail, H.
Qed.

(** A store pair that neither leaves a source of the path nor enters a
    target of it keeps the path. *)
Lemma path_link s l x y :
  path s l -> x ∉ removelast l -> y ∉ tail l -> path (link x y s) l.
Proof.
  induction l as [|a [|b l] IH]; try (simpl; auto; fail).
  intros H Hx Hy. rewrite path_cons2 in *. destruct H as [Hab H]. split.
  - apply linked_link_other; auto.
    + intros ->. apply Hx. simpl. left.
    + intros ->. apply Hy. simpl. left.
  - apply IH; auto.
    + intros Hin. apply Hx. change (removelast (a :: b :: l)) with (a :: removelast (b :: l)).
      by right.
    + intros Hin. apply Hy. simpl. by right.
Qed.

Lemma ring_nonempty s l : ring s l -> l <> [].
Proof. intros [_ H] ->. exact H. Qed.

Lemma ring_NoDup s l : ring s l -> NoDup l.
Proof. by intros [H _]. Qed.

Lemma ring_cons s x l : ring s (x :: l) <-> NoDup (x :: l) /\ path s (x :: l ++ [x]).
Proof. reflexivity. Qed.

(** Any node of a ring can be taken as its first. *)
Lemma ring_rotate s l1 l2 : ring s (l1 ++ l2) -> l2 <> [] -> ring s (l2 ++ l1).
Proof.
  intros [Hnd H] Hne. destruct l2 as [|y l2]; [done|]. clear Hne.
  split.
  { apply NoDup_app. apply NoDup_app in Hnd as (H1 & H2 & H3).
    split; [done|]. split; [|done]. intros z Hz1 Hz2. by apply (H2 z). }
  destruct l1 as [|x l1].
  { rewrite app_nil_r. exact H. }
  change (path s ((x :: l1 ++ y :: l2) ++ [x])) in H.
  change (path s ((y :: l2 ++ x :: l1) ++ [y])).
  rewrite <- !app_comm_cons, <- !app_assoc in *. simpl in *.
  change (path s (x :: l1 ++ y :: l2 ++ [x])) in H.
  rewrite app_comm_cons in H. rewrite path_app in H. destruct H as [Ha Hb].
  change (path s (y :: l2 ++ x :: l1 ++ [y])).
  rewrite app_comm_cons. rewrite path_app. split; assumption.
Qed.

Lemma ring_at s l x :
  ring s l -> x ∈ l ->
  exists l1 l2, l = l1 ++ x :: l2 /\ ring s (x :: l2 ++ l1).
Proof.
  intros Hr Hx. apply list_elem_of_split in Hx as (l1 & l2 & ->).
  exists l1, l2. split; [done|].
  change (ring s ((x :: l2) ++ l1)). by apply ring_rotate.
Qed.

Lemma ring_head_next s x l : ring s (x :: l) -> nxt s !! x = Some (hd x l).
Proof.
  intros [_ H]. destruct l as [|y l]; simpl in H; destruct H as [[H _] _]; exact H.
Qed.

Lemma last_cons_default (x d : Z) l : List.last (x :: l) d = List.last l x.
Proof.
  revert x d. induction l as [|a l IH]; intros x d; [reflexivity|].
  change (List.last (a :: l) d = List.last (a :: l) x). by rewrite !IH.
Qed.

Lemma snoc_last (x : Z) l : exists l', x :: l = l' ++ [List.last l x].
Proof.
  exists (removelast (x :: l)).
  rewrite <- (last_cons_default x x l).
  by apply app_removelast_last.
Qed.

Lemma ring_head_prev s x l : ring s (x :: l) -> prv s !! x = Some (List.last l x).
Proof.
  intros [_ H]. destruct (snoc_last x l) as [l' Hl].
  change (path s ((x :: l) ++ [x])) in H.
  rewrite Hl, <- app_assoc in H. simpl in H.
  apply path_app_r in H. simpl in H. apply H.
Qed.

Lemma ring_link_frame s l x y :
  ring s l -> x ∉ l -> y ∉ l -> ring (link x y s) l.
Proof.
  intros [Hnd H] Hx Hy. split; [done|]. destruct l as [|a l]; [done|].
  apply path_link; [done| |].
  - rewrite removelast_last. exact Hx.
  - simpl. rewrite elem_of_app, list_elem_of_singleton. intros [Hin| ->].
    + apply Hy. by right.
    + apply Hy. left.
Qed.

Lemma frame_refl X Y s : frame X Y s s.
Proof. intros a b H _ _. exact H. Qed.

Lemma frame_same_links X Y s s' :
  nxt s' = nxt s -> prv s' = prv s -> frame X Y s s'.
Proof. intros Hn Hp a b [H1 H2] _ _. split; congruence. Qed.

Lemma frame_trans X Y s s' s'' :
  frame X Y s s' -> frame X Y s' s'' -> frame X Y s s''.
Proof. intros H1 H2 a b H Ha Hb. apply H2; auto. Qed.

Lemma frame_mono X Y X' Y' s s' :
  frame X Y s s' -> X ⊆ X' -> Y ⊆ Y' -> frame X' Y' s s'.
Proof. intros H HX HY a b Hl Ha Hb. apply H; auto. Qed.

Lemma frame_link x y s : frame [x] [y] s (link x y s).
Proof.
  intros a b H Ha Hb. apply linked_link_other; [| |done].
  - intros ->. apply Ha. left.
  - intros ->. apply Hb. left.
Qed.

Lemma path_frame X Y s s' l :
  path s l -> frame X Y s s' ->
  (forall x, x ∈ removelast l -> x ∉ X) ->
  (forall y, y ∈ tail l -> y ∉ Y) ->
  path s' l.
Proof.
  intros H Hf. induction l as [|a [|b l] IH]; try (simpl; auto; fail).
  intros Hx Hy. rewrite path_cons2 in *. destruct H as [Hab H]. split.
  - apply Hf; [done| |].
    + apply Hx. left.
    + apply Hy. left.
  - apply IH; [done| |].
    + intros x Hin. apply Hx.
      change (removelast (a :: b :: l)) with (a :: removelast (b :: l)). by right.
    + intros y Hin. apply Hy. simpl. by right.
Qed.

Lemma ring_frame X Y s s' l :
  ring s l -> frame X Y s s' ->
  (forall x, x ∈ l -> x ∉ X) -> (forall y, y ∈ l -> y ∉ Y) ->
  ring s' l.
Proof.
  intros [Hnd H] Hf Hx Hy. split; [done|]. destruct l as [|a l]; [done|].
  eapply path_frame; [exact H|exact Hf| |].
  - rewrite removelast_last. exact Hx.
  - simpl. intros y. rewrite elem_of_app, list_elem_of_singleton.
    intros [Hin| ->]; apply Hy; [by right|left].
Qed.

Lemma NoDup_last_not_removelast (l : list Z) x :
  NoDup l -> l <> [] -> List.last l x ∉ removelast l.
Proof.
  intros Hnd Hne. rewrite (app_removelast_last x Hne) in Hnd.
  apply NoDup_app in Hnd as (_ & H & _). intros Hin. apply (H _ Hin). left.
Qed.

(** Closing a path into a ring. *)
Lemma ring_close X Y s s' a l :
  NoDup (a :: l) -> path s (a :: l) -> frame X Y s s' ->
  (forall x, x ∈ removelast (a :: l) -> x ∉ X) ->
  (forall y, y ∈ l -> y ∉ Y) ->
  linked s' (List.last l a) a ->
  ring s' (a :: l).
Proof.
  intros Hnd H Hf Hx Hy Hl. split; [done|].
  destruct (snoc_last a l) as [l' Hl'].
  rewrite Hl', <- app_assoc. simpl. apply path_app. split.
  - rewrite <- Hl'. eapply path_frame; eauto.
  - simpl. auto.
Qed.

Lemma ring_path s a l : ring s (a :: l) -> path s (a :: l).
Proof. intros [_ H]. change (path s ((a :: l) ++ [a])) in H. by apply path_app_l in H. Qed.

(** The ring that is left when its first node is unlinked. *)
Lemma ring_remove_head X Y s s' c a l :
  ring s (c :: a :: l) -> frame X Y s s' ->
  (forall x, x ∈ removelast (a :: l) -> x ∉ X) ->
  (forall y, y ∈ l -> y ∉ Y) ->
  linked s' (List.last l a) a ->
  ring s' (a :: l).
Proof.
  intros Hr Hf Hx Hy Hl. eapply ring_close; eauto.
  - apply ring_NoDup in Hr. by inversion Hr.
  - apply ring_path in Hr. by apply path_tail in Hr.
Qed.

(** The ring that results when a fresh node is linked in behind the last. *)
Lemma ring_insert_last X Y s s' h l c :
  ring s (h :: l) -> c ∉ h :: l -> frame X Y s s' ->
  (forall x, x ∈ removelast (h :: l) -> x ∉ X) ->
  (forall y, y ∈ l -> y ∉ Y) ->
  linked s' (List.last l h) c -> linked s' c h ->
  ring s' (h :: l ++ [c]).
Proof.
  intros Hr Hc Hf Hx Hy H1 H2. split.
  - change (NoDup ((h :: l) ++ [c])). apply NoDup_app. split; [by apply ring_NoDup in Hr|].
    split; [|apply NoDup_singleton].
    intros z Hz Hz'. apply list_elem_of_singleton in Hz'. by subst.
  - simpl. rewrite <- app_assoc. change (path s' ((h :: l) ++ [c; h])).
    destruct (snoc_last h l) as [l' Hl']. rewrite Hl', <- app_assoc. simpl.
    apply path_app. split.
    + rewrite <- Hl'. eapply path_frame; eauto. by apply ring_path.
    + simpl. auto.
Qed.

(** ** Evaluation of the primitives *)

Lemma bind_Returned {A B} (c : M A) (k : A -> M B) s a s' :
  c s = Returned (a, s') -> bind c k s = k a s'.
Proof. unfold bind. by intros ->. Qed.

Lemma bind_inv {A B} (c : M A) (k : A -> M B) s r :
  bind c k s = Returned r ->
  exists a s', c s = Returned (a, s') /\ k a s' = Returned r.
Proof.
  unfold bind. destruct (c s) as [[a s']| | | |]; try discriminate. eauto.
Qed.

Lemma get_next_eq n v s : nxt s !! n = Some v -> get_next n s = Returned (v, s).
Proof. unfold get_next. by intros ->. Qed.

Lemma get_prev_eq n v s : prv s !! n = Some v -> get_prev n s = Returned (v, s).
Proof. unfold get_prev. by intros ->. Qed.

Lemma get_next_inv n s v s' :
  get_next n s = Returned (v, s') -> nxt s !! n = Some v /\ s' = s.
Proof. unfold get_next. destruct (nxt s !! n); intros H; inversion H; auto. Qed.

Lemma get_prev_inv n s v s' :
  get_prev n s = Returned (v, s') -> prv s !! n = Some v /\ s' = s.
Proof. unfold get_prev. destruct (prv s !! n); intros H; inversion H; auto. Qed.

Lemma assert_inv w b s u s' :
  assert w b s = Returned (u, s') -> b = true /\ s' = s.
Proof. destruct b; simpl; intros H; inversion H; auto. Qed.

Lemma ret_inv {A} (a : A) s r s' : ret a s = Returned (r, s') -> r = a /\ s' = s.
Proof. intros H; inversion H; auto. Qed.

Lemma unlink_eq c n p s :
  nxt s !! c = Some n -> prv s !! c = Some p ->
  unlink c s = Returned (tt, link p n s).
Proof.
  intros Hn Hp. unfold unlink.
  rewrite (bind_Returned _ _ _ _ _ (get_prev_eq _ _ _ Hp)).
  rewrite (bind_Returned _ _ _ _ _ (get_next_eq _ _ _ Hn)).
  unfold bind at 1. simpl.
  erewrite bind_Returned; [|apply get_next_eq; simpl].
  2:{ destruct (decide (p = c)) as [->|Hne];
        [apply lookup_insert_eq | rewrite lookup_insert_ne; eauto]. }
  erewrite bind_Returned; [|apply get_prev_eq; simpl; exact Hp].
  reflexivity.
Qed.

Lemma unlink_rev_eq c n p s :
  nxt s !! c = Some n -> prv s !! c = Some p ->
  unlink_rev c s = Returned (tt, link p n s).
Proof.
  intros Hn Hp. unfold unlink_rev.
  rewrite (bind_Returned _ _ _ _ _ (get_next_eq _ _ _ Hn)).
  rewrite (bind_Returned _ _ _ _ _ (get_prev_eq _ _ _ Hp)).
  unfold bind at 1. simpl.
  erewrite bind_Returned; [|apply get_prev_eq; simpl].
  2:{ destruct (decide (n = c)) as [->|Hne];
        [apply lookup_insert_eq | rewrite lookup_insert_ne; eauto]. }
  erewrite bind_Returned; [|apply get_next_eq; simpl; exact Hn].
  reflexivity.
Qed.

Lemma link_next_self c n p s :
  nxt s !! c = Some n -> nxt (link p n s) !! c = Some n.
Proof.
  intros H. simpl. destruct (decide (p = c)) as [->|Hne];
    [apply lookup_insert_eq | by rewrite lookup_insert_ne].
Qed.

Lemma drop_candidate_eq c n p s :
  nxt s !! c = Some n -> prv s !! c = Some p -> n <> c ->
  drop_candidate c s = Returned (n, link p n s).
Proof.
  intros Hn Hp Hne. unfold drop_candidate.
  rewrite (bind_Returned _ _ _ _ _ (get_next_eq _ _ _ Hn)).
  replace (negb (n =? c)) with true by (symmetry; apply negb_true_iff; lia).
  unfold assert, bind at 1. simpl.
  rewrite (bind_Returned _ _ _ _ _ (unlink_eq _ _ _ _ Hn Hp)).
  apply get_next_eq. by apply link_next_self.
Qed.

Lemma drop_candidate_last c s :
  nxt s !! c = Some c -> drop_candidate c s = Aborted OtherCandidatesLeft.
Proof.
  intros Hn. unfold drop_candidate.
  rewrite (bind_Returned _ _ _ _ _ (get_next_eq _ _ _ Hn)).
  rewrite Z.eqb_refl. reflexivity.
Qed.

(** In ring terms. *)
Lemma ring_drop_head s c a l :
  ring s (c :: a :: l) ->
  drop_candidate c s = Returned (a, link (List.last l a) a s) /\
  ring (link (List.last l a) a s) (a :: l).
Proof.
  intros Hr.
  pose proof (ring_head_next _ _ _ Hr) as Hn. simpl in Hn.
  pose proof (ring_head_prev _ _ _ Hr) as Hp.
  change (List.last (a :: l) c) with (List.last (a :: l) c) in Hp.
  rewrite last_cons_default in Hp.
  assert (Hne : a <> c).
  { apply ring_NoDup in Hr. inversion Hr as [|? ? Hnin _]; subst.
    intros ->. apply Hnin. left. }
  split; [by apply drop_candidate_eq|].
  eapply ring_remove_head; [exact Hr|apply frame_link| | |apply linked_link_same].
  - intros x Hx Hin. apply list_elem_of_singleton in Hin. subst.
    apply ring_NoDup in Hr. inversion Hr as [|? ? _ Hnd]; subst.
    eapply (NoDup_last_not_removelast (a :: l) a); [done|done|].
    by rewrite last_cons_default.
  - intros y Hy Hin. apply list_elem_of_singleton in Hin. subst.
    apply ring_NoDup in Hr. inversion Hr as [|? ? _ Hnd]; subst.
    by inversion Hnd.
Qed.

Lemma ring_head_edges s x l :
  ring s (x :: l) -> linked s (List.last l x) x /\ linked s x (hd x l).
Proof.
  intros [_ H]. split.
  - destruct (snoc_last x l) as [l' Hl].
    change (path s ((x :: l) ++ [x])) in H.
    rewrite Hl, <- app_assoc in H. simpl in H.
    apply path_app_r in H. simpl in H. apply H.
  - destruct l as [|y l]; simpl in H; apply H.
Qed.

Lemma ring_same_links s s' l :
  nxt s' = nxt s -> prv s' = prv s -> ring s l -> ring s' l.
Proof.
  intros Hn Hp Hr. eapply (ring_frame [] []); [exact Hr| | |].
  - by apply frame_same_links.
  - intros x _ Hx. inversion Hx.
  - intros x _ Hx. inversion Hx.
Qed.

Lemma Probe_links a b s r s' :
  Probe a b s = Returned (r, s') -> nxt s' = nxt s /\ prv s' = prv s.
Proof.
  unfold Probe, bind, Probe_time, ret.
  destruct (Probe_attempts (tsc s)) as [[t rest]| | | |]; try discriminate.
  intros H. inversion H. auto.
Qed.

Lemma test_node_inv s conf candidate testNode evictionSet r s' :
  ring s conf -> testNode ∈ conf ->
  test_node candidate testNode evictionSet s = Returned (r, s') ->
  exists n p missToDRAM s1,
    nxt s !! testNode = Some n /\ prv s !! testNode = Some p /\
    unlink testNode s = Returned (tt, link p n s) /\
    Probe n candidate (link p n s) = Returned (missToDRAM, s1) /\
    s' = Machine (nxt s) (prv s) (tsc s1) /\
    r = (if negb missToDRAM then set_insert testNode evictionSet
         else evictionSet, n).
Proof.
  intros Hr Hin H.
  destruct (ring_at _ _ _ Hr Hin) as (l1 & l2 & _ & Hr').
  destruct (ring_head_edges _ _ _ Hr') as [[Hpn Hpp] [Hnn Hnp]].
  set (n := hd testNode (l2 ++ l1)) in *.
  set (p := List.last (l2 ++ l1) testNode) in *.
  exists n, p. unfold test_node in H.
  rewrite (bind_Returned _ _ _ _ _ (unlink_eq _ _ _ _ Hnn Hpp)) in H.
  rewrite (bind_Returned _ _ _ _ _
             (get_next_eq _ _ _ (link_next_self _ _ _ _ Hnn))) in H.
  apply bind_inv in H as (miss & s1 & HP & H).
  exists miss, s1. pose proof (Probe_links _ _ _ _ _ HP) as [E1 E2].
  assert (Hp1 : prv s1 !! testNode = Some p).
  { rewrite E2. simpl. destruct (decide (n = testNode)) as [->|Hne];
      [apply lookup_insert_eq | by rewrite lookup_insert_ne]. }
  rewrite (bind_Returned _ _ _ _ _ (get_prev_eq _ _ _ Hp1)) in H.
  unfold bind at 1 in H. simpl in H.
  assert (En : <[p:=testNode]> (nxt s1) = nxt s).
  { rewrite E1. simpl. rewrite insert_insert_eq. by apply insert_id. }
  rewrite En in H.
  erewrite bind_Returned in H; [|apply get_next_eq; simpl; exact Hnn].
  unfold bind at 1 in H. simpl in H.
  assert (Ep : <[n:=testNode]> (prv s1) = prv s).
  { rewrite E2. simpl. rewrite insert_insert_eq. by apply insert_id. }
  rewrite Ep in H.
  erewrite bind_Returned in H; [|apply get_next_eq; simpl; exact Hnn].
  inversion H; subst. repeat split; auto using unlink_eq.
Qed.

Lemma last_elem_of (a : Z) l : List.last l a ∈ a :: l.
Proof.
  destruct (snoc_last a l) as [l' ->]. apply elem_of_app. right. left.
Qed.

Lemma elem_of_removelast (x : Z) l : x ∈ removelast l -> x ∈ l.
Proof.
  destruct l as [|a l]; [done|]. intros H.
  rewrite (app_removelast_last a (l := a :: l)); [|done].
  apply elem_of_app. by left.
Qed.

Lemma frame_app X Y X' Y' s s' s'' :
  frame X Y s s' -> frame X' Y' s' s'' -> frame (X ++ X') (Y ++ Y') s s''.
Proof.
  intros H1 H2 a b H Ha Hb. apply H2; [apply H1; [done| |]| |];
    intros Hin; [apply Ha|apply Hb|apply Ha|apply Hb]; apply elem_of_app; auto.
Qed.

(** Cutting a ring in two. *)
Lemma ring_split s a m1 b m2 :
  ring s ((a :: m1) ++ b :: m2) ->
  let s1 := link (List.last m1 a) a (link (List.last m2 b) b s) in
  ring s1 (a :: m1) /\ ring s1 (b :: m2).
Proof.
  intros Hr s1.
  pose proof (ring_NoDup _ _ Hr) as Hnd.
  apply NoDup_app in Hnd as (Hnd1 & Hdisj & Hnd2).
  assert (Hf : frame ([List.last m2 b] ++ [List.last m1 a]) ([b] ++ [a]) s s1).
  { eapply frame_app; apply frame_link. }
  assert (Hab : a <> b).
  { intros ->. apply (Hdisj b); left. }
  assert (Hll : List.last m1 a <> List.last m2 b).
  { intros E. apply (Hdisj (List.last m1 a)); [apply last_elem_of|].
    rewrite E. apply last_elem_of. }
  destruct Hr as [_ Hp]. change (path s (((a :: m1) ++ b :: m2) ++ [a])) in Hp.
  rewrite <- app_assoc in Hp.
  split.
  - eapply ring_close; [done|by apply path_app_l in Hp|exact Hf| | |].
    + intros x Hx Hin. apply elem_of_app in Hin as [Hin|Hin];
        apply list_elem_of_singleton in Hin; subst.
      * apply (Hdisj (List.last m2 b)); [by apply elem_of_removelast|apply last_elem_of].
      * revert Hx. rewrite <- (last_cons_default a a m1).
        by apply NoDup_last_not_removelast.
    + intros y Hy Hin. apply elem_of_app in Hin as [Hin|Hin];
        apply list_elem_of_singleton in Hin; subst.
      * apply (Hdisj b); [by right|left].
      * by inversion Hnd1.
    + apply linked_link_same.
  - eapply ring_close; [done| |exact Hf| | |].
    + apply path_app_r in Hp. change (path s ((b :: m2) ++ [a])) in Hp.
      by apply path_app_l in Hp.
    + intros x Hx Hin. apply elem_of_app in Hin as [Hin|Hin];
        apply list_elem_of_singleton in Hin; subst.
      * revert Hx. rewrite <- (last_cons_default b b m2).
        by apply NoDup_last_not_removelast.
      * apply (Hdisj (List.last m1 a)); [apply last_elem_of|by apply elem_of_removelast].
    + intros y Hy Hin. apply elem_of_app in Hin as [Hin|Hin];
        apply list_elem_of_singleton in Hin; subst.
      * by inversion Hnd2.
      * apply (Hdisj a); [left|by right].
    + apply linked_link_other; [done|done|apply linked_link_same].
Qed.

Lemma advance_path s a l x :
  path s (a :: l ++ [x]) -> advance (S (length l)) a s = Returned (x, s).
Proof.
  revert a. induction l as [|b l IH]; intros a H.
  - simpl in H. destruct H as [[H _] _]. simpl.
    by rewrite (bind_Returned _ _ _ _ _ (get_next_eq _ _ _ H)).
  - change (path s (a :: b :: l ++ [x])) in H. rewrite path_cons2 in H.
    destruct H as [[H _] Hp].
    change (advance (S (length (b :: l))) a s)
      with ((let* node := get_next a in advance (S (length l)) node) s).
    rewrite (bind_Returned _ _ _ _ _ (get_next_eq _ _ _ H)). by apply IH.
Qed.

Lemma SizeOfLinkedList_loop_path s n head node rest size :
  path s (node :: rest ++ [head]) -> head ∉ node :: rest ->
  SizeOfLinkedList_loop n head node size s =
  if decide (length rest < n)%nat
  then Returned (size + Z.of_nat (S (length rest)), s) else OutOfFuel.
Proof.
  revert n node size. induction rest as [|b rest IH]; intros n node size H Hn.
  - simpl in H. destruct H as [[H _] _].
    assert ((node =? head) = false) as E.
    { apply Z.eqb_neq. intros ->. apply Hn. left. }
    destruct n as [|n]; simpl; rewrite E; [reflexivity|].
    rewrite (bind_Returned _ _ _ _ _ (get_next_eq _ _ _ H)).
    destruct n; simpl; rewrite Z.eqb_refl; reflexivity.
  - change (path s (node :: b :: rest ++ [head])) in H. rewrite path_cons2 in H.
    destruct H as [[H _] Hp].
    assert ((node =? head) = false) as E.
    { apply Z.eqb_neq. intros ->. apply Hn. left. }
    destruct n as [|n]; simpl; rewrite E; [reflexivity|].
    rewrite (bind_Returned _ _ _ _ _ (get_next_eq _ _ _ H)).
    rewrite IH; [|done|by intros Hin; apply Hn; right].
    repeat case_decide; try lia; try reflexivity. f_equal. f_equal. lia.
Qed.

Lemma SizeOfLinkedList_ring s fuel l x :
  ring s l -> x ∈ l ->
  SizeOfLinkedList fuel x s =
  if decide (length l < fuel + 2)%nat
  then Returned (Z.of_nat (length l), s) else OutOfFuel.
Proof.
  intros Hr Hx. destruct (ring_at _ _ _ Hr Hx) as (l1 & l2 & -> & Hr').
  assert (El : length (l1 ++ x :: l2) = length (x :: l2 ++ l1)).
  { rewrite !length_app. simpl. rewrite length_app. lia. }
  rewrite El. clear El Hr Hx. destruct (l2 ++ l1) as [|y l].
  - destruct (ring_head_edges _ _ _ Hr') as [_ [Hn _]]. simpl in Hn.
    unfold SizeOfLinkedList.
    rewrite (bind_Returned _ _ _ _ _ (get_next_eq _ _ _ Hn)).
    rewrite Z.eqb_refl. simpl. case_decide; [reflexivity|lia].
  - destruct (ring_head_edges _ _ _ Hr') as [_ [Hn _]]. simpl in Hn.
    unfold SizeOfLinkedList.
    rewrite (bind_Returned _ _ _ _ _ (get_next_eq _ _ _ Hn)).
    pose proof (ring_NoDup _ _ Hr') as Hnd. inversion Hnd as [|? ? Hnin Hnd']; subst.
    replace (x =? y) with false.
    2:{ symmetry. apply Z.eqb_neq. intros ->. apply Hnin. left. }
    destruct Hr' as [_ Hp]. simpl in Hp. destruct Hp as [_ Hp].
    rewrite (SizeOfLinkedList_loop_path s fuel x y l 1 Hp Hnin).
    simpl length. repeat case_decide; try lia; try reflexivity. f_equal. f_equal. lia.
Qed.

(** ** Conflict-set construction *)

Lemma last_app_cons (a b : Z) m1 m2 : List.last (m1 ++ b :: m2) a = List.last m2 b.
Proof.
  revert a. induction m1 as [|c m1 IH]; intros a.
  - simpl app. apply last_cons_default.
  - rewrite <- app_comm_cons, last_cons_default. apply IH.
Qed.

Lemma path_last_edge s l x y : path s (l ++ [x; y]) -> linked s x y.
Proof. intros H. apply path_app_r in H. simpl in H. apply H. Qed.

Lemma seed_conflict_set_inv s fuel size a m1 b m2 r s' :
  ring s ((a :: m1) ++ b :: m2) ->
  length (a :: m1) = Z.to_nat WAYS_PER_BANK ->
  seed_conflict_set fuel size a s = Returned (r, s') ->
  r = b /\ s' = link (List.last m1 a) a (link (List.last m2 b) b s).
Proof.
  intros Hr Hlen H.
  pose proof (ring_split _ _ _ _ _ Hr) as [Hr1 Hr2].
  set (s1 := link (List.last m1 a) a (link (List.last m2 b) b s)) in *.
  unfold seed_conflict_set in H.
  assert (Hp : path s ((a :: m1) ++ [b])).
  { destruct Hr as [_ Hp]. change (path s (((a :: m1) ++ b :: m2) ++ [a])) in Hp.
    rewrite <- app_assoc in Hp. change (path s ((a :: m1) ++ b :: m2 ++ [a])) in Hp.
    by apply path_app in Hp as [Hp _]. }
  rewrite <- Hlen in H.
  rewrite (bind_Returned _ _ _ _ _ (advance_path _ _ _ _ Hp)) in H.
  assert (Hpb : prv s !! b = Some (List.last m1 a)).
  { destruct (snoc_last a m1) as [l' Hl']. rewrite Hl', <- app_assoc in Hp.
    apply path_last_edge in Hp. apply Hp. }
  assert (Hpa : prv s !! a = Some (List.last m2 b)).
  { change ((a :: m1) ++ b :: m2) with (a :: (m1 ++ b :: m2)) in Hr.
    rewrite (ring_head_prev _ _ _ Hr). f_equal. apply last_app_cons. }
  rewrite (bind_Returned _ _ _ _ _ (get_prev_eq _ _ _ Hpb)) in H.
  rewrite (bind_Returned _ _ _ _ _ (get_prev_eq _ _ _ Hpa)) in H.
  do 4 (unfold bind at 1 in H; simpl in H).
  change (Machine _ _ _) with s1 in H.
  apply bind_inv in H as (count & s2 & Hs & H).
  rewrite (SizeOfLinkedList_ring s1 fuel (a :: m1) a Hr1) in Hs by left.
  case_decide; [|discriminate]. inversion Hs; subst count s2; clear Hs.
  apply bind_inv in H as (u & s2 & Ha & H). apply assert_inv in Ha as [_ ->].
  apply bind_inv in H as (count & s2 & Hs & H).
  rewrite (SizeOfLinkedList_ring s1 fuel (b :: m2) b Hr2) in Hs by left.
  case_decide; [|discriminate]. inversion Hs; subst count s2; clear Hs.
  apply bind_inv in H as (u' & s2 & Ha & H). apply assert_inv in Ha as [_ ->].
  inversion H. auto.
Qed.

Lemma frame_stores2 s x1 v1 x2 v2 y1 w1 y2 w2 t :
  frame [x1; x2] [y1; y2] s
    (Machine (<[x1 := v1]> (<[x2 := v2]> (nxt s)))
             (<[y1 := w1]> (<[y2 := w2]> (prv s))) t).
Proof.
  intros a b [H1 H2] Ha Hb. split; simpl.
  - rewrite !lookup_insert_ne; [done| |]; intros ->; apply Ha; set_solver.
  - rewrite !lookup_insert_ne; [done| |]; intros ->; apply Hb; set_solver.
Qed.

Lemma move_to_conflict_set_ring s h cl c p1 prest csh :
  ring s (h :: cl) -> ring s (c :: p1 :: prest) ->
  NoDup ((h :: cl) ++ c :: p1 :: prest) ->
  exists s',
    move_to_conflict_set h csh c s
      = Returned ((if c =? csh then p1 else csh, p1), s') /\
    ring s' (h :: cl ++ [c]) /\ ring s' (p1 :: prest) /\ tsc s' = tsc s /\
    frame ((h :: cl) ++ c :: p1 :: prest) ((h :: cl) ++ c :: p1 :: prest) s s'.
Proof.
  intros Hc Hp Hnd.
  apply NoDup_app in Hnd as (Hnd1 & Hdisj & Hnd2).
  destruct (ring_head_edges _ _ _ Hp) as [[_ Hcp] [Hcn _]]. simpl in Hcn.
  rewrite last_cons_default in Hcp.
  set (q := List.last prest p1) in *.
  destruct (ring_head_edges _ _ _ Hc) as [[_ Hhp] _].
  set (t := List.last cl h) in *.
  assert (Hq : q ∈ p1 :: prest) by apply last_elem_of.
  assert (Ht : t ∈ h :: cl) by apply last_elem_of.
  assert (Hch : c ∉ h :: cl) by (intros Hin; apply (Hdisj c Hin); left).
  assert (Hp1h : p1 ∉ h :: cl) by (intros Hin; apply (Hdisj p1 Hin); right; left).
  assert (Hqh : q ∉ h :: cl) by (intros Hin; apply (Hdisj q Hin); by right).
  assert (Hcpool : c ∉ p1 :: prest) by (by inversion Hnd2).
  pose proof (ring_drop_head _ _ _ _ Hp) as [_ Hp'].
  fold q in Hp'. set (s1 := link q p1 s) in *.
  assert (Hc1 : ring s1 (h :: cl)).
  { eapply ring_frame; [exact Hc|apply frame_link| |];
      intros x Hx Hin; apply list_elem_of_singleton in Hin; by subst. }
  eexists. split.
  { unfold move_to_conflict_set.
    rewrite (bind_Returned _ _ _ _ _ (get_next_eq _ _ _ Hcn)).
    rewrite (bind_Returned _ _ _ _ _ (get_next_eq _ _ _ Hcn)).
    rewrite (bind_Returned _ _ _ _ _ (get_prev_eq _ _ _ Hcp)).
    do 2 (unfold bind at 1; simpl).
    erewrite bind_Returned; [|apply get_prev_eq; simpl].
    2:{ rewrite lookup_insert_ne; [exact Hhp|]. intros ->. apply Hp1h. left. }
    do 4 (unfold bind at 1; simpl). reflexivity. }
  change (Machine (<[t:=c]> (<[c:=h]> (<[q:=p1]> (nxt s))))
                  (<[h:=c]> (<[c:=t]> (<[p1:=q]> (prv s)))) (tsc s))
    with (Machine (<[t:=c]> (<[c:=h]> (nxt s1)))
                  (<[h:=c]> (<[c:=t]> (prv s1))) (tsc s1)).
  pose proof (frame_stores2 s1 t c c h h c c t (tsc s1)) as Hf.
  set (s2 := Machine _ _ _) in *.
  assert (Htc : t <> c) by (intros ->; done).
  assert (Hhc : h <> c) by (intros ->; apply Hch; left).
  split; [|split; [|split; [reflexivity|]]].
  - eapply ring_insert_last; [exact Hc1|exact Hch|exact Hf| | | |].
    + intros x Hx Hin. apply elem_of_cons in Hin as [->|Hin].
      * revert Hx. unfold t. rewrite <- (last_cons_default h h cl).
        by apply NoDup_last_not_removelast.
      * apply list_elem_of_singleton in Hin. subst. apply Hch.
        by apply elem_of_removelast.
    + intros y Hy Hin. apply elem_of_cons in Hin as [->|Hin].
      * by inversion Hnd1.
      * apply list_elem_of_singleton in Hin. subst. apply Hch. by right.
    + split; simpl; [apply lookup_insert_eq|].
      rewrite lookup_insert_ne by done. apply lookup_insert_eq.
    + split; simpl; [|apply lookup_insert_eq].
      rewrite lookup_insert_ne by done. apply lookup_insert_eq.
  - eapply ring_frame; [exact Hp'|exact Hf| |].
    + intros x Hx Hin. apply elem_of_cons in Hin as [->|Hin].
      * apply (Hdisj t Ht). by right.
      * apply list_elem_of_singleton in Hin. by subst.
    + intros y Hy Hin. apply elem_of_cons in Hin as [->|Hin].
      * apply (Hdisj h); [left|by right].
      * apply list_elem_of_singleton in Hin. by subst.
  - eapply frame_trans.
    + eapply frame_mono; [apply frame_link| |]; intros x Hx;
        apply list_elem_of_singleton in Hx; subst; apply elem_of_app; right;
        [by right|right; left].
    + eapply frame_mono; [exact Hf| |]; intros x Hx;
        apply elem_of_cons in Hx as [->|Hx];
        try (apply list_elem_of_singleton in Hx; subst);
        apply elem_of_app; auto using list_elem_of_here.
Qed.

Lemma Probe_inv a b s r s' :
  Probe a b s = Returned (r, s') ->
  exists time,
    Probe_attempts (tsc s) = Returned (time, tsc s') /\
    r = (LLC_CYCLE_THRESHOLD <? time) /\ nxt s' = nxt s /\ prv s' = prv s.
Proof.
  unfold Probe, bind, Probe_time, ret.
  destruct (Probe_attempts (tsc s)) as [[t rest]| | | |]; try discriminate.
  intros H. inversion H. eauto.
Qed.

Lemma fill_conflict_set_refines n : forall s count h cl c prest csh ch' s',
  ring s (h :: cl) -> ring s (c :: prest) ->
  NoDup ((h :: cl) ++ c :: prest) -> csh ∈ c :: prest ->
  count = Z.of_nat (length (h :: cl)) ->
  CONFLICT_SET_SIZE < Z.of_nat (length ((h :: cl) ++ c :: prest)) ->
  fill_conflict_set n count h csh c s = Returned (ch', s') ->
  exists conflict leftover,
    grow_conflict n (tsc s) (h :: cl) (c :: prest)
      = Returned (conflict, leftover, tsc s') /\
    ring s' conflict /\ ring s' leftover /\ NoDup (conflict ++ leftover) /\
    h ∈ conflict /\ ch' ∈ leftover /\
    conflict ++ leftover ≡ₚ (h :: cl) ++ c :: prest /\
    ~ (Z.of_nat (length conflict) < CONFLICT_SET_SIZE).
Proof.
  induction n as [|n IH]; intros s count h cl c prest csh ch' s'
    Hc Hp Hnd Hcsh Hcount Htotal H.
  - simpl in *. subst count. destruct (_ <? CONFLICT_SET_SIZE) eqn:E; [discriminate|].
    inversion H; subst. exists (h :: cl), (c :: prest).
    apply Z.ltb_ge in E. simpl in *; split_and!; auto; [left|lia].
  - simpl in H. simpl grow_conflict. subst count.
    destruct (_ <? CONFLICT_SET_SIZE) eqn:E.
    2:{ inversion H; subst. exists (h :: cl), (c :: prest).
        apply Z.ltb_ge in E. simpl in *; split_and!; auto; [left|lia]. }
    apply Z.ltb_lt in E.
    destruct prest as [|p1 prest].
    { rewrite length_app in Htotal. simpl in *. lia. }
    apply bind_inv in H as ([[count' csh'] cand'] & s1 & Hstep & H).
    unfold fill_step in Hstep.
    apply bind_inv in Hstep as (miss & s0 & HP & Hstep).
    apply Probe_inv in HP as (time & HPa & -> & En & Ep).
    rewrite HPa.
    pose proof (ring_same_links _ _ _ En Ep Hc) as Hc0.
    pose proof (ring_same_links _ _ _ En Ep Hp) as Hp0.
    destruct (LLC_CYCLE_THRESHOLD <? time); simpl in Hstep.
    + (* evicted: the candidate stays in the pool *)
      destruct (ring_head_edges _ _ _ Hp0) as [_ [Hn _]]. simpl in Hn.
      rewrite (bind_Returned _ _ _ _ _ (get_next_eq _ _ _ Hn)) in Hstep.
      injection Hstep as <- <- <- <-.
      assert (Hrot : ring s0 (p1 :: prest ++ [c])).
      { change (ring s0 ((p1 :: prest) ++ [c])).
        apply (ring_rotate s0 [c] (p1 :: prest)); done. }
      assert (Hperm : (h :: cl) ++ p1 :: prest ++ [c] ≡ₚ (h :: cl) ++ c :: p1 :: prest).
      { apply Permutation_app_head.
        change (p1 :: prest ++ [c]) with ((p1 :: prest) ++ [c]).
        rewrite Permutation_app_comm. done. }
      destruct (IH s0 (Z.of_nat (length (h :: cl))) h cl p1 (prest ++ [c]) csh ch' s' Hc0 Hrot) as
        (conflict & leftover & Hg & H1 & H2 & H3 & H4 & H5 & H6 & H7); auto.
      * by rewrite Hperm.
      * change (p1 :: prest ++ [c]) with ((p1 :: prest) ++ [c]).
        rewrite elem_of_app, list_elem_of_singleton.
        apply elem_of_cons in Hcsh as [->|Hcsh]; auto.
      * by rewrite Hperm.
      * exists conflict, leftover. split; [exact Hg|].
        split_and!; auto. by rewrite H6, Hperm.
    + (* not evicted: the candidate moves to the conflict ring *)
      destruct (move_to_conflict_set_ring s0 h cl c p1 prest csh Hc0 Hp0 Hnd)
        as (s2 & Hmv & Hc2 & Hp2 & Et & _).
      rewrite (bind_Returned _ _ _ _ _ Hmv) in Hstep.
      injection Hstep as <- <- <- <-.
      assert (Hperm : (h :: cl ++ [c]) ++ p1 :: prest ≡ₚ (h :: cl) ++ c :: p1 :: prest).
      { change (h :: cl ++ [c]) with ((h :: cl) ++ [c]). by rewrite <- app_assoc. }
      destruct (IH s2 (Z.of_nat (length (h :: cl)) + 1) h (cl ++ [c]) p1 prest
                  (if c =? csh then p1 else csh) ch' s' Hc2 Hp2) as
        (conflict & leftover & Hg & H1 & H2 & H3 & H4 & H5 & H6 & H7); auto.
      * by rewrite Hperm.
      * destruct (Z.eqb_spec c csh) as [->|Hne]; [left|].
        apply elem_of_cons in Hcsh as [->|Hcsh]; done.
      * simpl. rewrite length_app. simpl. lia.
      * by rewrite Hperm.
      * exists conflict, leftover. rewrite Et in Hg. split; [exact Hg|].
        split_and!; auto. by rewrite H6, Hperm.
Qed.

Lemma warmup_inv n a b s u s' :
  warmup n a b s = Returned (u, s') ->
  nxt s' = nxt s /\ prv s' = prv s /\ skip_probes n (tsc s) = Returned (tsc s').
Proof.
  revert s. induction n as [|n IH]; intros s H.
  - inversion H; subst. auto.
  - simpl in H. apply bind_inv in H as (r & s1 & HP & H).
    apply Probe_inv in HP as (time & HPa & _ & En & Ep).
    apply IH in H as (En' & Ep' & Hs). simpl. rewrite HPa.
    split_and!; congruence.
Qed.

Lemma average_access_time_inv iterations s time s' :
  average_access_time iterations s = Returned (time, s') ->
  nxt s' = nxt s /\ prv s' = prv s /\ tsc s' = drop 2 (tsc s).
Proof.
  unfold average_access_time, bind, rdtsc, ret.
  destruct (tsc s) as [|t0 [|t1 rest]] eqn:E; simpl; try discriminate.
  intros H. inversion H; subst. simpl. auto.
Qed.

Lemma SanityCheckConflictSet_inv c s u s' :
  SanityCheckConflictSet c s = Returned (u, s') ->
  nxt s' = nxt s /\ prv s' = prv s /\ tsc s' = drop 2 (tsc s).
Proof.
  unfold SanityCheckConflictSet. intros H.
  apply bind_inv in H as (time & s1 & Ht & H).
  apply assert_inv in H as [_ ->]. by apply average_access_time_inv in Ht.
Qed.

Lemma SanityCheckCandidates_inv c s u s' :
  SanityCheckCandidates c s = Returned (u, s') ->
  nxt s' = nxt s /\ prv s' = prv s /\ tsc s' = drop 2 (tsc s).
Proof.
  unfold SanityCheckCandidates. intros H.
  apply bind_inv in H as (time & s1 & Ht & H).
  apply bind_inv in H as (u1 & s2 & Ha & H).
  apply assert_inv in Ha as [_ ->].
  apply assert_inv in H as [_ ->]. by apply average_access_time_inv in Ht.
Qed.

Lemma WAYS_PER_BANK_nat : Z.to_nat WAYS_PER_BANK = 20%nat.
Proof. reflexivity. Qed.

Lemma construct_conflict_set_inv fuel size s a L csh ch s' :
  ring s (a :: L) ->
  size = Z.of_nat (length (a :: L)) ->
  2 * LLC_BANKS * WAYS_PER_BANK <= size ->
  construct_conflict_set fuel size a s = Returned ((csh, ch), s') ->
  exists clock clock' conflict leftover,
    skip_probes 10 (tsc s) = Returned clock /\
    grow_conflict fuel clock
      (take (Z.to_nat WAYS_PER_BANK) (a :: L))
      (drop (Z.to_nat WAYS_PER_BANK) (a :: L))
      = Returned (conflict, leftover, clock') /\
    tsc s' = drop 2 clock' /\
    ring s' conflict /\ ring s' leftover /\
    NoDup (conflict ++ leftover) /\ conflict ++ leftover ≡ₚ a :: L /\
    csh = a /\ a ∈ conflict /\ ch ∈ leftover /\
    Z.of_nat (length conflict) = CONFLICT_SET_SIZE /\
    Z.of_nat (length leftover) = size - CONFLICT_SET_SIZE.
Proof.
  intros Hr Hsize Hbig H.
  assert (Hlen : (480 <= length (a :: L))%nat).
  { unfold LLC_BANKS, WAYS_PER_BANK in Hbig. lia. }
  pose proof (take_drop (Z.to_nat WAYS_PER_BANK) (a :: L)) as Hsplit.
  assert (Htake : length (take (Z.to_nat WAYS_PER_BANK) (a :: L)) = 20%nat).
  { rewrite length_take, WAYS_PER_BANK_nat. lia. }
  assert (Hdrop : length (drop (Z.to_nat WAYS_PER_BANK) (a :: L))
                  = (length (a :: L) - 20)%nat).
  { rewrite length_drop, WAYS_PER_BANK_nat. lia. }
  destruct (take (Z.to_nat WAYS_PER_BANK) (a :: L)) as [|a' m1] eqn:Et;
    [simpl in Htake, Hlen; lia|].
  assert (a' = a) as -> by (rewrite WAYS_PER_BANK_nat in Et; simpl in Et; congruence).
  destruct (drop (Z.to_nat WAYS_PER_BANK) (a :: L)) as [|b m2] eqn:Ed;
    [simpl in Hdrop, Hlen; lia|].
  rewrite <- Hsplit in Hr.
  pose proof (ring_split _ _ _ _ _ Hr) as [Hr1 Hr2].
  unfold construct_conflict_set in H.
  apply bind_inv in H as (ch0 & s1 & Hseed & H).
  apply seed_conflict_set_inv with (m1 := m1) (b := b) (m2 := m2) in Hseed
    as [-> ->]; [|exact Hr|by rewrite Htake].
  set (s1 := link _ _ _) in *.
  apply bind_inv in H as (u & s2 & Hw & H).
  apply warmup_inv in Hw as (En & Ep & Hskip).
  apply bind_inv in H as (ch1 & s3 & Hfill & H).
  eapply fill_conflict_set_refines with (cl := m1) (prest := m2) in Hfill
    as (conflict & leftover & Hg & Hc3 & Hp3 & Hnd3 & Hin3 & Hch3 & Hperm3 & Hfull).
  2:{ eapply ring_same_links; eauto. }
  2:{ eapply ring_same_links; eauto. }
  2:{ by apply ring_NoDup in Hr. }
  2:{ left. }
  2:{ rewrite Htake. reflexivity. }
  2:{ rewrite Hsplit. unfold CONFLICT_SET_SIZE, LLC_BANKS, WAYS_PER_BANK. lia. }
  apply bind_inv in H as (count & s4 & Hs & H).
  rewrite (SizeOfLinkedList_ring s3 fuel conflict a Hc3 Hin3) in Hs.
  case_decide; [|discriminate]. injection Hs as <- <-.
  apply bind_inv in H as (u1 & s4 & Ha & H). apply assert_inv in Ha as [Hcnt ->].
  apply Z.eqb_eq in Hcnt.
  apply bind_inv in H as (u2 & s4 & Hsan & H).
  apply SanityCheckConflictSet_inv in Hsan as (En4 & Ep4 & Et4).
  assert (Hc4 : ring s4 conflict) by (eapply ring_same_links; eauto).
  assert (Hp4 : ring s4 leftover) by (eapply ring_same_links; eauto).
  apply bind_inv in H as (count & s5 & Hs & H).
  rewrite (SizeOfLinkedList_ring s4 fuel leftover ch1 Hp4 Hch3) in Hs.
  case_decide; [|discriminate]. injection Hs as <- <-.
  apply bind_inv in H as (u3 & s5 & Ha & H). apply assert_inv in Ha as [_ ->].
  injection H as <- <- <-.
  exists (tsc s2), (tsc s3), conflict, leftover.
  split; [exact Hskip|]. split; [exact Hg|].
  split_and!; auto.
  - by rewrite Hperm3, Hsplit.
  - apply Permutation_length in Hperm3. rewrite Hsplit in Hperm3.
    rewrite length_app in Hperm3. lia.
Qed.

(** ** Witness search *)

Lemma pick_witness_first clock c rest time clock' :
  Probe_attempts clock = Returned (time, clock') ->
  pick_witness clock (c :: rest)
  = pick_after_first (LLC_CYCLE_THRESHOLD <? time) clock' (c :: rest).
Proof.
  intros HP. unfold pick_after_first, pick_next.
  change (pick_witness clock (c :: rest)) with
    (match unanimous 101 clock with
     | Returned (true, clock') => Returned (c :: rest, clock')
     | Returned (false, clock') =>
         match rest with
         | [] => Aborted OtherCandidatesLeft
         | _ :: _ => pick_witness clock' rest
         end
     | Aborted w => Aborted w
     | Undefined => Undefined
     | ClockExhausted => ClockExhausted
     | OutOfFuel => OutOfFuel
     end).
  change (unanimous 101 clock) with
    (match Probe_attempts clock with
     | Returned (time, clock') =>
         if LLC_CYCLE_THRESHOLD <? time then unanimous 100 clock'
         else Returned (false, clock')
     | Aborted w => Aborted w
     | Undefined => Undefined
     | ClockExhausted => ClockExhausted
     | OutOfFuel => OutOfFuel
     end).
  rewrite HP. destruct (LLC_CYCLE_THRESHOLD <? time); [reflexivity|].
  destruct rest; reflexivity.
Qed.

Lemma drop_candidate_ring s c rest c' s' :
  ring s (c :: rest) ->
  drop_candidate c s = Returned (c', s') ->
  exists kept, rest = c' :: kept /\ ring s' (c' :: kept) /\
    tsc s' = tsc s /\ frame (c :: rest) (c :: rest) s s'.
Proof.
  intros Hr H. destruct rest as [|a l].
  - pose proof (ring_head_next _ _ _ Hr) as Hn. simpl in Hn.
    rewrite (drop_candidate_last _ _ Hn) in H. discriminate.
  - destruct (ring_drop_head _ _ _ _ Hr) as [E Hr'].
    rewrite E in H. injection H as <- <-. exists l. split_and!; auto.
    eapply frame_mono; [apply frame_link| |]; intros x Hx;
      apply list_elem_of_singleton in Hx; subst; right;
      [apply last_elem_of|left].
Qed.

Lemma confirm_inv i : forall s csh c rest found c' s',
  ring s (c :: rest) ->
  confirm i csh c s = Returned ((found, c'), s') ->
  frame (c :: rest) (c :: rest) s s' /\
  if found then
    c' = c /\ ring s' (c :: rest) /\ unanimous i (tsc s) = Returned (true, tsc s')
  else
    exists kept, rest = c' :: kept /\ ring s' (c' :: kept) /\
      unanimous i (tsc s) = Returned (false, tsc s').
Proof.
  induction i as [|i IH]; intros s csh c rest found c' s' Hr H.
  - injection H as <- <- <-. split; [apply frame_refl|]. auto.
  - simpl in H. apply bind_inv in H as (miss & s0 & HP & H).
    apply Probe_inv in HP as (time & HPa & -> & En & Ep).
    pose proof (ring_same_links _ _ _ En Ep Hr) as Hr0.
    simpl. rewrite HPa. destruct (LLC_CYCLE_THRESHOLD <? time); simpl in H.
    + apply IH with (rest := rest) in H as [Hf H]; [|done].
      split; [|exact H].
      eapply frame_trans; [by apply frame_same_links|exact Hf].
    + apply bind_inv in H as (c2 & s2 & Hd & H). injection H as <- <- <-.
      apply drop_candidate_ring with (rest := rest) in Hd
        as (kept & -> & Hr2 & Et & Hf); [|done].
      split; [eapply frame_trans; [by apply frame_same_links|exact Hf]|].
      exists kept. rewrite <- Et. auto.
Qed.

Lemma drop_hits_inv m : forall s csh c rest miss c' s',
  ring s (c :: rest) ->
  drop_hits m csh c miss s = Returned (c', s') ->
  exists dropped kept,
    c :: rest = dropped ++ c' :: kept /\ ring s' (c' :: kept) /\
    frame (c :: rest) (c :: rest) s s' /\
    pick_after_first miss (tsc s) (c :: rest)
    = pick_after_first true (tsc s') (c' :: kept).
Proof.
  induction m as [|m IH]; intros s csh c rest miss c' s' Hr H.
  - simpl in H. destruct miss; simpl in H; [|discriminate].
    injection H as <- <-. exists [], rest. split_and!; auto using frame_refl.
  - simpl in H. destruct miss; simpl in H.
    { injection H as <- <-. exists [], rest. split_and!; auto using frame_refl. }
    apply bind_inv in H as (c2 & s1 & Hd & H).
    apply drop_candidate_ring with (rest := rest) in Hd
      as (kept & -> & Hr1 & Et & Hf); [|done].
    apply bind_inv in H as (miss2 & s2 & HP & H).
    apply Probe_inv in HP as (time & HPa & -> & En & Ep).
    pose proof (ring_same_links _ _ _ En Ep Hr1) as Hr2.
    apply IH with (rest := kept) in H
      as (dropped & kept' & Hsplit & Hr' & Hf' & Hspec); [|done].
    exists (c :: dropped), kept'. split_and!.
    + simpl. by rewrite Hsplit.
    + done.
    + eapply frame_trans; [exact Hf|].
      eapply frame_trans; [by apply frame_same_links|].
      eapply frame_mono; [exact Hf'| |]; intros x Hx; by right.
    + rewrite <- Hspec. unfold pick_after_first at 1, pick_next.
      rewrite <- Et. by apply pick_witness_first.
Qed.

Lemma find_witness_refines n : forall fuel s csh c rest w s',
  ring s (c :: rest) ->
  find_witness n fuel csh c s = Returned (w, s') ->
  exists dropped kept,
    c :: rest = dropped ++ w :: kept /\ ring s' (w :: kept) /\
    frame (c :: rest) (c :: rest) s s' /\
    pick_witness (tsc s) (c :: rest) = Returned (w :: kept, tsc s').
Proof.
  induction n as [|n IH]; intros fuel s csh c rest w s' Hr H; [discriminate|].
  cbn [find_witness] in H. apply bind_inv in H as (miss & s0 & HP & H).
  apply Probe_inv in HP as (time & HPa & -> & En & Ep).
  pose proof (ring_same_links _ _ _ En Ep Hr) as Hr0.
  rewrite (pick_witness_first _ _ _ _ _ HPa).
  apply bind_inv in H as (c1 & s1 & Hd & H).
  apply drop_hits_inv with (rest := rest) in Hd
    as (dropped & kept & Hsplit & Hr1 & Hf1 & Hspec); [|done].
  rewrite Hspec.
  apply bind_inv in H as ([found c2] & s2 & Hc & H).
  apply confirm_inv with (rest := kept) in Hc as [Hf2 Hc]; [|done].
  assert (Hsub : forall x, x ∈ c1 :: kept -> x ∈ c :: rest).
  { intros x Hx. rewrite Hsplit. apply elem_of_app. by right. }
  assert (Hf02 : frame (c :: rest) (c :: rest) s s2).
  { eapply frame_trans; [by apply frame_same_links|].
    eapply frame_trans; [exact Hf1|].
    eapply frame_mono; [exact Hf2|done|done]. }
  destruct found.
  - destruct Hc as (-> & Hr2 & Hu). injection H as <- <-.
    exists dropped, kept. split_and!; auto.
    unfold pick_after_first. by rewrite Hu.
  - destruct Hc as (kept2 & -> & Hr2 & Hu).
    apply IH with (rest := kept2) in H
      as (dropped' & kept' & Hsplit' & Hr' & Hf' & Hspec'); [|done].
    exists (dropped ++ c1 :: dropped'), kept'. split_and!.
    + rewrite Hsplit. rewrite <- app_assoc. simpl. by rewrite Hsplit'.
    + done.
    + eapply frame_trans; [exact Hf02|].
      eapply frame_mono; [exact Hf'| |]; intros x Hx; apply Hsub; by right.
    + unfold pick_after_first. rewrite Hu. unfold pick_next. exact Hspec'.
Qed.

(** ** std::set as an ascending list *)

Lemma set_insert_elem x a l : x ∈ set_insert a l <-> x = a \/ x ∈ l.
Proof.
  induction l as [|y l IH]; simpl.
  - rewrite list_elem_of_singleton, elem_of_nil. tauto.
  - destruct (Z.ltb_spec a y).
    + rewrite elem_of_cons. tauto.
    + destruct (Z.eqb_spec a y) as [->|Hne].
      * rewrite elem_of_cons. tauto.
      * rewrite !elem_of_cons, IH. tauto.
Qed.

Lemma set_insert_ascending a l : ascending l -> ascending (set_insert a l).
Proof.
  unfold ascending. induction l as [|y l IH]; intros Hs; simpl.
  - repeat constructor.
  - destruct (Z.ltb_spec a y).
    + constructor; [done|]. constructor; [done|].
      apply StronglySorted_inv in Hs as [_ Hy].
      eapply Forall_impl; [exact Hy|]. simpl. intros; lia.
    + destruct (Z.eqb_spec a y) as [->|Hne]; [done|].
      apply StronglySorted_inv in Hs as [Hs Hy].
      constructor; [by apply IH|].
      apply Forall_forall. intros z Hz. apply set_insert_elem in Hz as [->|Hz].
      * lia.
      * rewrite Forall_forall in Hy. by apply Hy.
Qed.

Lemma ascending_NoDup l : ascending l -> NoDup l.
Proof.
  unfold ascending. induction l as [|y l IH]; intros Hs; [constructor|].
  apply StronglySorted_inv in Hs as [Hs Hy]. constructor; [|by apply IH].
  intros Hin. rewrite Forall_forall in Hy. specialize (Hy _ Hin). lia.
Qed.

Lemma set_insert_length a l :
  a ∉ l -> length (set_insert a l) = S (length l).
Proof.
  induction l as [|y l IH]; intros Hn; simpl; [done|].
  destruct (Z.ltb_spec a y); [done|].
  destruct (Z.eqb_spec a y) as [->|Hne].
  - exfalso. apply Hn. left.
  - simpl. rewrite IH; [done|]. intros Hin. apply Hn. by right.
Qed.

Lemma ring_next_elem s l x n :
  ring s l -> x ∈ l -> nxt s !! x = Some n -> n ∈ l.
Proof.
  intros Hr Hx Hn. destruct (ring_at _ _ _ Hr Hx) as (l1 & l2 & -> & Hr').
  rewrite (ring_head_next _ _ _ Hr') in Hn. injection Hn as <-.
  destruct (l2 ++ l1) as [|y l] eqn:E; simpl.
  - apply elem_of_app. right. left.
  - assert (y ∈ l2 ++ l1) as Hy by (rewrite E; left).
    apply elem_of_app in Hy as [Hy|Hy]; apply elem_of_app; [right; by right|by left].
Qed.

Lemma isolate_slice_inv n : forall s conf candidate t marked ev s',
  ring s conf -> t ∈ conf ->
  (forall x, x ∈ marked -> x ∈ conf) -> ascending marked ->
  Z.of_nat (length marked) <= WAYS_PER_BANK ->
  isolate_slice n candidate t marked s = Returned (ev, s') ->
  nxt s' = nxt s /\ prv s' = prv s /\
  ascending ev /\ (forall x, x ∈ ev -> x ∈ conf) /\
  Z.of_nat (length ev) = WAYS_PER_BANK.
Proof.
  induction n as [|n IH]; intros s conf candidate t marked ev s'
    Hr Ht Hsub Hasc Hlen H.
  - simpl in H. destruct (_ <? WAYS_PER_BANK) eqn:E; [discriminate|].
    injection H as <- <-. apply Z.ltb_ge in E. split_and!; auto. lia.
  - simpl in H. destruct (_ <? WAYS_PER_BANK) eqn:E.
    2:{ injection H as <- <-. apply Z.ltb_ge in E. split_and!; auto. lia. }
    apply Z.ltb_lt in E. case_bool_decide as Hmarked.
    + apply bind_inv in H as (t' & s1 & Hn & H).
      apply get_next_inv in Hn as [Hn ->].
      eapply IH in H; eauto. eapply ring_next_elem; eauto.
    + apply bind_inv in H as ([marked' t'] & s1 & Htest & H).
      destruct (test_node_inv _ _ _ _ _ _ _ Hr Ht Htest)
        as (nx & p & miss & s0 & Hn & Hp & Hu & HP & -> & Er).
      injection Er as -> ->.
      set (s1 := Machine (nxt s) (prv s) (tsc s0)) in *.
      set (marked' := if negb miss then set_insert t marked else marked) in *.
      assert (Hr1 : ring s1 conf).
      { eapply ring_same_links; [| |exact Hr]; reflexivity. }
      assert (Hn1 : nx ∈ conf) by (eapply ring_next_elem; eauto).
      assert (Hsub1 : forall x, x ∈ marked' -> x ∈ conf).
      { intros x Hx. unfold marked' in Hx. destruct (negb miss); [|by apply Hsub].
        apply set_insert_elem in Hx as [->|Hx]; auto. }
      assert (Hasc1 : ascending marked').
      { unfold marked'. destruct (negb miss); [by apply set_insert_ascending|done]. }
      assert (Hlen1 : Z.of_nat (length marked') <= WAYS_PER_BANK).
      { unfold marked'. destruct (negb miss); [|lia].
        rewrite set_insert_length by done. lia. }
      apply (IH s1 conf candidate nx marked' ev s' Hr1 Hn1 Hsub1 Hasc1 Hlen1) in H.
      exact H.
Qed.

(** Linking a fresh node in behind the last node of a ring, as the four
    stores of lines 444-447 and 629-632 do. *)
Lemma insert_back_ring s h cl c :
  ring s (h :: cl) -> c ∉ h :: cl ->
  let t := List.last cl h in
  let s2 := Machine (<[t := c]> (<[c := h]> (nxt s)))
                    (<[h := c]> (<[c := t]> (prv s))) (tsc s) in
  ring s2 (h :: cl ++ [c]) /\ frame [t; c] [h; c] s s2.
Proof.
  intros Hc Hch t s2.
  pose proof (frame_stores2 s t c c h h c c t (tsc s)) as Hf. fold s2 in Hf.
  pose proof (ring_NoDup _ _ Hc) as Hnd1.
  assert (Ht : t ∈ h :: cl) by apply last_elem_of.
  assert (Htc : t <> c) by (intros ->; done).
  assert (Hhc : h <> c) by (intros ->; apply Hch; left).
  split; [|exact Hf].
  eapply ring_insert_last; [exact Hc|exact Hch|exact Hf| | | |].
  - intros x Hx Hin. apply elem_of_cons in Hin as [->|Hin].
    + revert Hx. unfold t. rewrite <- (last_cons_default h h cl).
      by apply NoDup_last_not_removelast.
    + apply list_elem_of_singleton in Hin. subst. apply Hch.
      by apply elem_of_removelast.
  - intros y Hy Hin. apply elem_of_cons in Hin as [->|Hin].
    + by inversion Hnd1.
    + apply list_elem_of_singleton in Hin. subst. apply Hch. by right.
  - split; simpl; [apply lookup_insert_eq|].
    rewrite lookup_insert_ne by done. apply lookup_insert_eq.
  - split; simpl; [|apply lookup_insert_eq].
    rewrite lookup_insert_ne by done. apply lookup_insert_eq.
Qed.

Lemma splice_rest_cons x rest e csh s a q t :
  nxt s !! x = Some a -> prv s !! x = Some q -> prv s !! e = Some t ->
  e <> a -> e <> x ->
  splice_rest (x :: rest) e csh s
  = splice_rest rest e (if x =? csh then a else csh)
      (Machine (<[t := x]> (<[x := e]> (nxt (link q a s))))
               (<[e := x]> (<[x := t]> (prv (link q a s)))) (tsc s)).
Proof.
  intros Hn Hp He Hea Hex. cbn [splice_rest].
  assert (Hhead : (if x =? csh then get_next csh else ret csh) s
                  = Returned (if x =? csh then a else csh, s)).
  { destruct (Z.eqb_spec x csh) as [<-|_]; [by apply get_next_eq|done]. }
  rewrite (bind_Returned _ _ _ _ _ Hhead).
  rewrite (bind_Returned _ _ _ _ _ (unlink_rev_eq _ _ _ _ Hn Hp)).
  unfold bind at 1. simpl.
  erewrite bind_Returned; [|apply get_prev_eq; simpl].
  2:{ rewrite lookup_insert_ne by done. exact He. }
  unfold bind at 1. simpl.
  erewrite bind_Returned; [|apply get_next_eq; simpl; apply lookup_insert_eq].
  unfold bind at 1. simpl.
  erewrite bind_Returned; [|apply get_prev_eq; simpl].
  2:{ rewrite lookup_insert_ne by done. apply lookup_insert_eq. }
  unfold bind at 1. simpl. reflexivity.
Qed.

Lemma splice_rest_spec nodes : forall s conf e el csh,
  ring s conf -> ring s (e :: el) -> NoDup (conf ++ e :: el) ->
  csh ∈ conf -> NoDup nodes -> (forall x, x ∈ nodes -> x ∈ conf) ->
  (length nodes < length conf)%nat ->
  exists csh' s' conf',
    splice_rest nodes e csh s = Returned (csh', s') /\
    ring s' conf' /\ ring s' (e :: el ++ nodes) /\ csh' ∈ conf' /\
    conf ≡ₚ nodes ++ conf' /\ tsc s' = tsc s /\
    frame (conf ++ e :: el) (conf ++ e :: el) s s'.
Proof.
  induction nodes as [|x rest IH]; intros s conf e el csh
    Hc He Hnd Hcsh Hndn Hsub Hlen.
  - exists csh, s, conf. rewrite app_nil_r. split_and!; auto using frame_refl.
  - assert (Hx : x ∈ conf) by (apply Hsub; left).
    destruct (ring_at _ _ _ Hc Hx) as (l1 & l2 & Econf & Hr').
    assert (Hpc : conf ≡ₚ x :: l2 ++ l1).
    { rewrite Econf. symmetry. apply Permutation_cons_app, Permutation_app_comm. }
    destruct (l2 ++ l1) as [|a l] eqn:E.
    { apply Permutation_length in Hpc. simpl in *. lia. }
    pose proof (ring_head_edges _ _ _ Hr') as [[_ Hp] [Hn _]].
    rewrite last_cons_default in Hp. simpl in Hn.
    pose proof (ring_head_edges _ _ _ He) as [[_ Hpe] _].
    set (q := List.last l a) in *. set (t := List.last el e) in *.
    apply NoDup_app in Hnd as (Hnd1 & Hdisj & Hnd2).
    assert (Hxa : forall y, y ∈ x :: a :: l -> y ∈ conf).
    { intros y Hy. by rewrite Hpc. }
    assert (Hea : e <> a).
    { intros ->. apply (Hdisj a); [apply Hxa; right; left|left]. }
    assert (Hex : e <> x).
    { intros ->. apply (Hdisj x); [done|left]. }
    rewrite (splice_rest_cons x rest e csh s a q t Hn Hp Hpe Hea Hex).
    pose proof (ring_drop_head _ _ _ _ Hr') as [_ Hr1]. fold q in Hr1.
    set (s1 := link q a s) in *.
    assert (Hq : q ∈ a :: l) by apply last_elem_of.
    assert (He1 : ring s1 (e :: el)).
    { eapply ring_frame; [exact He|apply frame_link| |];
        intros y Hy Hin; apply list_elem_of_singleton in Hin; subst.
      - apply (Hdisj q); [apply Hxa; by right|done].
      - apply (Hdisj a); [apply Hxa; right; left|done]. }
    assert (Hxe : x ∉ e :: el) by (by apply Hdisj).
    destruct (insert_back_ring s1 e el x He1 Hxe) as [He2 Hf2].
    fold t in He2, Hf2. simpl tsc in He2, Hf2.
    set (s2 := Machine _ _ _) in *.
    assert (Hnd' : NoDup (x :: a :: l)) by (by rewrite <- Hpc).
    assert (Ht : t ∈ e :: el) by apply last_elem_of.
    assert (Hr2 : ring s2 (a :: l)).
    { eapply ring_frame; [exact Hr1|exact Hf2| |];
        intros y Hy Hin; apply elem_of_cons in Hin as [->|Hin];
        try (apply list_elem_of_singleton in Hin; subst).
      - apply (Hdisj t); [apply Hxa; by right|done].
      - inversion Hnd'; subst; done.
      - apply (Hdisj e); [apply Hxa; by right|left].
      - inversion Hnd'; subst; done. }
    apply NoDup_cons in Hndn as [Hxrest Hndrest].
    destruct (IH s2 (a :: l) e (el ++ [x]) (if x =? csh then a else csh))
      as (csh' & s' & conf' & Hrun & Hc' & He' & Hcsh' & Hperm' & Et' & Hf').
    + exact Hr2.
    + exact He2.
    + apply NoDup_app. split; [by inversion Hnd'|]. split.
      * intros y Hy Hin. apply elem_of_cons in Hin as [->|Hin].
        { apply (Hdisj e); [apply Hxa; by right|left]. }
        apply elem_of_app in Hin as [Hin|Hin].
        { apply (Hdisj y); [apply Hxa; by right|by right]. }
        apply list_elem_of_singleton in Hin. subst. inversion Hnd'; subst; done.
      * by apply ring_NoDup in He2.
    + destruct (Z.eqb_spec x csh) as [<-|Hne]; [left|].
      rewrite Hpc in Hcsh. apply elem_of_cons in Hcsh as [->|Hcsh]; done.
    + exact Hndrest.
    + intros y Hy. assert (Hyc : y ∈ conf) by (apply Hsub; by right).
      rewrite Hpc in Hyc. apply elem_of_cons in Hyc as [->|Hyc]; done.
    + apply Permutation_length in Hpc. simpl in *. lia.
    + exists csh', s', conf'. split; [exact Hrun|]. split_and!.
      * exact Hc'.
      * by rewrite <- app_assoc in He'.
      * exact Hcsh'.
      * rewrite Hpc. simpl. by rewrite Hperm'.
      * by rewrite Et'.
      * assert (Hsub0 : forall y, y ∈ a :: l -> y ∈ conf ++ e :: el).
        { intros y Hy. apply elem_of_app. left. apply Hxa. by right. }
        eapply frame_trans; [|eapply frame_trans].
        -- eapply frame_mono; [apply frame_link| |]; intros y Hy;
             apply list_elem_of_singleton in Hy; subst; apply Hsub0; [done|left].
        -- eapply frame_mono; [exact Hf2| |]; intros y Hy;
             apply elem_of_cons in Hy as [->|Hy];
             try (apply list_elem_of_singleton in Hy; subst);
             apply elem_of_app; auto using list_elem_of_here.
        -- eapply frame_mono; [exact Hf'| |]; intros y Hy;
             (apply elem_of_app in Hy as [Hy|Hy]; [by apply Hsub0|]);
             (apply elem_of_cons in Hy as [->|Hy];
              [apply elem_of_app; right; left|]);
             (apply elem_of_app in Hy as [Hy|Hy];
              [apply elem_of_app; right; by right|]);
             apply list_elem_of_singleton in Hy; subst;
             apply elem_of_app; by left.
Qed.

Lemma ring_singleton x s : ring (link x x s) [x].
Proof.
  split; [apply NoDup_singleton|]. simpl. split; [apply linked_link_same|done].
Qed.

Lemma splice_out_spec s conf csh e mrest :
  ring s conf -> csh ∈ conf -> NoDup (e :: mrest) ->
  (forall x, x ∈ e :: mrest -> x ∈ conf) ->
  (length (e :: mrest) < length conf)%nat ->
  exists csh' s' conf',
    splice_out (e :: mrest) csh s = Returned ((e, csh'), s') /\
    ring s' conf' /\ ring s' (e :: mrest) /\ csh' ∈ conf' /\
    conf ≡ₚ (e :: mrest) ++ conf' /\ tsc s' = tsc s /\
    frame conf conf s s'.
Proof.
  intros Hc Hcsh Hndm Hsub Hlen.
  assert (Hx : e ∈ conf) by (apply Hsub; left).
  destruct (ring_at _ _ _ Hc Hx) as (l1 & l2 & Econf & Hr').
  assert (Hpc : conf ≡ₚ e :: l2 ++ l1).
  { rewrite Econf. symmetry. apply Permutation_cons_app, Permutation_app_comm. }
  destruct (l2 ++ l1) as [|a l] eqn:E.
  { apply Permutation_length in Hpc. simpl in *. lia. }
  pose proof (ring_head_edges _ _ _ Hr') as [[_ Hp] [Hn _]].
  rewrite last_cons_default in Hp. simpl in Hn.
  set (q := List.last l a) in *.
  pose proof (ring_drop_head _ _ _ _ Hr') as [_ Hr1]. fold q in Hr1.
  set (s1 := link q a s) in *.
  pose proof (ring_NoDup _ _ Hr') as Hnd'.
  apply NoDup_cons in Hnd' as [Hea Hndal].
  assert (Hr2 : ring (link e e s1) (a :: l)) by (by apply ring_link_frame).
  pose proof (ring_singleton e s1) as He2.
  set (s2 := link e e s1) in *.
  apply NoDup_cons in Hndm as [Hem Hndrest].
  assert (Hxa : forall y, y ∈ e :: a :: l -> y ∈ conf).
  { intros y Hy. by rewrite Hpc. }
  destruct (splice_rest_spec mrest s2 (a :: l) e [] (if e =? csh then a else csh))
    as (csh' & s' & conf' & Hrun & Hc' & He' & Hcsh' & Hperm' & Et' & Hf').
  - exact Hr2.
  - exact He2.
  - apply NoDup_app. split; [done|]. split; [|apply NoDup_singleton].
    intros y Hy Hin. apply list_elem_of_singleton in Hin. by subst.
  - destruct (Z.eqb_spec e csh) as [<-|Hne]; [left|].
    rewrite Hpc in Hcsh. apply elem_of_cons in Hcsh as [->|Hcsh]; done.
  - exact Hndrest.
  - intros y Hy. assert (Hyc : y ∈ conf) by (apply Hsub; by right).
    rewrite Hpc in Hyc. apply elem_of_cons in Hyc as [->|Hyc]; done.
  - apply Permutation_length in Hpc. simpl in *. lia.
  - exists csh', s', conf'. split_and!.
    + unfold splice_out. simpl set_begin. unfold set_begin.
      unfold bind at 1.
      assert (Hhead : (if e =? csh then get_next csh else ret csh) s
                      = Returned (if e =? csh then a else csh, s)).
      { destruct (Z.eqb_spec e csh) as [<-|_]; [by apply get_next_eq|done]. }
      rewrite (bind_Returned _ _ _ _ _ Hhead).
      rewrite (bind_Returned _ _ _ _ _ (unlink_rev_eq _ _ _ _ Hn Hp)).
      do 2 (unfold bind at 1; simpl).
      change (Machine _ _ _) with s2. simpl tail.
      by rewrite (bind_Returned _ _ _ _ _ Hrun).
    + exact Hc'.
    + exact He'.
    + exact Hcsh'.
    + rewrite Hpc. simpl. by rewrite Hperm'.
    + by rewrite Et'.
    + eapply frame_trans; [|eapply frame_trans].
      * eapply frame_mono; [apply (frame_link q a)| |]; intros y Hy;
          apply list_elem_of_singleton in Hy; subst; apply Hxa; right;
          [apply last_elem_of|left].
      * eapply frame_mono; [apply (frame_link e e)| |]; intros y Hy;
          apply list_elem_of_singleton in Hy; by subst.
      * eapply frame_mono; [exact Hf'| |]; intros y Hy;
          (apply elem_of_app in Hy as [Hy|Hy]; [apply Hxa; by right|]);
          apply list_elem_of_singleton in Hy; by subst.
Qed.

(** ** Slice partitioning *)

Lemma elem_of_concat (x : Z) (ls : list (list Z)) :
  x ∈ concat ls <-> exists l, l ∈ ls /\ x ∈ l.
Proof.
  induction ls as [|l ls IH]; simpl.
  - rewrite elem_of_nil. split; [done|]. intros (l & Hl & _). by apply elem_of_nil in Hl.
  - rewrite elem_of_app, IH. split.
    + intros [H|(l' & Hl' & H)]; [exists l; split; [left|done]|].
      exists l'. split; [by right|done].
    + intros (l' & Hl' & H). apply elem_of_cons in Hl' as [->|Hl']; [by left|].
      right. eauto.
Qed.

Lemma partition_round_inv fuel s conf0 csh cand heads conf pool evs e csh' cand' s' :
  partition_inv s conf0 csh cand heads conf pool evs ->
  (length heads < 11)%nat ->
  partition_round fuel csh cand s = Returned ((e, csh', cand'), s') ->
  exists conf' pool' ev,
    partition_inv s' conf0 csh' cand' (heads ++ [e]) conf' pool' (evs ++ [ev]).
Proof.
  intros (Hc & Hcsh & Hp & [prest ->] & Hevs & Hheads & Hnd & Hperm & Hsize) Hlt H.
  pose proof (Forall2_length _ _ _ Hheads) as Hlen.
  apply NoDup_app in Hnd as (Hndp & Hdisj & Hnd).
  apply NoDup_app in Hnd as (Hndc & Hdisj' & Hnde).
  assert (D1 : forall x, x ∈ cand :: prest -> x ∉ conf).
  { intros x Hx Hin. apply (Hdisj x Hx). apply elem_of_app. by left. }
  assert (D2 : forall r x, r ∈ evs -> x ∈ r -> x ∉ cand :: prest).
  { intros r x Hr Hx Hin. apply (Hdisj x Hin). apply elem_of_app. right.
    apply elem_of_concat. eauto. }
  assert (D3 : forall r x, r ∈ evs -> x ∈ r -> x ∉ conf).
  { intros r x Hr Hx Hin. apply (Hdisj' x Hin). apply elem_of_concat. eauto. }
  unfold partition_round in H.
  (* the witness *)
  apply bind_inv in H as (w & s1 & Hfw & H).
  apply find_witness_refines with (rest := prest) in Hfw
    as (dropped & kept & Hsplit & Hp1 & Hf1 & _); [|exact Hp].
  assert (Hsubp : forall x, x ∈ w :: kept -> x ∈ cand :: prest).
  { intros x Hx. rewrite Hsplit. apply elem_of_app. by right. }
  assert (Hc1 : ring s1 conf).
  { eapply ring_frame; [exact Hc|exact Hf1| |]; intros x Hx Hin; by apply (D1 x). }
  assert (Hevs1 : forall r, r ∈ evs -> ring s1 r /\ length r = 20%nat).
  { intros r Hr. destruct (Hevs r Hr) as [Hrr Hrl]. split; [|done].
    eapply ring_frame; [exact Hrr|exact Hf1| |]; intros x Hx Hin; by apply (D2 r x). }
  (* its slice *)
  apply bind_inv in H as (marked & s2 & Hiso & H).
  apply isolate_slice_inv with (conf := conf) in Hiso
    as (En & Ep & Hasc & Hsubm & Hlenm); auto.
  2:{ intros x Hx. by apply elem_of_nil in Hx. }
  2:{ constructor. }
  2:{ unfold WAYS_PER_BANK. simpl. lia. }
  assert (Hc2 : ring s2 conf) by (eapply ring_same_links; eauto).
  assert (Hp2 : ring s2 (w :: kept)) by (eapply ring_same_links; eauto).
  assert (Hevs2 : forall r, r ∈ evs -> ring s2 r /\ length r = 20%nat).
  { intros r Hr. destruct (Hevs1 r Hr). split; [|done]. eapply ring_same_links; eauto. }
  unfold WAYS_PER_BANK in Hlenm.
  destruct marked as [|e' mrest]; [simpl in Hlenm; lia|].
  (* splice *)
  destruct (splice_out_spec s2 conf csh e' mrest Hc2 Hcsh)
    as (csh2 & s3 & conf' & Hrun & Hc3 & He3 & Hcsh3 & Hperm3 & Et3 & Hf3).
  { by apply ascending_NoDup. }
  { exact Hsubm. }
  { lia. }
  rewrite (bind_Returned _ _ _ _ _ Hrun) in H.
  assert (Hp3 : ring s3 (w :: kept)).
  { eapply ring_frame; [exact Hp2|exact Hf3| |]; intros x Hx Hin;
      apply (D1 x); auto. }
  assert (Hevs3 : forall r, r ∈ evs -> ring s3 r /\ length r = 20%nat).
  { intros r Hr. destruct (Hevs2 r Hr) as [Hrr Hrl]. split; [|done].
    eapply ring_frame; [exact Hrr|exact Hf3| |]; intros x Hx Hin; by apply (D3 r x). }
  (* retire the witness *)
  apply bind_inv in H as (c' & s4 & Hd & H). injection H as <- <- <- <-.
  apply drop_candidate_ring with (rest := kept) in Hd
    as (kept' & -> & Hp4 & Et4 & Hf4); [|exact Hp3].
  assert (Hsubc : forall x, x ∈ conf' -> x ∈ conf).
  { intros x Hx. rewrite Hperm3. apply elem_of_app. by right. }
  assert (Hc4 : ring s4 conf').
  { eapply ring_frame; [exact Hc3|exact Hf4| |]; intros x Hx Hin;
      apply (D1 x); auto. }
  assert (He4 : ring s4 (e' :: mrest)).
  { eapply ring_frame; [exact He3|exact Hf4| |]; intros x Hx Hin;
      apply (D1 x); auto. }
  assert (Hevs4 : forall r, r ∈ evs -> ring s4 r /\ length r = 20%nat).
  { intros r Hr. destruct (Hevs3 r Hr) as [Hrr Hrl]. split; [|done].
    eapply ring_frame; [exact Hrr|exact Hf4| |]; intros x Hx Hin;
      apply (D2 r x); auto. }
  exists conf', (c' :: kept'), (e' :: mrest).
  unfold partition_inv. split_and!.
  - exact Hc4.
  - exact Hcsh3.
  - exact Hp4.
  - by exists kept'.
  - intros r Hr. apply elem_of_app in Hr as [Hr|Hr]; [by apply Hevs4|].
    apply list_elem_of_singleton in Hr. subst. split; [done|lia].
  - apply Forall2_app; [exact Hheads|]. constructor; [left|constructor].
  - rewrite concat_app.
    replace (concat [e' :: mrest]) with (e' :: mrest)
      by (simpl; by rewrite app_nil_r).
    apply NoDup_app. split; [by apply ring_NoDup in Hp4|]. split.
    + intros x Hx Hin.
      assert (Hxp : x ∈ cand :: prest) by (apply Hsubp; by right).
      apply elem_of_app in Hin as [Hin|Hin]; [by apply (D1 x Hxp), Hsubc|].
      apply elem_of_app in Hin as [Hin|Hin].
      * apply elem_of_concat in Hin as (r & Hr & Hxr). by apply (D2 r x).
      * by apply (D1 x Hxp), Hsubm.
    + assert (Hnd3 : NoDup ((e' :: mrest) ++ conf')) by (by rewrite <- Hperm3).
      apply NoDup_app in Hnd3 as (Hndm & Hdm & Hndc').
      apply NoDup_app. split; [done|]. split.
      * intros x Hx Hin. apply elem_of_app in Hin as [Hin|Hin].
        -- apply (Hdisj' x); auto.
        -- by apply (Hdm x).
      * apply NoDup_app. split; [done|]. split; [|done].
        intros x Hx Hin. apply (Hdisj' x); auto.
  - rewrite concat_app.
    replace (concat [e' :: mrest]) with (e' :: mrest)
      by (simpl; by rewrite app_nil_r).
    rewrite <- Hperm, Hperm3. by rewrite <- app_assoc.
  - apply Permutation_length in Hperm3. rewrite !length_app in *.
    simpl in *. lia.
Qed.

Lemma partition_loop_inv n : forall fuel s conf0 csh cand heads conf pool evs
    heads' csh' s',
  partition_inv s conf0 csh cand heads conf pool evs ->
  (length heads <= 11)%nat ->
  partition n fuel heads csh cand s = Returned ((heads', csh'), s') ->
  exists cand' conf' pool' evs',
    partition_inv s' conf0 csh' cand' heads' conf' pool' evs' /\
    length heads' = 11%nat.
Proof.
  induction n as [|n IH]; intros fuel s conf0 csh cand heads conf pool evs
    heads' csh' s' Hinv Hle H.
  - simpl in H. destruct (_ <? _) eqn:E; [discriminate|].
    injection H as <- <- <-. apply Z.ltb_ge in E. unfold LLC_BANKS in E.
    exists cand, conf, pool, evs. split; [done|lia].
  - simpl in H. destruct (_ <? _) eqn:E.
    2:{ injection H as <- <- <-. apply Z.ltb_ge in E. unfold LLC_BANKS in E.
        exists cand, conf, pool, evs. split; [done|lia]. }
    apply Z.ltb_lt in E. unfold LLC_BANKS in E.
    apply bind_inv in H as ([[e csh1] cand1] & s1 & Hround & H).
    eapply partition_round_inv in Hround as (conf1 & pool1 & ev & Hinv1);
      [|exact Hinv|lia].
    eapply IH in H as (cand2 & conf2 & pool2 & evs2 & Hinv2 & Hlen2);
      [|exact Hinv1|rewrite length_app; simpl; lia].
    eauto 10.
Qed.

Lemma walk_eviction_set_state n : forall head node allNodes size s r s',
  walk_eviction_set n head node allNodes size s = Returned (r, s') -> s' = s.
Proof.
  induction n as [|n IH]; intros head node allNodes size s r s' H; simpl in H.
  - destruct (node =? head); [by injection H|discriminate].
  - destruct (node =? head); [by injection H|].
    apply bind_inv in H as (nx & s1 & Hn & H).
    apply get_next_inv in Hn as [_ ->]. by apply IH in H.
Qed.

Lemma check_sizes_state fuel heads : forall allNodes s r s',
  check_sizes fuel heads allNodes s = Returned (r, s') -> s' = s.
Proof.
  induction heads as [|h heads IH]; intros allNodes s r s' H; simpl in H.
  - by injection H.
  - apply bind_inv in H as (nx & s1 & Hn & H).
    apply get_next_inv in Hn as [_ ->].
    apply bind_inv in H as ([all size] & s1 & Hw & H).
    apply walk_eviction_set_state in Hw as ->.
    apply bind_inv in H as (u & s1 & Ha & H).
    apply assert_inv in Ha as [_ ->]. by apply IH in H.
Qed.

Lemma check_times_links heads : forall s r s',
  check_times heads s = Returned (r, s') -> nxt s' = nxt s /\ prv s' = prv s.
Proof.
  induction heads as [|h heads IH]; intros s r s' H; simpl in H.
  - injection H as <- <-. done.
  - apply bind_inv in H as (time & s1 & Ht & H).
    apply average_access_time_inv in Ht as (En & Ep & _).
    apply bind_inv in H as (u & s2 & Ha & H).
    apply assert_inv in Ha as [_ ->]. apply IH in H as [En' Ep'].
    split; congruence.
Qed.

Lemma SanityCheckEvictionSets_links fuel heads s r s' :
  SanityCheckEvictionSets fuel heads s = Returned (r, s') ->
  nxt s' = nxt s /\ prv s' = prv s.
Proof.
  unfold SanityCheckEvictionSets. intros H.
  apply bind_inv in H as (all & s1 & Hs & H).
  apply check_sizes_state in Hs as ->.
  apply bind_inv in H as (u & s2 & Ha & H).
  apply assert_inv in Ha as [_ ->]. by apply check_times_links in H.
Qed.

Lemma partition_conflict_set_inv fuel s conf pool csh ch heads s' :
  ring s conf -> ring s pool -> NoDup (conf ++ pool) ->
  csh ∈ conf -> ch ∈ pool -> length conf = 240%nat ->
  partition_conflict_set fuel csh ch s = Returned (heads, s') ->
  exists rings : list (list Z),
    length heads = 12%nat /\
    Forall2 (fun h r => h ∈ r) heads rings /\
    (forall r, r ∈ rings -> ring s' r /\ length r = 20%nat) /\
    NoDup (concat rings) /\
    concat rings ≡ₚ conf.
Proof.
  intros Hc Hp Hnd Hcsh Hch Hlen H.
  destruct (ring_at _ _ _ Hp Hch) as (l1 & l2 & Epool & Hp').
  assert (Hpp : pool ≡ₚ ch :: l2 ++ l1).
  { rewrite Epool. symmetry. apply Permutation_cons_app, Permutation_app_comm. }
  assert (Hinv : partition_inv s conf csh ch [] conf (ch :: l2 ++ l1) []).
  { unfold partition_inv. split_and!; auto.
    - by exists (l2 ++ l1).
    - intros r Hr. by apply elem_of_nil in Hr.
    - change (concat []) with (@nil Z). rewrite app_nil_r, <- Hpp.
      by rewrite Permutation_app_comm.
    - simpl. lia. }
  unfold partition_conflict_set in H.
  apply bind_inv in H as ([heads1 csh1] & s1 & Hpart & H).
  eapply partition_loop_inv in Hpart
    as (cand' & conf' & pool' & evs' & Hinv' & Hlen'); [|exact Hinv|simpl; lia].
  apply bind_inv in H as (u & s2 & Hsan & H). injection H as <- <-.
  apply SanityCheckEvictionSets_links in Hsan as [En Ep].
  destruct Hinv' as (Hc' & Hcsh' & Hp1 & _ & Hevs & Hheads & Hnd' & Hperm & Hsize).
  pose proof (Forall2_length _ _ _ Hheads) as Hl.
  exists (evs' ++ [conf']). split_and!.
  - rewrite length_app. simpl. lia.
  - apply Forall2_app; [done|]. by constructor.
  - intros r Hr. apply elem_of_app in Hr as [Hr|Hr].
    + destruct (Hevs r Hr). split; [|done]. eapply ring_same_links; eauto.
    + apply list_elem_of_singleton in Hr. subst.
      split; [eapply ring_same_links; eauto|lia].
  - rewrite concat_app. simpl. rewrite app_nil_r.
    apply NoDup_app in Hnd' as (_ & _ & Hnd').
    by rewrite Permutation_app_comm.
  - rewrite concat_app. simpl. by rewrite app_nil_r.
Qed.

(** ** RandomizeLinkedList *)

Lemma make_dictionary_fold permutation :
  make_dictionary permutation
  = fold_left (add_entry permutation) (seq 0 (length permutation)) ∅.
Proof. reflexivity. Qed.

Lemma fold_add_entry_other permutation idxs : forall d key,
  key ∉ (fun i => permutation !!! i) <$> idxs ->
  fold_left (add_entry permutation) idxs d !! key = d !! key.
Proof.
  induction idxs as [|i idxs IH]; intros d key Hk; [done|].
  simpl. rewrite IH.
  - unfold add_entry. apply lookup_insert_ne. intros E. apply Hk. rewrite fmap_cons, E. left.
  - intros Hin. apply Hk. rewrite fmap_cons. by right.
Qed.

Lemma fold_add_entry_lookup permutation idxs : forall d j,
  NoDup ((fun i => permutation !!! i) <$> idxs) -> j ∈ idxs ->
  fold_left (add_entry permutation) idxs d !! (permutation !!! j) = Some j.
Proof.
  induction idxs as [|i idxs IH]; intros d j Hnd Hj.
  - by apply elem_of_nil in Hj.
  - rewrite fmap_cons in Hnd. apply NoDup_cons in Hnd as [Hi Hnd]. simpl.
    destruct (decide (j = i)) as [->|Hne].
    + rewrite fold_add_entry_other by done. unfold add_entry. apply lookup_insert_eq.
    + apply elem_of_cons in Hj as [->|Hj]; [done|]. by apply IH.
Qed.

Lemma map_lookup_total_seq (l : list nat) :
  (fun i => l !!! i) <$> seq 0 (length l) = l.
Proof.
  apply list_eq. intros i. rewrite list_lookup_fmap.
  destruct (l !! i) as [v|] eqn:E.
  - rewrite lookup_seq_lt by (by eapply lookup_lt_Some). simpl.
    f_equal. by apply list_lookup_total_correct.
  - rewrite lookup_seq_ge; [done|]. by apply lookup_ge_None.
Qed.

Lemma make_dictionary_lookup permutation j v :
  NoDup permutation -> permutation !! j = Some v ->
  make_dictionary permutation !! v = Some j.
Proof.
  intros Hnd Hj. rewrite make_dictionary_fold.
  rewrite <- (list_lookup_total_correct _ _ _ Hj).
  apply fold_add_entry_lookup.
  - by rewrite map_lookup_total_seq.
  - apply elem_of_seq. apply lookup_lt_Some in Hj. lia.
Qed.

Lemma link_all_keeps src dst idxs : forall s a b,
  linked s a b -> a ∉ src <$> idxs -> b ∉ dst <$> idxs ->
  linked (link_all src dst idxs s) a b.
Proof.
  induction idxs as [|i idxs IH]; intros s a b H Ha Hb; [done|].
  simpl. apply IH.
  - apply linked_link_other; [| |done].
    + intros ->. apply Ha. rewrite fmap_cons. left.
    + intros ->. apply Hb. rewrite fmap_cons. left.
  - intros Hin. apply Ha. rewrite fmap_cons. by right.
  - intros Hin. apply Hb. rewrite fmap_cons. by right.
Qed.

Lemma link_all_linked src dst idxs : forall s i,
  NoDup (src <$> idxs) -> NoDup (dst <$> idxs) -> i ∈ idxs ->
  linked (link_all src dst idxs s) (src i) (dst i).
Proof.
  induction idxs as [|i0 idxs IH]; intros s i Hs Hd Hi.
  - by apply elem_of_nil in Hi.
  - rewrite fmap_cons in Hs, Hd. apply NoDup_cons in Hs as [Hs0 Hs].
    apply NoDup_cons in Hd as [Hd0 Hd]. simpl.
    apply elem_of_cons in Hi as [->|Hi].
    + apply link_all_keeps; [apply linked_link_same|done|done].
    + by apply IH.
Qed.

Lemma link_all_tsc src dst idxs : forall s, tsc (link_all src dst idxs s) = tsc s.
Proof. induction idxs as [|i idxs IH]; intros s; [done|]. simpl. by rewrite IH. Qed.

Lemma link_in_order_eq (dictionary : gmap nat nat) size (candidateList : list Z) idxs :
  forall s,
  (forall i, i ∈ idxs ->
     (default 0%nat (dictionary !! i) < length candidateList)%nat /\
     (default 0%nat (dictionary !! ((i + 1) mod size)%nat)
        < length candidateList)%nat) ->
  link_in_order idxs dictionary size candidateList s
  = Returned (tt,
      link_all (fun i => candidateList !!! default 0%nat (dictionary !! i))
               (fun i => candidateList
                           !!! default 0%nat (dictionary !! ((i + 1) mod size)%nat))
               idxs s).
Proof.
  induction idxs as [|i idxs IH]; intros s Hin; [done|].
  destruct (Hin i) as [H1 H2]; [left|].
  cbn [link_in_order].
  apply lookup_lt_is_Some_2 in H1 as [a Ha].
  apply lookup_lt_is_Some_2 in H2 as [b Hb].
  assert (Ea : vec_at candidateList (default 0%nat (dictionary !! i)) s = Returned (a, s)).
  { unfold vec_at. by rewrite Ha. }
  assert (Eb : vec_at candidateList
                 (default 0%nat (dictionary !! ((i + 1) mod size)%nat)) s
               = Returned (b, s)).
  { unfold vec_at. by rewrite Hb. }
  rewrite (bind_Returned _ _ _ _ _ Ea), (bind_Returned _ _ _ _ _ Eb).
  do 2 (unfold bind at 1; simpl).
  rewrite IH by (intros j Hj; apply Hin; by right).
  simpl. rewrite (list_lookup_total_correct _ _ _ Ha).
  rewrite (list_lookup_total_correct _ _ _ Hb). reflexivity.
Qed.

Lemma succ_mod_inj (k i j : nat) :
  (i < k)%nat -> (j < k)%nat ->
  ((i + 1) mod k = (j + 1) mod k)%nat -> i = j.
Proof.
  intros Hi Hj.
  destruct (decide (i + 1 < k)%nat) as [Hi'|Hi'];
  destruct (decide (j + 1 < k)%nat) as [Hj'|Hj'].
  - rewrite !Nat.mod_small by done. lia.
  - rewrite (Nat.mod_small (i + 1)) by done.
    replace (j + 1)%nat with k by lia. rewrite Nat.Div0.mod_same. lia.
  - rewrite (Nat.mod_small (j + 1)) by done.
    replace (i + 1)%nat with k by lia. rewrite Nat.Div0.mod_same. lia.
  - lia.
Qed.

Lemma succ_mod_lt (k i : nat) : (i < k)%nat -> ((i + 1) mod k < k)%nat.
Proof. intros. apply Nat.mod_upper_bound. lia. Qed.

Section Randomize.

Variable random_shuffle : list nat -> list nat.

Lemma RandomizeLinkedList_ring (candidates : list Z) (s : machine) :
  random_shuffle (seq 0 (length candidates)) ≡ₚ seq 0 (length candidates) ->
  NoDup candidates -> candidates <> [] ->
  exists s' L,
    RandomizeLinkedList random_shuffle candidates s = Returned (tt, s') /\
    ring s' L /\ L ≡ₚ candidates /\ tsc s' = tsc s.
Proof.
  intros Hperm Hnd Hne.
  assert (Hk : (0 < length candidates)%nat)
    by (destruct candidates; [done|simpl; lia]).
  set (k := length candidates) in *.
  set (perm := random_shuffle (seq 0 k)) in *.
  assert (Hlen : length perm = k).
  { rewrite (Permutation_length Hperm). apply length_seq. }
  assert (Hndp : NoDup perm) by (rewrite Hperm; apply NoDup_seq).
  assert (Hin : forall v, v ∈ perm <-> (v < k)%nat).
  { intros v. rewrite Hperm, elem_of_seq. lia. }
  set (d := make_dictionary perm).
  set (inv := fun v => default 0%nat (d !! v)).
  assert (I1 : forall v, (v < k)%nat -> perm !! inv v = Some v /\ (inv v < k)%nat).
  { intros v Hv. apply Hin in Hv. apply list_elem_of_lookup in Hv as [j Hj].
    unfold inv, d. rewrite (make_dictionary_lookup perm j v Hndp Hj). simpl.
    split; [done|]. apply lookup_lt_Some in Hj. lia. }
  assert (I2 : forall j, (j < k)%nat -> inv (perm !!! j) = j /\ (perm !!! j < k)%nat).
  { intros j Hj. rewrite <- Hlen in Hj. apply lookup_lt_is_Some_2 in Hj as [v Hv].
    rewrite (list_lookup_total_correct _ _ _ Hv).
    unfold inv, d. rewrite (make_dictionary_lookup perm j v Hndp Hv). simpl.
    split; [done|]. apply Hin. by eapply list_elem_of_lookup_2. }
  set (node := fun v => candidates !!! inv v).
  set (dst := fun i => candidates !!! inv ((i + 1) mod k)%nat).
  assert (Hnode : forall v, (v < k)%nat -> candidates !! inv v = Some (node v)).
  { intros v Hv. apply list_lookup_lookup_total_lt. by apply I1. }
  assert (Hinj : forall v1 v2, (v1 < k)%nat -> (v2 < k)%nat ->
                               node v1 = node v2 -> v1 = v2).
  { intros v1 v2 H1 H2 E.
    pose proof (Hnode v1 H1) as E1. pose proof (Hnode v2 H2) as E2.
    rewrite E in E1.
    pose proof (NoDup_lookup _ _ _ _ Hnd E1 E2) as Ei.
    destruct (I1 v1 H1) as [P1 _]. destruct (I1 v2 H2) as [P2 _].
    rewrite Ei in P1. congruence. }
  exists (link_all node dst (seq 0 k) s), (node <$> seq 0 k).
  split_and!.
  - unfold RandomizeLinkedList. fold k. fold perm. rewrite Hlen. fold d.
    apply link_in_order_eq. intros i Hi. apply elem_of_seq in Hi.
    split; [apply I1; lia|]. apply I1. apply succ_mod_lt. lia.
  - assert (Hedge : forall i, (i < k)%nat ->
                      linked (link_all node dst (seq 0 k) s) (node i) (dst i)).
    { intros i Hi. apply link_all_linked.
      - apply NoDup_fmap_2_strong; [|apply NoDup_seq].
        intros x y Hx Hy. apply elem_of_seq in Hx, Hy. apply Hinj; lia.
      - apply NoDup_fmap_2_strong; [|apply NoDup_seq].
        intros x y Hx Hy E. apply elem_of_seq in Hx, Hy.
        apply (succ_mod_inj k); [lia|lia|].
        apply Hinj; [apply succ_mod_lt; lia|apply succ_mod_lt; lia|exact E].
      - apply elem_of_seq. lia. }
    assert (HL : forall i, (i < k)%nat -> (node <$> seq 0 k) !! i = Some (node i)).
    { intros i Hi. rewrite list_lookup_fmap, lookup_seq_lt by done. done. }
    assert (HLlen : length (node <$> seq 0 k) = k).
    { by rewrite length_fmap, length_seq. }
    split.
    + apply NoDup_fmap_2_strong; [|apply NoDup_seq].
      intros x y Hx Hy. apply elem_of_seq in Hx, Hy. apply Hinj; lia.
    + destruct (node <$> seq 0 k) as [|x0 L'] eqn:EL; [simpl in HLlen; lia|].
      assert (Ex0 : x0 = node 0%nat).
      { pose proof (HL 0%nat Hk) as H0. simpl in H0. congruence. }
      apply path_lookup. intros i x y Hx Hy.
      assert (Hi : (i < k)%nat).
      { apply lookup_lt_Some in Hy. rewrite length_app, HLlen in Hy. simpl in Hy. lia. }
      rewrite lookup_app_l in Hx by lia. rewrite HL in Hx by done.
      injection Hx as <-.
      destruct (decide (S i < k)%nat) as [Hlt|Hge].
      * rewrite lookup_app_l in Hy by lia. rewrite HL in Hy by done.
        injection Hy as <-. pose proof (Hedge i Hi) as He. unfold dst in He.
        rewrite Nat.mod_small in He by lia. by replace (i + 1)%nat with (S i) in He by lia.
      * rewrite lookup_app_r in Hy by lia. rewrite HLlen in Hy.
        replace (S i - k)%nat with 0%nat in Hy by lia. simpl in Hy.
        injection Hy as <-. pose proof (Hedge i Hi) as He. unfold dst in He.
        replace (i + 1)%nat with k in He by lia.
        rewrite Nat.Div0.mod_same in He. by rewrite Ex0.
  - apply NoDup_Permutation; [|done|].
    + apply NoDup_fmap_2_strong; [|apply NoDup_seq].
      intros x y Hx Hy. apply elem_of_seq in Hx, Hy. apply Hinj; lia.
    + intros x. split.
      * intros Hx. apply list_elem_of_fmap in Hx as (v & -> & Hv).
        apply elem_of_seq in Hv. eapply list_elem_of_lookup_2. apply Hnode. lia.
      * intros Hx. apply list_elem_of_lookup in Hx as [j Hj].
        assert (Hjk : (j < k)%nat) by (by apply lookup_lt_Some in Hj).
        destruct (I2 j Hjk) as [E Hv].
        apply list_elem_of_fmap. exists (perm !!! j). split.
        -- unfold node. rewrite E. symmetry. by apply list_lookup_total_correct.
        -- apply elem_of_seq. lia.
  - apply link_all_tsc.
Qed.

End Randomize.

(** ** FindCandidates *)

Lemma land_set_index_bits a :
  Z.land a SET_INDEX_BITS
  = Z.shiftl (Z.shiftr a NUM_CACHE_LINE_BITS mod Z.shiftl 1 NUM_SET_INDEX_BITS)
             NUM_CACHE_LINE_BITS.
Proof.
  unfold SET_INDEX_BITS, NUM_CACHE_LINE_BITS, NUM_SET_INDEX_BITS.
  change (Z.shiftl 1 11) with (2 ^ 11). rewrite <- Z.land_ones by lia.
  change 0x1FFC0 with (Z.shiftl (Z.ones 11) 6).
  apply Z.bits_inj'. intros n Hn.
  rewrite Z.land_spec. destruct (Z.lt_ge_cases n 6) as [Hlt|Hge].
  - rewrite !Z.shiftl_spec_low by lia. apply andb_false_r.
  - rewrite !Z.shiftl_spec by lia. rewrite Z.land_spec, Z.shiftr_spec by lia.
    by replace (n - 6 + 6) with n by lia.
Qed.

Lemma mask_test_iff setIndex a :
  0 <= setIndex < SETS_PER_BANK ->
  (Z.land a SET_INDEX_BITS =? u64 (Z.shiftl setIndex NUM_CACHE_LINE_BITS)) = true
  <-> maps_to_set setIndex a.
Proof.
  intros Hs. rewrite Z.eqb_eq, land_set_index_bits. unfold maps_to_set.
  unfold u64, SETS_PER_BANK, NUM_CACHE_LINE_BITS in *.
  rewrite (Z.shiftl_mul_pow2 _ 6), (Z.shiftl_mul_pow2 setIndex 6) by lia.
  rewrite (Z.mod_small (setIndex * 2 ^ 6)) by lia. lia.
Qed.

Lemma land_cache_line_bits array i :
  Z.land (array + i * CACHE_LINE_SIZE) CACHE_LINE_BITS = Z.land array CACHE_LINE_BITS.
Proof.
  unfold CACHE_LINE_BITS, CACHE_LINE_SIZE. change 0x3F with (Z.ones 6).
  rewrite !Z.land_ones by lia. change (2 ^ 6) with 64. apply Z.mod_add. lia.
Qed.

Lemma Z_iter_N {A} (n : Z) (f : A -> A) (x : A) :
  Z.iter n f x = N.iter (Z.to_N n) f x.
Proof. destruct n; reflexivity. Qed.

Lemma FindCandidates_aligned array candidates setIndex :
  Z.land array CACHE_LINE_BITS = 0 -> ascending candidates ->
  exists l,
    FindCandidates array candidates setIndex = Returned l /\ ascending l /\
    forall a, a ∈ l <->
      a ∈ candidates \/
      (node_of_region array a /\
       (Z.land a SET_INDEX_BITS =? u64 (Z.shiftl setIndex NUM_CACHE_LINE_BITS)) = true).
Proof.
  intros Hal Hasc. unfold FindCandidates. rewrite Z_iter_N.
  set (wanted := u64 (Z.shiftl setIndex NUM_CACHE_LINE_BITS)).
  assert (Hinv : forall m,
    let st := N.iter m (FindCandidates_step array wanted) (0, Returned candidates) in
    fst st = Z.of_N m /\
    exists l, snd st = Returned l /\ ascending l /\
      forall a, a ∈ l <->
        a ∈ candidates \/
        ((exists i, 0 <= i < Z.of_N m /\ a = array + i * CACHE_LINE_SIZE) /\
         (Z.land a SET_INDEX_BITS =? wanted) = true)).
  { intros m. apply N.iter_ind; clear m.
    - split; [done|]. exists candidates. split_and!; [done|done|].
      intros a. split; [by left|]. intros [H|[(i & Hi & _) _]]; [done|lia].
    - intros m [i r] [Hi (l & Hr & Hl & Hel)]. simpl in Hi, Hr. subst i r.
      unfold FindCandidates_step. simpl fst. simpl snd. split; [lia|].
      unfold FindCandidates_body. rewrite land_cache_line_bits, Hal. simpl.
      eexists. split; [reflexivity|]. split.
      + destruct (_ =? wanted); [by apply set_insert_ascending|done].
      + intros a. destruct (Z.land _ SET_INDEX_BITS =? wanted) eqn:E.
        * rewrite set_insert_elem, Hel. split.
          -- intros [->|[H|[(i & Hi & ->) Hq]]]; [right|by left|right].
             ++ split; [exists (Z.of_N m); split; [lia|done]|done].
             ++ split; [exists i; split; [lia|done]|done].
          -- intros [H|[(i & Hi & ->) Hq]]; [right; by left|].
             destruct (decide (i = Z.of_N m)) as [->|Hne]; [by left|].
             right. right. split; [exists i; split; [lia|done]|done].
        * rewrite Hel. split.
          -- intros [H|[(i & Hi & ->) Hq]]; [by left|right].
             split; [exists i; split; [lia|done]|done].
          -- intros [H|[(i & Hi & ->) Hq]]; [by left|].
             destruct (decide (i = Z.of_N m)) as [->|Hne]; [congruence|].
             right. split; [exists i; split; [lia|done]|done]. }
  destruct (Hinv (Z.to_N ARRAY_ENTRIES)) as [_ (l & Hr & Hl & Hel)].
  exists l. split_and!; [exact Hr|exact Hl|].
  intros a. rewrite Hel. unfold node_of_region.
  replace (Z.of_N (Z.to_N ARRAY_ENTRIES)) with ARRAY_ENTRIES by reflexivity. done.
Qed.

Lemma FindCandidates_unaligned array candidates setIndex :
  Z.land array CACHE_LINE_BITS <> 0 ->
  FindCandidates array candidates setIndex = Aborted NodeAligned.
Proof.
  intros Hal. unfold FindCandidates. rewrite Z_iter_N.
  set (wanted := u64 (Z.shiftl setIndex NUM_CACHE_LINE_BITS)).
  assert (Hinv : forall m, m <> 0%N ->
    snd (N.iter m (FindCandidates_step array wanted) (0, Returned candidates))
    = Aborted NodeAligned).
  { intros m. induction m as [|m IH] using N.peano_ind; [done|]. intros _.
    rewrite N.iter_succ. unfold FindCandidates_step at 1. simpl snd.
    destruct (N.eq_dec m 0%N) as [->|Hm].
    - simpl. unfold FindCandidates_body. rewrite land_cache_line_bits.
      by apply Z.eqb_neq in Hal as ->.
    - by rewrite IH. }
  by apply Hinv.
Qed.

(** ** The builder as a whole *)

Global Opaque FindCandidates.

Section BuilderProofs.

Variable random_shuffle : list nat -> list nat.
Hypothesis random_shuffle_permutes : forall l, random_shuffle l ≡ₚ l.

Lemma build_conflict_set_inv fuel candidates s csh ch s' :
  NoDup candidates ->
  2 * LLC_BANKS * WAYS_PER_BANK <= Z.of_nat (length candidates) ->
  build_conflict_set random_shuffle fuel candidates s = Returned ((csh, ch), s') ->
  exists conflict leftover,
    ring s' conflict /\ ring s' leftover /\
    NoDup (conflict ++ leftover) /\ conflict ++ leftover ≡ₚ candidates /\
    csh ∈ conflict /\ ch ∈ leftover /\
    Z.of_nat (length conflict) = CONFLICT_SET_SIZE /\
    Z.of_nat (length leftover) = Z.of_nat (length candidates) - CONFLICT_SET_SIZE.
Proof.
  intros Hnd Hbig H.
  assert (Hne : candidates <> []).
  { intros ->. unfold LLC_BANKS, WAYS_PER_BANK in Hbig. simpl in Hbig. lia. }
  destruct (RandomizeLinkedList_ring random_shuffle candidates s)
    as (s1 & L & Hrun & Hr & Hperm & Et); auto.
  unfold build_conflict_set in H.
  rewrite (bind_Returned _ _ _ _ _ Hrun) in H.
  destruct candidates as [|first rest] eqn:Ec; [done|].
  unfold set_begin in H. unfold bind at 1 in H.
  assert (Hfirst : first ∈ L) by (rewrite Hperm; left).
  apply bind_inv in H as (count & s2 & Hs & H).
  rewrite (SizeOfLinkedList_ring s1 fuel L first Hr Hfirst) in Hs.
  case_decide; [|discriminate]. injection Hs as <- <-.
  apply bind_inv in H as (u & s2 & Ha & H). apply assert_inv in Ha as [_ ->].
  apply bind_inv in H as (u' & s2 & Hsan & H).
  apply SanityCheckCandidates_inv in Hsan as (En & Ep & _).
  pose proof (ring_same_links _ _ _ En Ep Hr) as Hr2.
  destruct (ring_at _ _ _ Hr2 Hfirst) as (l1 & l2 & EL & Hr2').
  assert (HpL : L ≡ₚ first :: l2 ++ l1).
  { rewrite EL. symmetry. apply Permutation_cons_app, Permutation_app_comm. }
  assert (Hlen : length (first :: l2 ++ l1) = length (first :: rest)).
  { rewrite <- (Permutation_length HpL). by apply Permutation_length. }
  eapply construct_conflict_set_inv in H
    as (clock & clock' & conflict & leftover & _ & _ & _ & Hc & Hp & Hnd' &
        Hperm' & -> & Hin & Hch & Hlc & Hll); [|exact Hr2'| |].
  - exists conflict, leftover. split_and!; auto.
    by rewrite Hperm', <- HpL.
  - by rewrite Hlen.
  - exact Hbig.
Qed.

(** The builder's result: the rings, their handles and the conflict set that
    they divide. *)
Lemma GetEvictionSet_rings fuel array region setIndex s heads s' :
  GetEvictionSet random_shuffle fuel array region setIndex s = Returned (heads, s') ->
  exists candidates csh ch s1 conflict (rings : list (list Z)),
    FindCandidates region [] setIndex = Returned candidates /\
    2 * LLC_BANKS * WAYS_PER_BANK <= Z.of_nat (length candidates) /\
    build_conflict_set random_shuffle fuel candidates s = Returned ((csh, ch), s1) /\
    ring s1 conflict /\ csh ∈ conflict /\
    (forall x, x ∈ conflict -> x ∈ candidates) /\
    Z.of_nat (length conflict) = CONFLICT_SET_SIZE /\
    length heads = 12%nat /\
    Forall2 (fun h r => h ∈ r) heads rings /\
    (forall r, r ∈ rings -> ring s' r /\ length r = 20%nat) /\
    NoDup (concat rings) /\
    concat rings ≡ₚ conflict.
Proof.
  intros H. unfold GetEvictionSet in H.
  apply bind_inv in H as (u1 & s1 & Ha & H). apply assert_inv in Ha as [_ ->].
  apply bind_inv in H as (u2 & s1 & Ha & H). apply assert_inv in Ha as [_ ->].
  apply bind_inv in H as (u3 & s1 & Ha & H). apply assert_inv in Ha as [_ ->].
  apply bind_inv in H as (candidates & s1 & Hfc & H).
  destruct (decide (Z.land region CACHE_LINE_BITS = 0)) as [Hal|Hal].
  2:{ rewrite (FindCandidates_unaligned region [] setIndex Hal) in Hfc. discriminate. }
  destruct (FindCandidates_aligned region [] setIndex Hal) as (l & El & Hasc & _);
    [constructor|].
  rewrite El in Hfc. injection Hfc as <- <-.
  apply bind_inv in H as (u4 & s1 & Ha & H). apply assert_inv in Ha as [Hbig ->].
  apply Z.leb_le in Hbig.
  apply bind_inv in H as ([csh ch] & s1 & Hb & H).
  pose proof Hb as Hb'.
  apply build_conflict_set_inv in Hb'
    as (conflict & leftover & Hc & Hp & Hnd & Hperm & Hcsh & Hch & Hlc & Hll);
    [|by apply ascending_NoDup|done].
  assert (Hlen240 : length conflict = 240%nat).
  { unfold CONFLICT_SET_SIZE, LLC_BANKS, WAYS_PER_BANK in Hlc. lia. }
  apply (partition_conflict_set_inv fuel s1 conflict leftover csh ch heads s'
           Hc Hp Hnd Hcsh Hch Hlen240) in H
    as (rings & Hlen & Hheads & Hrings & Hndr & Hpr).
  exists l, csh, ch, s1, conflict, rings. split_and!; auto.
  intros x Hx. rewrite <- Hperm. apply elem_of_app. by left.
Qed.

End BuilderProofs.

(** ** Which assertions a computation can fail *)

Section Aborts.
Context (P : assertion -> Prop).

Lemma aw_ret {A} (a : A) : aborts_within P (ret a).
Proof. intros s w H. discriminate. Qed.

Lemma aw_bind {A B} (c : M A) (k : A -> M B) :
  aborts_within P c -> (forall a, aborts_within P (k a)) ->
  aborts_within P (bind c k).
Proof.
  intros Hc Hk s w H. unfold bind in H.
  destruct (c s) as [[a s']| w' | | |] eqn:E; try discriminate.
  - by apply (Hk a s').
  - injection H as <-. by apply (Hc s).
Qed.

Lemma aw_assert w b : P w -> aborts_within P (assert w b).
Proof. intros Hw s w' H. destruct b; [discriminate|]. by injection H as <-. Qed.

Lemma aw_out_of_fuel {A} : aborts_within P (@out_of_fuel A).
Proof. intros s w H. discriminate. Qed.

Lemma aw_get_next n : aborts_within P (get_next n).
Proof. intros s w H. unfold get_next in H. destruct (nxt s !! n); discriminate. Qed.

Lemma aw_get_prev n : aborts_within P (get_prev n).
Proof. intros s w H. unfold get_prev in H. destruct (prv s !! n); discriminate. Qed.

Lemma aw_set_next n v : aborts_within P (set_next n v).
Proof. intros s w H. discriminate. Qed.

Lemma aw_set_prev n v : aborts_within P (set_prev n v).
Proof. intros s w H. discriminate. Qed.

Lemma aw_rdtsc : aborts_within P rdtsc.
Proof. intros s w H. unfold rdtsc in H. destruct (tsc s); discriminate. Qed.

Lemma aw_set_begin l : aborts_within P (set_begin l).
Proof. intros s w H. destruct l; discriminate. Qed.

Lemma aw_vec_at l i : aborts_within P (vec_at l i).
Proof. intros s w H. unfold vec_at in H. destruct (l !! i); discriminate. Qed.

Lemma Probe_attempts_no_abort clock w : Probe_attempts clock <> Aborted w.
Proof.
  induction clock as [clock IH] using (induction_ltof1 _ (@length Z)).
  unfold ltof in IH. destruct clock as [|t0 [|t1 rest]]; simpl; try discriminate.
  destruct (_ || _); [apply IH; simpl; lia|discriminate].
Qed.

Lemma aw_Probe a b : aborts_within P (Probe a b).
Proof.
  intros s w H. unfold Probe, bind, Probe_time in H.
  destruct (Probe_attempts (tsc s)) as [[t r]| w' | | |] eqn:E; try discriminate.
  by apply Probe_attempts_no_abort in E.
Qed.

End Aborts.

Create HintDb aborts.
#[export] Hint Resolve aw_ret aw_out_of_fuel aw_get_next aw_get_prev aw_set_next
  aw_set_prev aw_rdtsc aw_set_begin aw_vec_at aw_Probe : aborts.
#[export] Hint Extern 1 (checked_after_enumeration _) => exact I : aborts.

Ltac aw_step :=
  match goal with
  | |- aborts_within _ (bind _ _) => apply aw_bind; [|intros ?]
  | |- aborts_within _ (assert _ _) => apply aw_assert
  | |- aborts_within _ (if ?b then _ else _) => destruct b
  | |- aborts_within _ (match ?x with (_, _) => _ end) => destruct x
  | |- aborts_within _ (let _ := _ in _) => cbv zeta
  end.
Ltac aw := repeat aw_step; auto with aborts.

Section AbortsBuilder.
Local Abbreviation P := checked_after_enumeration.

Lemma aw_unlink c : aborts_within P (unlink c).
Proof. unfold unlink. aw. Qed.

Lemma aw_unlink_rev c : aborts_within P (unlink_rev c).
Proof. unfold unlink_rev. aw. Qed.

Lemma aw_drop_candidate c : aborts_within P (drop_candidate c).
Proof. unfold drop_candidate. aw; apply aw_unlink. Qed.

Lemma aw_SizeOfLinkedList_loop n : forall head node size,
  aborts_within P (SizeOfLinkedList_loop n head node size).
Proof. induction n; intros; simpl; aw. Qed.

Lemma aw_SizeOfLinkedList fuel node : aborts_within P (SizeOfLinkedList fuel node).
Proof. unfold SizeOfLinkedList. aw. apply aw_SizeOfLinkedList_loop. Qed.

Lemma aw_average_access_time i : aborts_within P (average_access_time i).
Proof. unfold average_access_time. aw. Qed.

Lemma aw_SanityCheckCandidates c : aborts_within P (SanityCheckCandidates c).
Proof. unfold SanityCheckCandidates. aw. apply aw_average_access_time. Qed.

Lemma aw_SanityCheckConflictSet c : aborts_within P (SanityCheckConflictSet c).
Proof. unfold SanityCheckConflictSet. aw. apply aw_average_access_time. Qed.

Lemma aw_link_in_order idxs d size cl : aborts_within P (link_in_order idxs d size cl).
Proof. induction idxs; simpl; aw. Qed.

Lemma aw_RandomizeLinkedList shuffle cands :
  aborts_within P (RandomizeLinkedList shuffle cands).
Proof. unfold RandomizeLinkedList. apply aw_link_in_order. Qed.

Lemma aw_advance n : forall node, aborts_within P (advance n node).
Proof. induction n; intros; simpl; aw. Qed.

Lemma aw_seed_conflict_set fuel size h : aborts_within P (seed_conflict_set fuel size h).
Proof.
  unfold seed_conflict_set. aw;
    auto using aw_advance, aw_SizeOfLinkedList.
Qed.

Lemma aw_warmup n a b : aborts_within P (warmup n a b).
Proof. induction n; simpl; aw. Qed.

Lemma aw_move_to_conflict_set a b c : aborts_within P (move_to_conflict_set a b c).
Proof. unfold move_to_conflict_set. aw. Qed.

Lemma aw_fill_step a b c d : aborts_within P (fill_step a b c d).
Proof. unfold fill_step. aw. apply aw_move_to_conflict_set. Qed.

Lemma aw_fill_conflict_set n : forall a b c d,
  aborts_within P (fill_conflict_set n a b c d).
Proof. induction n; intros; simpl; aw; apply aw_fill_step. Qed.

Lemma aw_construct_conflict_set fuel size h :
  aborts_within P (construct_conflict_set fuel size h).
Proof.
  unfold construct_conflict_set. aw;
    auto using aw_seed_conflict_set, aw_warmup, aw_fill_conflict_set,
      aw_SizeOfLinkedList, aw_SanityCheckConflictSet.
Qed.

Lemma aw_build_conflict_set shuffle fuel cands :
  aborts_within P (build_conflict_set shuffle fuel cands).
Proof.
  unfold build_conflict_set. aw;
    auto using aw_RandomizeLinkedList, aw_SizeOfLinkedList,
      aw_SanityCheckCandidates, aw_construct_conflict_set.
Qed.

Lemma aw_drop_hits n : forall a b c, aborts_within P (drop_hits n a b c).
Proof. induction n; intros; simpl; aw; apply aw_drop_candidate. Qed.

Lemma aw_confirm i : forall a b, aborts_within P (confirm i a b).
Proof. induction i; intros; simpl; aw; apply aw_drop_candidate. Qed.

Lemma aw_find_witness n : forall fuel a b, aborts_within P (find_witness n fuel a b).
Proof.
  induction n; intros; cbn [find_witness]; aw; auto using aw_drop_hits, aw_confirm.
Qed.

Lemma aw_test_node a b c : aborts_within P (test_node a b c).
Proof. unfold test_node. aw. apply aw_unlink. Qed.

Lemma aw_isolate_slice n : forall a b c, aborts_within P (isolate_slice n a b c).
Proof. induction n; intros; simpl; aw; apply aw_test_node. Qed.

Lemma aw_splice_rest nodes : forall e c, aborts_within P (splice_rest nodes e c).
Proof. induction nodes; intros; simpl; aw; apply aw_unlink_rev. Qed.

Lemma aw_splice_out ev c : aborts_within P (splice_out ev c).
Proof. unfold splice_out. aw; auto using aw_unlink_rev, aw_splice_rest. Qed.

Lemma aw_partition_round fuel a b : aborts_within P (partition_round fuel a b).
Proof.
  unfold partition_round. aw;
    auto using aw_find_witness, aw_isolate_slice, aw_splice_out, aw_drop_candidate.
Qed.

Lemma aw_partition n : forall fuel heads a b, aborts_within P (partition n fuel heads a b).
Proof. induction n; intros; simpl; aw; apply aw_partition_round. Qed.

Lemma aw_walk_eviction_set n : forall a b c d,
  aborts_within P (walk_eviction_set n a b c d).
Proof. induction n; intros; simpl; aw. Qed.

Lemma aw_check_sizes fuel heads : forall all, aborts_within P (check_sizes fuel heads all).
Proof. induction heads; intros; simpl; aw. apply aw_walk_eviction_set. Qed.

Lemma aw_check_times heads : aborts_within P (check_times heads).
Proof. induction heads; simpl; aw. apply aw_average_access_time. Qed.

Lemma aw_SanityCheckEvictionSets fuel heads :
  aborts_within P (SanityCheckEvictionSets fuel heads).
Proof.
  unfold SanityCheckEvictionSets. aw; auto using aw_check_sizes, aw_check_times.
Qed.

Lemma aw_partition_conflict_set fuel a b :
  aborts_within P (partition_conflict_set fuel a b).
Proof.
  unfold partition_conflict_set. aw;
    auto using aw_partition, aw_SanityCheckEvictionSets.
Qed.

End AbortsBuilder.

(** ** Loop bounds only cut runs short *)

Lemma extends_refl {A} (c : M A) : extends c c.
Proof. intros s. by right. Qed.


Lemma extends_out_of_fuel {A} (c : M A) : extends out_of_fuel c.
Proof. intros s. by left. Qed.

Create HintDb fuel.
#[export] Hint Resolve extends_refl extends_out_of_fuel : fuel.


















(** ** SplitResultsIntoBanks *)

Lemma advance_to_all_below rest : forall access bound,
  Forall (fun t => t < bound) rest ->
  advance_to rest access bound = OutOfBounds (access + Z.of_nat (length rest)).
Proof.
  induction rest as [|t rest IH]; intros access bound Hall; simpl.
  - f_equal. lia.
  - apply Forall_cons in Hall as [Ht Hall].
    replace (t <? bound) with true by (symmetry; by apply Z.ltb_lt).
    rewrite IH by done. f_equal. lia.
Qed.

Lemma SplitResultsIntoBanks_attacker_done_first times boundaries :
  Forall (fun t => t < boundaries !!! 0%nat) times ->
  SplitResultsIntoBanks times boundaries = OutOfBounds (Z.of_nat (length times)).
Proof.
  intros Hall. unfold SplitResultsIntoBanks.
  change (Z.to_nat LLC_BANKS) with 12%nat.
  cbn [seq SplitResultsIntoBanks_from]. change (0 * 2)%nat with 0%nat.
  by rewrite (advance_to_all_below times 0 _ Hall).
Qed.

(** C5 does not hold of the code. When the attacker's last timestamp lies
    before the first victim boundary, the first [while] loop of
    [SplitResultsIntoBanks] runs through the whole array and reads
    [attackerTimesArray[ATTACKER_TIMED_ITERATIONS]], one past its end: no
    bounds check stops the walk, no window is truncated and nothing is
    reported. *)
Theorem SplitResultsIntoBanks_reads_past_the_end :
  SplitResultsIntoBanks late_victim_times late_victim_boundaries
  = OutOfBounds ATTACKER_TIMED_ITERATIONS.
Proof.
  assert (Hpos : 0 <= ATTACKER_TIMED_ITERATIONS) by (by vm_compute).
  rewrite SplitResultsIntoBanks_attacker_done_first.
  - unfold late_victim_times. rewrite length_fmap, length_seq.
    by rewrite (Z2Nat.id _ Hpos).
  - unfold late_victim_times. apply Forall_fmap, Forall_forall.
    intros i Hi. apply elem_of_seq in Hi. cbv beta.
    change (late_victim_boundaries !!! 0%nat) with 2000000000.
    assert (Z.of_nat i < ATTACKER_TIMED_ITERATIONS) as Hlt by lia.
    unfold ATTACKER_TIMED_ITERATIONS in Hlt. unfold compose. lia.
Qed.

(** ** Concrete runs *)

Lemma ascending_unique l1 : forall l2,
  ascending l1 -> ascending l2 -> (forall a, a ∈ l1 <-> a ∈ l2) -> l1 = l2.
Proof.
  induction l1 as [|x l1 IH]; intros [|y l2] H1 H2 Hm.
  - reflexivity.
  - exfalso. apply (elem_of_nil y), Hm. left.
  - exfalso. apply (elem_of_nil x), Hm. left.
  - apply StronglySorted_inv in H1 as [H1 F1]. apply StronglySorted_inv in H2 as [H2 F2].
    rewrite Forall_forall in F1, F2.
    assert (x = y) as <-.
    { assert (Hx : x ∈ y :: l2) by (apply Hm; left).
      assert (Hy : y ∈ x :: l1) by (apply Hm; left).
      apply elem_of_cons in Hx as [Hx|Hx]; [done|].
      apply elem_of_cons in Hy as [Hy|Hy]; [done|].
      apply F2 in Hx. apply F1 in Hy. lia. }
    f_equal. apply IH; auto. intros a. split; intros Ha.
    + assert (Ha' : a ∈ x :: l2) by (apply Hm; by right).
      apply elem_of_cons in Ha' as [->|Ha']; [|done]. apply F1 in Ha. lia.
    + assert (Ha' : a ∈ x :: l1) by (apply Hm; by right).
      apply elem_of_cons in Ha' as [->|Ha']; [|done]. apply F2 in Ha. lia.
Qed.

Lemma ascending_fmap_seqZ (f : Z -> Z) (len : nat) : forall m,
  (forall i j, i < j -> f i < f j) ->
  ascending (f <$> seqZ m (Z.of_nat len)).
Proof.
  induction len as [|len IH]; intros m Hf.
  - constructor.
  - rewrite seqZ_cons by lia. rewrite fmap_cons.
    replace (Z.pred (Z.of_nat (S len))) with (Z.of_nat len) by lia.
    constructor; [by apply IH|].
    apply Forall_forall. intros y Hy. apply list_elem_of_fmap in Hy as (k & -> & Hk).
    apply elem_of_seqZ in Hk. apply Hf. lia.
Qed.

Lemma candidates27_ascending : ascending candidates27.
Proof.
  unfold candidates27. change 512 with (Z.of_nat 512).
  apply ascending_fmap_seqZ. intros i j Hij. lia.
Qed.

Lemma candidates27_elem a :
  a ∈ candidates27 <->
  node_of_region region27 a /\
  (Z.land a SET_INDEX_BITS =? u64 (Z.shiftl 27 NUM_CACHE_LINE_BITS)) = true.
Proof.
  assert (H27 : 0 <= 27 < SETS_PER_BANK) by (unfold SETS_PER_BANK; lia).
  rewrite (mask_test_iff 27 a H27). unfold maps_to_set, node_of_region, candidates27.
  rewrite list_elem_of_fmap.
  change NUM_CACHE_LINE_BITS with 6. change NUM_SET_INDEX_BITS with 11.
  change (Z.shiftl 1 11) with 2048. rewrite (Z.shiftr_div_pow2 a 6) by lia.
  change (2 ^ 6) with 64. change ARRAY_ENTRIES with 1048576.
  change CACHE_LINE_SIZE with 64. change region27 with 1073741824.
  split.
  - intros (k & -> & Hk). apply elem_of_seqZ in Hk. split.
    + exists (27 + 2048 * k). lia.
    + Z.div_mod_to_equations. lia.
  - intros [(i & Hi & ->) Hm]. exists ((i - 27) / 2048).
    rewrite elem_of_seqZ. Z.div_mod_to_equations. lia.
Qed.

Lemma FindCandidates_27 : FindCandidates region27 [] 27 = Returned candidates27.
Proof.
  destruct (FindCandidates_aligned region27 [] 27 eq_refl (SSorted_nil _))
    as (l & E & Hasc & Hmem).
  rewrite E. f_equal. apply ascending_unique; [done|apply candidates27_ascending|].
  intros a. rewrite Hmem, candidates27_elem, elem_of_nil. tauto.
Qed.

Lemma GetEvictionSet_after_enumeration shuffle fuel s :
  GetEvictionSet shuffle fuel 0 region27 27 s
  = (let* (conflictSetHead, candidateSetHead) :=
       build_conflict_set shuffle fuel candidates27 in
     partition_conflict_set fuel conflictSetHead candidateSetHead) s.
Proof.
  unfold GetEvictionSet. do 3 (unfold bind at 1; simpl).
  unfold bind at 1. rewrite FindCandidates_27. reflexivity.
Qed.

Lemma quiet_run_returns :
  returned (GetEvictionSet (@rev nat) 1000 0 region27 27 quiet_machine) = true.
Proof. rewrite GetEvictionSet_after_enumeration. vm_compute. reflexivity. Qed.




(** ** The rings that the builder returns *)

Lemma NoDup_concat_disjoint (rings : list (list Z)) i j r1 r2 x :
  NoDup (concat rings) -> i <> j ->
  rings !! i = Some r1 -> rings !! j = Some r2 -> x ∈ r1 -> x ∉ r2.
Proof.
  revert i j. induction rings as [|r rings IH]; intros i j Hnd Hij H1 H2 Hx; [done|].
  simpl in Hnd. apply NoDup_app in Hnd as (Hr & Hdisj & Hrest).
  destruct i as [|i], j as [|j]; simpl in *; try done.
  - injection H1 as <-. intros Hx2. apply (Hdisj x Hx).
    apply elem_of_concat. exists r2. split; [by eapply list_elem_of_lookup_2|done].
  - injection H2 as <-. intros Hx2. apply (Hdisj x Hx2).
    apply elem_of_concat. exists r1. split; [by eapply list_elem_of_lookup_2|done].
  - apply (IH i j); auto.
Qed.

(** A ring in the sense of the specification: every node has both
    neighbours in the ring and is the [prev] of its [next] and the [next]
    of its [prev]. *)
Lemma ring_doubly_linked s l x :
  ring s l -> x ∈ l ->
  exists n p, n ∈ l /\ p ∈ l /\
    nxt s !! x = Some n /\ prv s !! n = Some x /\
    prv s !! x = Some p /\ nxt s !! p = Some x.
Proof.
  intros Hr Hx. destruct (ring_at _ _ _ Hr Hx) as (l1 & l2 & -> & Hr').
  destruct (ring_head_edges _ _ _ Hr') as [[Hpn Hpp] [Hnn Hnp]].
  exists (hd x (l2 ++ l1)), (List.last (l2 ++ l1) x).
  assert (Hsub : forall y, y ∈ x :: l2 ++ l1 -> y ∈ l1 ++ x :: l2).
  { intros y Hy. rewrite elem_of_app, elem_of_cons.
    apply elem_of_cons in Hy as [->|Hy]; [auto|].
    apply elem_of_app in Hy as [Hy|Hy]; auto. }
  split_and!; auto.
  - apply Hsub. destruct (l2 ++ l1); simpl; [left|right; left].
  - apply Hsub. apply last_elem_of.
Qed.

Lemma Forall2_and_r {A B} (P : A -> B -> Prop) (Q : B -> Prop) l k :
  Forall2 P l k -> (forall y, y ∈ k -> Q y) -> Forall2 (fun x y => P x y /\ Q y) l k.
Proof.
  induction 1 as [|x y l k HP _ IH]; intros HQ; constructor.
  - split; [done|]. apply HQ. left.
  - apply IH. intros z Hz. apply HQ. by right.
Qed.

Section Partition.

Variable random_shuffle : list nat -> list nat.
Hypothesis random_shuffle_permutes : forall l, random_shuffle l ≡ₚ l.

(** C1. A run of the builder that returns yields exactly [LLC_BANKS] ring
    handles. Each handle lies on a ring (a closed doubly-linked cycle, see
    [ring] and [ring_doubly_linked]) of exactly [WAYS_PER_BANK] nodes, which
    is also the size that [SizeOfLinkedList] measures from the handle; two
    different rings share no node; and the rings together hold exactly the
    [LLC_BANKS * WAYS_PER_BANK] nodes of the conflict set that
    [build_conflict_set] had produced. *)
Theorem GetEvictionSet_partitions_the_conflict_set
    fuel array region setIndex s heads s' :
  GetEvictionSet random_shuffle fuel array region setIndex s = Returned (heads, s') ->
  exists candidates csh ch s1 conflict (rings : list (list Z)),
    FindCandidates region [] setIndex = Returned candidates /\
    2 * LLC_BANKS * WAYS_PER_BANK <= Z.of_nat (length candidates) /\
    build_conflict_set random_shuffle fuel candidates s = Returned ((csh, ch), s1) /\
    ring s1 conflict /\ csh ∈ conflict /\
    Z.of_nat (length conflict) = LLC_BANKS * WAYS_PER_BANK /\
    Z.of_nat (length heads) = LLC_BANKS /\
    Forall2 (fun h r =>
               h ∈ r /\ ring s' r /\ Z.of_nat (length r) = WAYS_PER_BANK /\
               SizeOfLinkedList (Z.to_nat WAYS_PER_BANK) h s'
               = Returned (WAYS_PER_BANK, s')) heads rings /\
    (forall i j r1 r2 x, i <> j -> rings !! i = Some r1 -> rings !! j = Some r2 ->
                         x ∈ r1 -> x ∉ r2) /\
    concat rings ≡ₚ conflict.
Proof.
  intros H.
  destruct (GetEvictionSet_rings random_shuffle random_shuffle_permutes
              _ _ _ _ _ _ _ H)
    as (candidates & csh & ch & s1 & conflict & rings & Hfc & Hbig & Hb & Hc &
        Hcsh & _ & Hlc & Hlh & Hheads & Hrings & Hnd & Hperm).
  exists candidates, csh, ch, s1, conflict, rings. split_and!; auto.
  - rewrite Hlh. reflexivity.
  - pose proof (Forall2_and_r _ _ _ _ Hheads Hrings) as HF.
    eapply Forall2_impl; [exact HF|]. simpl.
    intros h r (Hh & Hr & Hl). split_and!; auto.
    + rewrite Hl. reflexivity.
    + rewrite (SizeOfLinkedList_ring s' _ r h Hr Hh), Hl. reflexivity.
  - intros i j r1 r2 x. by apply NoDup_concat_disjoint.
Qed.

End Partition.

(** ** The parts of the builder *)

Lemma pick_witness_unanimous pool : forall clock chosen clock',
  pick_witness clock pool = Returned (chosen, clock') ->
  exists dropped clock_w,
    pool = dropped ++ chosen /\ chosen <> [] /\
    unanimous 101 clock_w = Returned (true, clock').
Proof.
  induction pool as [|w rest IH]; intros clock chosen clock' H; [discriminate|].
  cbn [pick_witness] in H.
  destruct (unanimous 101 clock) as [[[|] clock1]| | | |] eqn:E; try discriminate.
  - injection H as <- <-. exists [], clock. split_and!; auto.
  - destruct rest as [|c2 rest]; [discriminate|].
    apply IH in H as (dropped & clock_w & -> & Hne & Hu).
    exists (w :: dropped), clock_w. split_and!; auto.
Qed.

(** C4. The candidate that [find_witness] returns is the first one of the
    leftover ring that passed one probe and 100 more against the conflict
    ring, all saying "evicted"; every candidate in front of it had a probe
    that said otherwise, was unlinked from the leftover ring, and the search
    went on with its successor, as [pick_witness] does on the ring as a
    list. *)
Theorem witness_promoted_only_when_unanimous n fuel s csh c rest w s' :
  ring s (c :: rest) ->
  find_witness n fuel csh c s = Returned (w, s') ->
  exists dropped kept clock_w,
    c :: rest = dropped ++ w :: kept /\
    ring s' (w :: kept) /\
    (forall d, d ∈ dropped -> d ∉ w :: kept) /\
    pick_witness (tsc s) (c :: rest) = Returned (w :: kept, tsc s') /\
    unanimous 101 clock_w = Returned (true, tsc s').
Proof.
  intros Hr H.
  destruct (find_witness_refines _ _ _ _ _ _ _ _ Hr H)
    as (dropped & kept & Hsplit & Hr' & _ & Hpick).
  destruct (pick_witness_unanimous _ _ _ _ Hpick) as (_ & clock_w & _ & _ & Hu).
  exists dropped, kept, clock_w. split_and!; auto.
  apply ring_NoDup in Hr. rewrite Hsplit in Hr.
  apply NoDup_app in Hr as (_ & Hdisj & _). exact Hdisj.
Qed.

(** C8. Testing a node of the conflict ring leaves every [next] and [prev]
    link as it was: the node is unlinked, the witness is probed against the
    rest of the ring, and the node is linked back in whatever the probe
    said. The outcome is recorded in the marked set only. *)
Theorem test_node_restores_the_ring s conf candidate testNode evictionSet
    evictionSet' next s' :
  ring s conf -> testNode ∈ conf ->
  test_node candidate testNode evictionSet s = Returned ((evictionSet', next), s') ->
  nxt s' = nxt s /\ prv s' = prv s /\ ring s' conf /\
  nxt s !! testNode = Some next /\
  exists p missToDRAM s1,
    prv s !! testNode = Some p /\
    unlink testNode s = Returned (tt, link p next s) /\
    Probe next candidate (link p next s) = Returned (missToDRAM, s1) /\
    tsc s' = tsc s1 /\
    evictionSet' = if missToDRAM then evictionSet
                   else set_insert testNode evictionSet.
Proof.
  intros Hr Hin H.
  destruct (test_node_inv _ _ _ _ _ _ _ Hr Hin H)
    as (n & p & miss & s1 & Hn & Hp & Hu & HP & -> & E).
  injection E as -> ->. simpl. split_and!; auto.
  - eapply ring_same_links; [| |exact Hr]; reflexivity.
  - exists p, miss, s1. split_and!; auto. by destruct miss.
Qed.

(** C6. For a set index below [SETS_PER_BANK] the mask test of
    [FindCandidates] holds exactly for the addresses whose set-index field
    is the set index, and on a line-aligned region the enumeration returns
    exactly the nodes of the region with that property. *)
Theorem FindCandidates_selects_the_set array setIndex :
  0 <= setIndex < SETS_PER_BANK ->
  Z.land array CACHE_LINE_BITS = 0 ->
  (forall a,
     (Z.land a SET_INDEX_BITS =? u64 (Z.shiftl setIndex NUM_CACHE_LINE_BITS)) = true
     <-> maps_to_set setIndex a) /\
  exists candidates,
    FindCandidates array [] setIndex = Returned candidates /\
    forall a, a ∈ candidates <-> node_of_region array a /\ maps_to_set setIndex a.
Proof.
  intros Hs Hal. split; [intros a; by apply mask_test_iff|].
  destruct (FindCandidates_aligned array [] setIndex Hal) as (l & El & _ & Hel);
    [constructor|].
  exists l. split; [exact El|]. intros a. rewrite Hel, mask_test_iff by done.
  rewrite elem_of_nil. tauto.
Qed.

Lemma FindCandidates_aborts array setIndex w :
  FindCandidates array [] setIndex = Aborted w -> w = NodeAligned.
Proof.
  intros H. destruct (decide (Z.land array CACHE_LINE_BITS = 0)) as [Hal|Hal].
  - destruct (FindCandidates_aligned array [] setIndex Hal) as (l & El & _);
      [constructor|].
    rewrite El in H. discriminate H.
  - rewrite (FindCandidates_unaligned array [] setIndex Hal) in H.
    injection H as <-. reflexivity.
Qed.

Section Preconditions.

Variable random_shuffle : list nat -> list nat.


(** C10. The builder aborts on [ArrayIsNull] or [ValidSetIndex] exactly when
    the caller's pointer is not null or the set index is not below
    [SETS_PER_BANK]: the two conditions are a precondition that is checked
    by [assert], and no value is returned for a call that violates it. *)
Theorem GetEvictionSet_asserts_its_precondition fuel array region setIndex s :
  (exists w, GetEvictionSet random_shuffle fuel array region setIndex s = Aborted w /\
             (w = ArrayIsNull \/ w = ValidSetIndex))
  <-> (array <> 0 \/ SETS_PER_BANK <= setIndex).
Proof.
  unfold GetEvictionSet. split.
  - intros (w & H & Hw). destruct (Z.eqb_spec array 0) as [->|Hne]; [|by left].
    destruct (Z.ltb_spec setIndex SETS_PER_BANK) as [Hlt|Hge]; [|by right].
    exfalso. do 3 (unfold bind at 1 in H; simpl in H).
    unfold bind at 1 in H.
    destruct (FindCandidates region [] setIndex) as [l|w'| | |] eqn:E;
      simpl in H.
    2:{ apply FindCandidates_aborts in E. subst w'. injection H as <-.
        destruct Hw as [Hw|Hw]; discriminate Hw. }
    2,3,4: clear E; discriminate H.
    clear E. unfold bind at 1 in H.
    destruct (2 * LLC_BANKS * WAYS_PER_BANK <=? Z.of_nat (length l));
      simpl in H.
    + assert (Haw : aborts_within checked_after_enumeration
                (let* (conflictSetHead, candidateSetHead) :=
                   build_conflict_set random_shuffle fuel l in
                 partition_conflict_set fuel conflictSetHead candidateSetHead)).
      { apply aw_bind; [apply aw_build_conflict_set|].
        intros [a b]. apply aw_partition_conflict_set. }
      apply Haw in H. destruct Hw as [-> | ->]; exact H.
    + injection H as <-. destruct Hw as [Hw|Hw]; discriminate Hw.
  - intros [Hne|Hge].
    + exists ArrayIsNull. split; [|by left].
      unfold bind at 1. by apply Z.eqb_neq in Hne as ->.
    + destruct (Z.eqb_spec array 0) as [->|Hne].
      * exists ValidSetIndex. split; [|by right].
        unfold bind at 1. simpl. unfold bind at 1.
        by replace (setIndex <? SETS_PER_BANK) with false
          by (symmetry; apply Z.ltb_ge; lia).
      * exists ArrayIsNull. split; [|by left]. reflexivity.
Qed.

End Preconditions.

(** C3. Conflict-set construction takes the first [WAYS_PER_BANK] nodes of
    the candidate ring as the conflict ring and the others as the leftover
    pool. After ten warm-up probes it probes the candidate in front of the
    pool: on [false] the candidate goes to the back of the conflict ring, on
    [true] it stays in the pool and the next one is tried ([grow_conflict]).
    It stops when the conflict ring has [CONFLICT_SET_SIZE] nodes; the pool
    then holds the other [size - CONFLICT_SET_SIZE] candidates, and both are
    rings. *)
Theorem conflict_set_construction fuel size s a L csh ch s' :
  ring s (a :: L) ->
  size = Z.of_nat (length (a :: L)) ->
  2 * LLC_BANKS * WAYS_PER_BANK <= size ->
  construct_conflict_set fuel size a s = Returned ((csh, ch), s') ->
  exists clock clock' conflict leftover,
    skip_probes 10 (tsc s) = Returned clock /\
    grow_conflict fuel clock
      (take (Z.to_nat WAYS_PER_BANK) (a :: L))
      (drop (Z.to_nat WAYS_PER_BANK) (a :: L))
      = Returned (conflict, leftover, clock') /\
    tsc s' = drop 2 clock' /\
    ring s' conflict /\ ring s' leftover /\
    NoDup (conflict ++ leftover) /\ conflict ++ leftover ≡ₚ a :: L /\
    csh = a /\ a ∈ conflict /\ ch ∈ leftover /\
    Z.of_nat (length conflict) = CONFLICT_SET_SIZE /\
    Z.of_nat (length leftover) = size - CONFLICT_SET_SIZE.
Proof. apply construct_conflict_set_inv. Qed.

(** ** The readings decide *)

Lemma rev_permutes (l : list nat) : rev l ≡ₚ l.
Proof. symmetry. apply Permutation_rev. Qed.





(** ** What the builder makes of the cycle counter *)

Lemma same_decisions_pair t0 t1 r1 clock2 :
  same_decisions (t0 :: t1 :: r1) clock2 ->
  exists u0 u1 r2, clock2 = u0 :: u1 :: r2 /\
    decisions_on (u64 (t1 - t0)) = decisions_on (u64 (u1 - u0)) /\
    same_decisions r1 r2.
Proof.
  unfold same_decisions. intros H. destruct clock2 as [|u0 [|u1 r2]]; try discriminate H.
  cbn [measurements] in H. rewrite !fmap_cons in H.
  pose proof (f_equal (hd (decisions_on 0)) H) as H1.
  pose proof (f_equal (@tl _) H) as H2. cbn [hd tl] in H1, H2.
  exists u0, u1, r2. auto.
Qed.

Lemma same_decisions_short clock1 clock2 :
  same_decisions clock1 clock2 -> (length clock1 < 2)%nat ->
  clock2 = [] \/ exists u, clock2 = [u].
Proof.
  unfold same_decisions. intros H Hl.
  destruct clock1 as [|t0 [|t1 r1]]; [| |simpl in Hl; lia];
    (destruct clock2 as [|u0 [|u1 r2]]; [by left|right; eauto|discriminate H]).
Qed.

Lemma da_ret {A} (a : A) : decides_alike (ret a).
Proof. intros s1 s2 Hn Hp Hd. simpl. auto. Qed.

Lemma da_bind {A B} (c : M A) (k : A -> M B) :
  decides_alike c -> (forall a, decides_alike (k a)) -> decides_alike (bind c k).
Proof.
  intros Hc Hk s1 s2 Hn Hp Hd. unfold bind. specialize (Hc s1 s2 Hn Hp Hd).
  destruct (c s1) as [[a1 s1']| | | |], (c s2) as [[a2 s2']| | | |];
    simpl in Hc; try done.
  destruct Hc as (-> & Hn' & Hp' & Hd'). by apply Hk.
Qed.

Lemma da_abort {A} w : decides_alike (@abort A w).
Proof. intros s1 s2 _ _ _. reflexivity. Qed.

Lemma da_out_of_fuel {A} : decides_alike (@out_of_fuel A).
Proof. intros s1 s2 _ _ _. exact I. Qed.

Lemma da_assert w b : decides_alike (assert w b).
Proof. destruct b; [apply da_ret|apply da_abort]. Qed.

Lemma da_lift {A} (r : outcome A) : decides_alike (lift r).
Proof. intros s1 s2 Hn Hp Hd. destruct r; simpl; auto. Qed.

Lemma da_get_next n : decides_alike (get_next n).
Proof.
  intros s1 s2 Hn Hp Hd. unfold get_next. rewrite Hn.
  destruct (nxt s2 !! n); simpl; auto.
Qed.

Lemma da_get_prev n : decides_alike (get_prev n).
Proof.
  intros s1 s2 Hn Hp Hd. unfold get_prev. rewrite Hp.
  destruct (prv s2 !! n); simpl; auto.
Qed.

Lemma da_set_next n v : decides_alike (set_next n v).
Proof. intros s1 s2 Hn Hp Hd. simpl. by rewrite Hn. Qed.

Lemma da_set_prev n v : decides_alike (set_prev n v).
Proof. intros s1 s2 Hn Hp Hd. simpl. by rewrite Hp. Qed.

Lemma da_set_begin l : decides_alike (set_begin l).
Proof. intros s1 s2 Hn Hp Hd. destruct l; simpl; auto. Qed.

Lemma da_vec_at l i : decides_alike (vec_at l i).
Proof. intros s1 s2 Hn Hp Hd. unfold vec_at. destruct (l !! i); simpl; auto. Qed.

(** [Probe] uses the latency only to repeat the measurement and to compare
    it with the threshold. *)
Lemma Probe_attempts_alike clock1 : forall clock2,
  same_decisions clock1 clock2 ->
  match Probe_attempts clock1, Probe_attempts clock2 with
  | Returned (time1, rest1), Returned (time2, rest2) =>
      (LLC_CYCLE_THRESHOLD <? time1) = (LLC_CYCLE_THRESHOLD <? time2) /\
      same_decisions rest1 rest2
  | ClockExhausted, ClockExhausted => True
  | _, _ => False
  end.
Proof.
  induction clock1 as [clock1 IH] using (induction_ltof1 _ (@length Z)).
  unfold ltof in IH. intros clock2 Hd.
  destruct clock1 as [|t0 [|t1 r1]].
  - destruct (same_decisions_short _ _ Hd) as [->|[u ->]]; simpl; auto.
  - destruct (same_decisions_short _ _ Hd) as [->|[u ->]]; simpl; auto.
  - apply same_decisions_pair in Hd as (u0 & u1 & r2 & -> & Hd1 & Hd).
    cbn [Probe_attempts]. unfold decisions_on in Hd1.
    injection Hd1 as Hprobe _ _ _.
    destruct ((u64 (t1 - t0) <? 20) || (200 <? u64 (t1 - t0)));
      destruct ((u64 (u1 - u0) <? 20) || (200 <? u64 (u1 - u0)));
      try discriminate Hprobe.
    + apply IH; [simpl; lia|done].
    + injection Hprobe as Hprobe. auto.
Qed.

Lemma da_Probe a b : decides_alike (Probe a b).
Proof.
  intros s1 s2 Hn Hp Hd. unfold Probe, bind, Probe_time.
  pose proof (Probe_attempts_alike _ _ Hd) as H.
  destruct (Probe_attempts (tsc s1)) as [[time1 rest1]| | | |],
           (Probe_attempts (tsc s2)) as [[time2 rest2]| | | |]; try done.
  destruct H as [Hv Hd']. simpl. auto.
Qed.

(** The sanity loops use the elapsed time only to compare its average with
    the bounds of their windows. *)
Lemma average_access_time_alike iterations s1 s2 :
  nxt s1 = nxt s2 -> prv s1 = prv s2 -> same_decisions (tsc s1) (tsc s2) ->
  match average_access_time iterations s1, average_access_time iterations s2 with
  | Returned (time1, s1'), Returned (time2, s2') =>
      exists elapsed1 elapsed2,
        time1 = elapsed1 / iterations /\ time2 = elapsed2 / iterations /\
        decisions_on elapsed1 = decisions_on elapsed2 /\
        nxt s1' = nxt s2' /\ prv s1' = prv s2' /\
        same_decisions (tsc s1') (tsc s2')
  | ClockExhausted, ClockExhausted => True
  | _, _ => False
  end.
Proof.
  intros Hn Hp Hd. unfold average_access_time, bind, rdtsc.
  destruct (tsc s1) as [|t0 [|t1 r1]] eqn:E1.
  - destruct (same_decisions_short _ _ Hd) as [->|[u ->]]; simpl; auto.
  - destruct (same_decisions_short _ _ Hd) as [->|[u ->]]; simpl; auto.
  - apply same_decisions_pair in Hd as (u0 & u1 & r2 & -> & Hd1 & Hd).
    simpl. eauto 10.
Qed.

Lemma da_after_average {B} iterations (k : Z -> M B) :
  (forall elapsed1 elapsed2 s1 s2,
     decisions_on elapsed1 = decisions_on elapsed2 ->
     nxt s1 = nxt s2 -> prv s1 = prv s2 -> same_decisions (tsc s1) (tsc s2) ->
     agree (k (elapsed1 / iterations) s1) (k (elapsed2 / iterations) s2)) ->
  decides_alike (bind (average_access_time iterations) k).
Proof.
  intros Hk s1 s2 Hn Hp Hd. unfold bind.
  pose proof (average_access_time_alike iterations s1 s2 Hn Hp Hd) as H.
  destruct (average_access_time _ s1) as [[time1 s1']| | | |],
           (average_access_time _ s2) as [[time2 s2']| | | |]; try done.
  destruct H as (e1 & e2 & -> & -> & He & Hn' & Hp' & Hd'). by apply Hk.
Qed.

Lemma da_SanityCheckCandidates c : decides_alike (SanityCheckCandidates c).
Proof.
  unfold SanityCheckCandidates. apply da_after_average.
  intros e1 e2 s1 s2 He Hn Hp Hd.
  pose proof (f_equal (fun d => snd (fst (fst d))) He) as Hc. cbn in Hc.
  unfold bind, assert.
  destruct (165 <=? e1 / _), (e1 / _ <=? 190), (165 <=? e2 / _), (e2 / _ <=? 190);
    simpl in Hc |- *; try discriminate Hc; auto.
Qed.

Lemma da_SanityCheckConflictSet c : decides_alike (SanityCheckConflictSet c).
Proof.
  unfold SanityCheckConflictSet. apply da_after_average.
  intros e1 e2 s1 s2 He Hn Hp Hd.
  pose proof (f_equal (fun d => snd (fst d)) He) as Hc. cbn in Hc.
  rewrite Hc. by apply da_assert.
Qed.

Lemma da_check_times heads : decides_alike (check_times heads).
Proof.
  induction heads as [|h heads IH]; [apply da_ret|].
  cbn [check_times]. apply da_after_average.
  intros e1 e2 s1 s2 He Hn Hp Hd.
  pose proof (f_equal snd He) as Hc. cbn in Hc.
  rewrite Hc. apply da_bind; auto using da_assert.
Qed.

Create HintDb decisions.
#[export] Hint Resolve da_ret da_abort da_out_of_fuel da_assert da_lift
  da_get_next da_get_prev da_set_next da_set_prev da_set_begin da_vec_at
  da_Probe da_SanityCheckCandidates da_SanityCheckConflictSet da_check_times
  : decisions.

Ltac da_step :=
  match goal with
  | |- decides_alike (bind _ _) => apply da_bind; [|intros ?]
  | |- decides_alike (if ?b then _ else _) => destruct b
  | |- decides_alike (match ?x with (_, _) => _ end) => destruct x
  end.
Ltac da := repeat da_step; auto with decisions.

Lemma da_unlink c : decides_alike (unlink c).
Proof. unfold unlink. da. Qed.
Lemma da_unlink_rev c : decides_alike (unlink_rev c).
Proof. unfold unlink_rev. da. Qed.
#[export] Hint Resolve da_unlink da_unlink_rev : decisions.

Lemma da_drop_candidate c : decides_alike (drop_candidate c).
Proof. unfold drop_candidate. da. Qed.
#[export] Hint Resolve da_drop_candidate : decisions.

Lemma da_SizeOfLinkedList_loop n : forall head node size,
  decides_alike (SizeOfLinkedList_loop n head node size).
Proof. induction n; intros; simpl; da. Qed.
#[export] Hint Resolve da_SizeOfLinkedList_loop : decisions.

Lemma da_SizeOfLinkedList fuel node : decides_alike (SizeOfLinkedList fuel node).
Proof. unfold SizeOfLinkedList. da. Qed.
#[export] Hint Resolve da_SizeOfLinkedList : decisions.

Lemma da_link_in_order idxs d size cl : decides_alike (link_in_order idxs d size cl).
Proof. induction idxs; cbn [link_in_order]; da. Qed.
#[export] Hint Resolve da_link_in_order : decisions.

Lemma da_RandomizeLinkedList shuffle cands :
  decides_alike (RandomizeLinkedList shuffle cands).
Proof. unfold RandomizeLinkedList. da. Qed.
#[export] Hint Resolve da_RandomizeLinkedList : decisions.

Lemma da_advance n : forall node, decides_alike (advance n node).
Proof. induction n; intros; simpl; da. Qed.
#[export] Hint Resolve da_advance : decisions.

Lemma da_seed_conflict_set fuel size h : decides_alike (seed_conflict_set fuel size h).
Proof. unfold seed_conflict_set. da. Qed.

Lemma da_warmup n a b : decides_alike (warmup n a b).
Proof. induction n; simpl; da. Qed.

Lemma da_move_to_conflict_set a b c : decides_alike (move_to_conflict_set a b c).
Proof. unfold move_to_conflict_set. da. Qed.
#[export] Hint Resolve da_seed_conflict_set da_warmup da_move_to_conflict_set
  : decisions.

Lemma da_fill_step a b c d : decides_alike (fill_step a b c d).
Proof. unfold fill_step. da. Qed.
#[export] Hint Resolve da_fill_step : decisions.

Lemma da_fill_conflict_set n : forall a b c d,
  decides_alike (fill_conflict_set n a b c d).
Proof. induction n; intros; simpl; da. Qed.
#[export] Hint Resolve da_fill_conflict_set : decisions.

Lemma da_construct_conflict_set fuel size h :
  decides_alike (construct_conflict_set fuel size h).
Proof. unfold construct_conflict_set. da. Qed.
#[export] Hint Resolve da_construct_conflict_set : decisions.

Lemma da_build_conflict_set shuffle fuel cands :
  decides_alike (build_conflict_set shuffle fuel cands).
Proof. unfold build_conflict_set. da. Qed.

Lemma da_drop_hits n : forall a b c, decides_alike (drop_hits n a b c).
Proof. induction n; intros; simpl; da. Qed.

Lemma da_confirm i : forall a b, decides_alike (confirm i a b).
Proof. induction i; intros; simpl; da. Qed.
#[export] Hint Resolve da_build_conflict_set da_drop_hits da_confirm : decisions.

Lemma da_find_witness n : forall fuel a b, decides_alike (find_witness n fuel a b).
Proof. induction n; intros; cbn [find_witness]; da. Qed.

Lemma da_test_node a b c : decides_alike (test_node a b c).
Proof. unfold test_node. da. Qed.
#[export] Hint Resolve da_find_witness da_test_node : decisions.

Lemma da_isolate_slice n : forall a b c, decides_alike (isolate_slice n a b c).
Proof. induction n; intros; simpl; da. Qed.

Lemma da_splice_rest nodes : forall e c, decides_alike (splice_rest nodes e c).
Proof. induction nodes; intros; cbn [splice_rest]; da. Qed.
#[export] Hint Resolve da_isolate_slice da_splice_rest : decisions.

Lemma da_splice_out ev c : decides_alike (splice_out ev c).
Proof. unfold splice_out. da. Qed.
#[export] Hint Resolve da_splice_out : decisions.

Lemma da_partition_round fuel a b : decides_alike (partition_round fuel a b).
Proof. unfold partition_round. da. Qed.
#[export] Hint Resolve da_partition_round : decisions.

Lemma da_partition n : forall fuel heads a b,
  decides_alike (partition n fuel heads a b).
Proof. induction n; intros; simpl; da. Qed.

Lemma da_walk_eviction_set n : forall a b c d,
  decides_alike (walk_eviction_set n a b c d).
Proof. induction n; intros; simpl; da. Qed.
#[export] Hint Resolve da_partition da_walk_eviction_set : decisions.

Lemma da_check_sizes fuel heads : forall all,
  decides_alike (check_sizes fuel heads all).
Proof. induction heads; intros; simpl; da. Qed.
#[export] Hint Resolve da_check_sizes : decisions.

Lemma da_SanityCheckEvictionSets fuel heads :
  decides_alike (SanityCheckEvictionSets fuel heads).
Proof. unfold SanityCheckEvictionSets. da. Qed.
#[export] Hint Resolve da_SanityCheckEvictionSets : decisions.

Lemma da_partition_conflict_set fuel a b :
  decides_alike (partition_conflict_set fuel a b).
Proof. unfold partition_conflict_set. da. Qed.
#[export] Hint Resolve da_partition_conflict_set : decisions.




(** ** Walking a ring collects its nodes *)

Lemma walk_eviction_set_path s n head : forall rest node allNodes size,
  path s (node :: rest ++ [head]) -> head ∉ node :: rest ->
  (length rest < n)%nat ->
  walk_eviction_set n head node allNodes size s
  = Returned ((foldl (fun acc x => set_insert x acc) allNodes (node :: rest),
               size + Z.of_nat (S (length rest))), s).
Proof.
  induction n as [|n IH]; intros rest node allNodes size H Hn Hlt; [lia|].
  assert ((node =? head) = false) as E.
  { apply Z.eqb_neq. intros ->. apply Hn. left. }
  simpl. rewrite E. destruct rest as [|b rest].
  - simpl in H. destruct H as [[H _] _].
    rewrite (bind_Returned _ _ _ _ _ (get_next_eq _ _ _ H)).
    destruct n; simpl; rewrite Z.eqb_refl; reflexivity.
  - change (path s (node :: b :: rest ++ [head])) in H. rewrite path_cons2 in H.
    destruct H as [[H _] Hp].
    rewrite (bind_Returned _ _ _ _ _ (get_next_eq _ _ _ H)).
    rewrite (IH rest b _ _ Hp); [|by intros Hin; apply Hn; right|simpl in Hlt; lia].
    simpl. do 3 f_equal. lia.
Qed.

Lemma foldl_set_insert_elem x l : forall acc,
  x ∈ foldl (fun acc y => set_insert y acc) acc l <-> x ∈ acc \/ x ∈ l.
Proof.
  induction l as [|y l IH]; intros acc; simpl.
  - rewrite elem_of_nil. tauto.
  - rewrite IH, set_insert_elem, elem_of_cons. tauto.
Qed.




(** ** Instances *)

Lemma randomized_machine_ring :
  ring randomized_machine (hd 0 candidates27 :: rev (tl candidates27)).
Proof. apply (bool_decide_unpack _). vm_compute. exact I. Qed.

Lemma randomized_machine_run :
  returned (construct_conflict_set 1000 512 (hd 0 candidates27) randomized_machine)
  = true.
Proof. vm_compute. reflexivity. Qed.

Lemma small_pool_ring : ring small_pool [64; 128; 192].
Proof. apply (bool_decide_unpack _). vm_compute. exact I. Qed.

Lemma small_pool_witness_found :
  returned (find_witness 5 5 4096 64 small_pool) = true.
Proof. vm_compute. reflexivity. Qed.

Lemma small_pool_test_returns :
  returned (test_node 4096 128 [] small_pool) = true.
Proof. vm_compute. reflexivity. Qed.

Lemma GetEvictionSet_partitions_the_conflict_set_witness :
  exists heads s',
    GetEvictionSet (@rev nat) 1000 0 region27 27 quiet_machine = Returned (heads, s') /\
    exists candidates csh ch s1 conflict (rings : list (list Z)),
      FindCandidates region27 [] 27 = Returned candidates /\
      2 * LLC_BANKS * WAYS_PER_BANK <= Z.of_nat (length candidates) /\
      build_conflict_set (@rev nat) 1000 candidates quiet_machine
      = Returned ((csh, ch), s1) /\
      ring s1 conflict /\ csh ∈ conflict /\
      Z.of_nat (length conflict) = LLC_BANKS * WAYS_PER_BANK /\
      Z.of_nat (length heads) = LLC_BANKS /\
      Forall2 (fun h r =>
                 h ∈ r /\ ring s' r /\ Z.of_nat (length r) = WAYS_PER_BANK /\
                 SizeOfLinkedList (Z.to_nat WAYS_PER_BANK) h s'
                 = Returned (WAYS_PER_BANK, s')) heads rings /\
      (forall i j r1 r2 x, i <> j -> rings !! i = Some r1 -> rings !! j = Some r2 ->
                           x ∈ r1 -> x ∉ r2) /\
      concat rings ≡ₚ conflict.
Proof.
  pose proof quiet_run_returns as Hq.
  destruct (GetEvictionSet (@rev nat) 1000 0 region27 27 quiet_machine)
    as [[heads s']| | | |] eqn:E; try discriminate Hq.
  exists heads, s'. split; [reflexivity|].
  exact (GetEvictionSet_partitions_the_conflict_set (@rev nat) rev_permutes
           1000%nat 0 region27 27 quiet_machine heads s' E).
Defined.

Lemma conflict_set_construction_witness :
  exists csh ch s',
    construct_conflict_set 1000 512 (hd 0 candidates27) randomized_machine
    = Returned ((csh, ch), s') /\
    exists clock clock' conflict leftover,
      skip_probes 10 (tsc randomized_machine) = Returned clock /\
      grow_conflict 1000 clock
        (take (Z.to_nat WAYS_PER_BANK) (hd 0 candidates27 :: rev (tl candidates27)))
        (drop (Z.to_nat WAYS_PER_BANK) (hd 0 candidates27 :: rev (tl candidates27)))
        = Returned (conflict, leftover, clock') /\
      tsc s' = drop 2 clock' /\
      ring s' conflict /\ ring s' leftover /\
      NoDup (conflict ++ leftover) /\
      conflict ++ leftover ≡ₚ hd 0 candidates27 :: rev (tl candidates27) /\
      csh = hd 0 candidates27 /\ hd 0 candidates27 ∈ conflict /\ ch ∈ leftover /\
      Z.of_nat (length conflict) = CONFLICT_SET_SIZE /\
      Z.of_nat (length leftover) = 512 - CONFLICT_SET_SIZE.
Proof.
  pose proof randomized_machine_run as Hq.
  destruct (construct_conflict_set 1000 512 (hd 0 candidates27) randomized_machine)
    as [[[csh ch] s']| | | |] eqn:E; try discriminate Hq.
  exists csh, ch, s'. split; [reflexivity|].
  apply (conflict_set_construction 1000 512 randomized_machine
           (hd 0 candidates27) (rev (tl candidates27)) csh ch s').
  - exact randomized_machine_ring.
  - vm_compute. reflexivity.
  - vm_compute. discriminate.
  - exact E.
Defined.

Lemma witness_promoted_only_when_unanimous_witness :
  exists w s',
    find_witness 5 5 4096 64 small_pool = Returned (w, s') /\
    exists dropped kept clock_w,
      [64; 128; 192] = dropped ++ w :: kept /\
      ring s' (w :: kept) /\
      (forall d, d ∈ dropped -> d ∉ w :: kept) /\
      pick_witness (tsc small_pool) [64; 128; 192] = Returned (w :: kept, tsc s') /\
      unanimous 101 clock_w = Returned (true, tsc s').
Proof.
  pose proof small_pool_witness_found as Hq.
  destruct (find_witness 5 5 4096 64 small_pool) as [[w s']| | | |] eqn:E;
    try discriminate Hq.
  exists w, s'. split; [reflexivity|].
  exact (witness_promoted_only_when_unanimous 5 5 small_pool 4096 64 [128; 192]
           w s' small_pool_ring E).
Defined.

Lemma test_node_restores_the_ring_witness :
  exists evictionSet' next s',
    test_node 4096 128 [] small_pool = Returned ((evictionSet', next), s') /\
    nxt s' = nxt small_pool /\ prv s' = prv small_pool /\
    ring s' [64; 128; 192] /\
    nxt small_pool !! 128 = Some next /\
    exists p missToDRAM s1,
      prv small_pool !! 128 = Some p /\
      unlink 128 small_pool = Returned (tt, link p next small_pool) /\
      Probe next 4096 (link p next small_pool) = Returned (missToDRAM, s1) /\
      tsc s' = tsc s1 /\
      evictionSet' = if missToDRAM then [] else set_insert 128 [].
Proof.
  pose proof small_pool_test_returns as Hq.
  destruct (test_node 4096 128 [] small_pool) as [[[ev next] s']| | | |] eqn:E;
    try discriminate Hq.
  exists ev, next, s'. split; [reflexivity|].
  apply (test_node_restores_the_ring small_pool [64; 128; 192] 4096 128 []
           ev next s' small_pool_ring); [|exact E].
  apply elem_of_cons. right. apply elem_of_cons. by left.
Defined.

Lemma FindCandidates_selects_the_set_witness :
  (forall a,
     (Z.land a SET_INDEX_BITS =? u64 (Z.shiftl 27 NUM_CACHE_LINE_BITS)) = true
     <-> maps_to_set 27 a) /\
  exists candidates,
    FindCandidates region27 [] 27 = Returned candidates /\
    forall a, a ∈ candidates <-> node_of_region region27 a /\ maps_to_set 27 a.
Proof.
  assert (H1 : 0 <= 27 < SETS_PER_BANK) by (unfold SETS_PER_BANK; lia).
  assert (H2 : Z.land region27 CACHE_LINE_BITS = 0) by reflexivity.
  exact (FindCandidates_selects_the_set region27 27 H1 H2).
Defined.


Lemma GetEvictionSet_asserts_its_precondition_witness :
  exists w,
    GetEvictionSet (@rev nat) 1000 0 region27 2048 quiet_machine = Aborted w /\
    (w = ArrayIsNull \/ w = ValidSetIndex).
Proof.
  assert (H : 0 <> 0 \/ SETS_PER_BANK <= 2048)
    by (right; unfold SETS_PER_BANK; lia).
  exact (proj2 (GetEvictionSet_asserts_its_precondition (@rev nat) 1000 0
                  region27 2048 quiet_machine) H).
Defined.


(** * Further properties of the code *)

(** ** SplitResultsIntoBanks within bounds *)

Lemma advance_to_reaches below : forall t after access bound,
  Forall (fun x => x < bound) below -> bound <= t ->
  advance_to (below ++ t :: after) access bound
  = Walked (access + Z.of_nat (length below), t :: after).
Proof.
  induction below as [|x below IH]; intros t after access bound Hb Ht; simpl.
  - replace (t <? bound) with false by (symmetry; by apply Z.ltb_ge).
    f_equal. f_equal. lia.
  - apply Forall_cons in Hb as [Hx Hb].
    replace (x <? bound) with true by (symmetry; by apply Z.ltb_lt).
    rewrite IH by done. f_equal. f_equal. lia.
Qed.

Lemma split_at_first_reaching bound rest :
  Exists (fun x => bound <= x) rest ->
  exists below t after,
    rest = below ++ t :: after /\ Forall (fun x => x < bound) below /\ bound <= t.
Proof.
  induction rest as [|x rest IH]; intros H; [by apply Exists_nil in H|].
  destruct (decide (bound <= x)) as [Hx|Hx].
  - exists [], x, rest. split_and!; auto.
  - apply Exists_cons in H as [H|H]; [done|].
    destruct (IH H) as (below & t & after & -> & Hb & Ht).
    exists (x :: below), t, after. split_and!; auto.
    constructor; [lia|done].
Qed.

Lemma last_reaches (rest : list Z) bound :
  rest <> [] -> bound <= List.last rest 0 -> Exists (fun x => bound <= x) rest.
Proof.
  intros Hne Hl. apply Exists_exists. exists (List.last rest 0). split; [|done].
  destruct rest as [|a rest]; [done|].
  rewrite last_cons_default. apply last_elem_of.
Qed.

Lemma last_suffix (below : list Z) t after d :
  List.last (below ++ t :: after) d = List.last (t :: after) d.
Proof. rewrite last_app_cons. symmetry. apply last_cons_default. Qed.

Lemma SplitResultsIntoBanks_from_in_bounds banks : forall bnds rest access acc,
  rest <> [] ->
  (forall b, b ∈ banks ->
     bnds !!! (b * 2)%nat <= List.last rest 0 /\
     bnds !!! (b * 2 + 1)%nat <= List.last rest 0) ->
  exists bs,
    SplitResultsIntoBanks_from banks bnds rest access acc = Walked (acc ++ bs) /\
    length bs = (2 * length banks)%nat /\
    forall (i : nat) lo, bs !! (2 * i)%nat = Some lo ->
      access <= lo < access + Z.of_nat (length rest).
Proof.
  induction banks as [|b banks IH]; intros bnds rest access acc Hne Hb.
  - exists []. simpl. rewrite app_nil_r. split_and!; auto. intros i lo H. discriminate.
  - destruct (Hb b) as [Hb1 Hb2]; [left|].
    destruct (split_at_first_reaching _ _ (last_reaches _ _ Hne Hb1))
      as (below & t & after & -> & Hbelow & Ht).
    cbn [SplitResultsIntoBanks_from]. rewrite advance_to_reaches by done.
    rewrite last_suffix in Hb2.
    destruct (split_at_first_reaching _ _ (last_reaches (t :: after) _ ltac:(done) Hb2))
      as (below2 & t2 & after2 & E2 & Hbelow2 & Ht2).
    rewrite E2, advance_to_reaches by done.
    destruct (IH bnds (t2 :: after2)
                (access + Z.of_nat (length below) + Z.of_nat (length below2))
                ((acc ++ [access + Z.of_nat (length below)])
                   ++ [u64 (access + Z.of_nat (length below)
                            + Z.of_nat (length below2) - 1)]))
      as (bs & Hrun & Hlen & Hlo); [done| |].
    { intros b' Hb'. destruct (Hb b') as [H1 H2]; [by right|].
      rewrite last_suffix, E2, last_suffix in H1, H2. done. }
    eexists (_ :: _ :: bs). split_and!.
    + rewrite Hrun. f_equal. by rewrite <- !app_assoc.
    + simpl. lia.
    + intros i lo H. rewrite !length_app. cbn [length]. destruct i as [|i].
      * simpl in H. injection H as <-. lia.
      * replace (2 * S i)%nat with (S (S (2 * i))) in H by lia. simpl in H.
        apply Hlo in H. simpl in H. lia.
Qed.

(** When the attacker's last timestamp is not below any victim boundary, the
    walk of [SplitResultsIntoBanks] never leaves the array: it returns two
    boundaries for each bank, and every starting boundary is an index of
    the array. *)
Theorem SplitResultsIntoBanks_stays_in_bounds times bnds :
  times <> [] ->
  (forall k, (k < 24)%nat -> bnds !!! k <= List.last times 0) ->
  exists bs,
    SplitResultsIntoBanks times bnds = Walked bs /\
    Z.of_nat (length bs) = 2 * LLC_BANKS /\
    forall (bank : nat) lo, bs !! (2 * bank)%nat = Some lo ->
      0 <= lo < Z.of_nat (length times).
Proof.
  intros Hne Hb.
  destruct (SplitResultsIntoBanks_from_in_bounds (seq 0 (Z.to_nat LLC_BANKS))
              bnds times 0 [] Hne) as (bs & Hrun & Hlen & Hlo).
  { intros b Hin. apply elem_of_seq in Hin. change (Z.to_nat LLC_BANKS) with 12%nat in Hin.
    split; apply Hb; lia. }
  exists bs. split_and!; auto.
  rewrite Hlen, length_seq. reflexivity.
Qed.

Lemma SplitResultsIntoBanks_stays_in_bounds_witness :
  exists bs,
    SplitResultsIntoBanks [10; 20; 30; 40; 50] (repeat 25 12 ++ repeat 45 12)
    = Walked bs /\
    Z.of_nat (length bs) = 2 * LLC_BANKS /\
    forall (bank : nat) lo, bs !! (2 * bank)%nat = Some lo ->
      0 <= lo < Z.of_nat (length [10; 20; 30; 40; 50]).
Proof.
  apply (SplitResultsIntoBanks_stays_in_bounds [10; 20; 30; 40; 50]
           (repeat 25 12 ++ repeat 45 12)); [done|].
  intros k Hk. do 24 (destruct k as [|k]; [vm_compute; discriminate|]). lia.
Defined.

(** ** The windows on sorted timestamps *)

Lemma count_below_all bound l :
  Forall (fun x => x < bound) l -> count_below bound l = Z.of_nat (length l).
Proof.
  unfold count_below. induction 1 as [|x l Hx Hl IH]; [reflexivity|].
  rewrite filter_cons_True by done. simpl length. lia.
Qed.

Lemma count_below_none bound l :
  Forall (fun x => bound <= x) l -> count_below bound l = 0.
Proof.
  unfold count_below. induction 1 as [|x l Hx Hl IH]; [reflexivity|].
  rewrite filter_cons_False by lia. exact IH.
Qed.

Lemma count_below_app bound l1 l2 :
  count_below bound (l1 ++ l2) = count_below bound l1 + count_below bound l2.
Proof. unfold count_below. rewrite filter_app, length_app. lia. Qed.

Lemma count_below_bounds bound l : 0 <= count_below bound l <= Z.of_nat (length l).
Proof.
  unfold count_below. pose proof (length_filter (fun t => t < bound) l). lia.
Qed.

Lemma count_below_sorted bound times : forall (i : nat) t,
  StronglySorted Z.le times -> times !! i = Some t ->
  (Z.of_nat i < count_below bound times <-> t < bound).
Proof.
  induction times as [|a l IH]; intros i t Hs Hi; [discriminate|].
  apply StronglySorted_inv in Hs as [Hs Ha].
  change (a :: l) with ([a] ++ l). rewrite count_below_app.
  destruct (decide (a < bound)) as [Hlt|Hge].
  - rewrite (count_below_all bound [a]) by (constructor; [done|constructor]).
    destruct i as [|i]; simpl in Hi.
    + injection Hi as <-. pose proof (count_below_bounds bound l). simpl. lia.
    + rewrite <- (IH i t Hs Hi). simpl length. lia.
  - rewrite (count_below_none bound [a]) by (constructor; [lia|constructor]).
    rewrite (count_below_none bound l).
    2:{ eapply Forall_impl; [exact Ha|]. simpl. intros; lia. }
    destruct i as [|i]; simpl in Hi.
    + injection Hi as <-. lia.
    + apply list_elem_of_lookup_2 in Hi. rewrite Forall_forall in Ha.
      apply Ha in Hi. lia.
Qed.

Lemma sorted_suffix (l1 l2 : list Z) :
  StronglySorted Z.le (l1 ++ l2) -> StronglySorted Z.le l2.
Proof.
  induction l1 as [|x l1 IH]; [done|]. simpl. intros H.
  apply StronglySorted_inv in H as [H _]. auto.
Qed.

Lemma advance_to_sorted done rest bound :
  StronglySorted Z.le (done ++ rest) ->
  Forall (fun x => x < bound) done ->
  rest <> [] -> bound <= List.last rest 0 ->
  exists below t after,
    rest = below ++ t :: after /\
    advance_to rest (Z.of_nat (length done)) bound
    = Walked (count_below bound (done ++ rest), t :: after) /\
    count_below bound (done ++ rest) = Z.of_nat (length (done ++ below)) /\
    Forall (fun x => x < bound) (done ++ below).
Proof.
  intros Hs Hd Hne Hl.
  destruct (split_at_first_reaching _ _ (last_reaches _ _ Hne Hl))
    as (below & t & after & -> & Hbelow & Ht).
  assert (Hcount : count_below bound (done ++ below ++ t :: after)
                   = Z.of_nat (length (done ++ below))).
  { rewrite app_assoc, count_below_app.
    rewrite count_below_all by (apply Forall_app; done).
    rewrite count_below_none; [lia|].
    rewrite app_assoc in Hs. apply sorted_suffix in Hs.
    apply StronglySorted_inv in Hs as [_ Ha].
    constructor; [done|]. eapply Forall_impl; [exact Ha|]. simpl. intros; lia. }
  exists below, t, after. split_and!; auto.
  - rewrite advance_to_reaches by done. rewrite Hcount, length_app. do 2 f_equal. lia.
  - apply Forall_app; done.
Qed.

Lemma SplitResultsIntoBanks_from_sorted n : forall k bnds done rest acc t0 times',
  done ++ rest = t0 :: times' ->
  StronglySorted Z.le (done ++ rest) -> rest <> [] ->
  Z.of_nat (length (done ++ rest)) < 2 ^ 64 ->
  (forall i j : nat, (i <= j < 2 * (k + n))%nat -> bnds !!! i <= bnds !!! j) ->
  (forall j : nat, (j < 2 * (k + n))%nat -> bnds !!! j <= List.last rest 0) ->
  (forall j : nat, (1 <= j < 2 * (k + n))%nat -> t0 < bnds !!! j) ->
  Forall (fun x => forall j : nat, (2 * k <= j < 2 * (k + n))%nat -> x < bnds !!! j)
         done ->
  SplitResultsIntoBanks_from (seq k n) bnds rest (Z.of_nat (length done)) acc
  = Walked (acc ++ flat_map (bank_window (done ++ rest) bnds) (seq k n)).
Proof.
  induction n as [|n IH];
    intros k bnds done rest acc t0 times' Et Hs Hne Hlen Hmono Hlast Hfirst Hdone.
  - simpl. by rewrite app_nil_r.
  - cbn [seq SplitResultsIntoBanks_from flat_map].
    replace (k * 2)%nat with (2 * k)%nat by lia.
    replace (2 * k + 1)%nat with (S (2 * k)) by lia.
    destruct (advance_to_sorted done rest (bnds !!! (2 * k)%nat) Hs)
      as (below & t & after & -> & Hrun & Hcount & Hbelow); auto.
    { eapply Forall_impl; [exact Hdone|]. cbv beta. intros x Hx. apply Hx. lia. }
    { apply Hlast. lia. }
    rewrite Hrun. clear Hrun.
    assert (Hs' : StronglySorted Z.le ((done ++ below) ++ t :: after))
      by (by rewrite <- app_assoc).
    destruct (advance_to_sorted (done ++ below) (t :: after) (bnds !!! S (2 * k)) Hs')
      as (below2 & t2 & after2 & E2 & Hrun & Hcount2 & Hbelow2); auto.
    { eapply Forall_impl; [exact Hbelow|]. cbv beta. intros x Hx.
      specialize (Hmono (2 * k)%nat (S (2 * k))). lia. }
    { rewrite <- (last_suffix below t after). apply Hlast. lia. }
    rewrite <- (app_assoc done below (t :: after)) in Hcount2, Hrun.
    rewrite Hcount, Hrun. clear Hrun.
    set (times := done ++ below ++ t :: after) in *.
    assert (Etimes : times = ((done ++ below) ++ below2) ++ t2 :: after2).
    { unfold times. rewrite E2. by rewrite <- !app_assoc. }
    assert (Hhi : 1 <= count_below (bnds !!! S (2 * k)) times <= Z.of_nat (length times)).
    { split; [|apply count_below_bounds].
      rewrite Et. change (t0 :: times') with ([t0] ++ times').
      rewrite count_below_app, (count_below_all _ [t0]).
      - pose proof (count_below_bounds (bnds !!! S (2 * k)) times').
        change (Z.of_nat (length [t0])) with 1. lia.
      - constructor; [|constructor]. apply Hfirst. lia. }
    rewrite Hcount2.
    rewrite (IH (S k) bnds ((done ++ below) ++ below2) (t2 :: after2) _ t0 times').
    + rewrite <- Etimes. unfold bank_window at 2.
      replace (k * 2)%nat with (2 * k)%nat by lia.
      replace (2 * k + 1)%nat with (S (2 * k)) by lia.
      rewrite <- !app_assoc. cbn [app]. do 3 f_equal.
      * symmetry. exact Hcount.
      * f_equal. rewrite (app_assoc done below below2), <- Hcount2.
        unfold u64. apply Z.mod_small. lia.
    + by rewrite <- Etimes.
    + by rewrite <- Etimes.
    + done.
    + by rewrite <- Etimes.
    + intros i j Hij. apply Hmono. lia.
    + intros j Hj. rewrite <- (last_suffix below2 t2 after2), <- E2.
      rewrite <- (last_suffix below t after). apply Hlast. lia.
    + intros j Hj. apply Hfirst. lia.
    + eapply Forall_impl; [exact Hbelow2|]. cbv beta. intros x Hx j Hj.
      specialize (Hmono (S (2 * k)) j). lia.
Qed.

Lemma sorted_lookup_le (l : list Z) : forall (i j : nat),
  StronglySorted Z.le l -> (i <= j < length l)%nat -> l !!! i <= l !!! j.
Proof.
  induction l as [|a l IH]; intros i j Hs Hij; [simpl in Hij; lia|].
  apply StronglySorted_inv in Hs as [Hs Ha].
  destruct i as [|i], j as [|j]; simpl in *; try lia.
  - rewrite Forall_forall in Ha. apply Ha. apply list_elem_of_lookup_total_2. lia.
  - apply IH; [done|lia].
Qed.

(** With attacker timestamps and victim boundaries in time order, an
    attacker that starts before the first victim window ends and finishes
    after the last one: for each bank, [SplitResultsIntoBanks] records the
    number of accesses before the victim's start and the number before its
    end, less one; the accesses between the two indices are exactly those
    whose timestamps lie in the victim's window. *)
Theorem SplitResultsIntoBanks_windows times bnds t0 rest :
  times = t0 :: rest ->
  StronglySorted Z.le times -> StronglySorted Z.le bnds ->
  length bnds = 24%nat -> Z.of_nat (length times) < 2 ^ 64 ->
  t0 < bnds !!! 1%nat -> bnds !!! 23%nat <= List.last times 0 ->
  SplitResultsIntoBanks times bnds
  = Walked (flat_map (bank_window times bnds) (seq 0 (Z.to_nat LLC_BANKS))) /\
  forall (bank i : nat) t,
    (bank < 12)%nat -> times !! i = Some t ->
    (count_below (bnds !!! (bank * 2)%nat) times <= Z.of_nat i
       <= count_below (bnds !!! (bank * 2 + 1)%nat) times - 1
     <-> bnds !!! (bank * 2)%nat <= t < bnds !!! (bank * 2 + 1)%nat).
Proof.
  intros Et Hs Hb Hlen Hsize Hfirst Hlast.
  assert (Hmono : forall i j : nat, (i <= j < 24)%nat -> bnds !!! i <= bnds !!! j).
  { intros i j Hij. apply sorted_lookup_le; [done|lia]. }
  split.
  - unfold SplitResultsIntoBanks. change (Z.to_nat LLC_BANKS) with 12%nat.
    apply (SplitResultsIntoBanks_from_sorted 12 0 bnds [] times [] t0 rest);
      auto.
    + by intros ->.
    + intros j Hj. specialize (Hmono j 23%nat). simpl. lia.
    + intros j Hj. specialize (Hmono 1%nat j). lia.
  - intros bank i t Hbank Hi.
    pose proof (count_below_sorted (bnds !!! (bank * 2)%nat) times i t Hs Hi) as H1.
    pose proof (count_below_sorted (bnds !!! (bank * 2 + 1)%nat) times i t Hs Hi) as H2.
    lia.
Qed.

Lemma SplitResultsIntoBanks_from_prefix banks : forall bnds rest access acc bs,
  SplitResultsIntoBanks_from banks bnds rest access acc = Walked bs ->
  exists more, bs = acc ++ more.
Proof.
  induction banks as [|b banks IH]; intros bnds rest access acc bs H.
  - injection H as <-. exists []. by rewrite app_nil_r.
  - cbn [SplitResultsIntoBanks_from] in H.
    destruct (advance_to rest access _) as [[a1 r1]|]; [|discriminate].
    destruct (advance_to r1 a1 _) as [[a2 r2]|]; [|discriminate].
    apply IH in H as [more ->]. eexists. by rewrite <- !app_assoc.
Qed.

(** When the attacker's first timestamp is not before the end of the first
    victim window, no access precedes that end: the first window starts at
    index 0 and its ending boundary, [access - 1] on a [uint64_t] that is
    0, is [2^64 - 1]. *)
Theorem SplitResultsIntoBanks_first_window_wraps times bnds t0 rest bs :
  times = t0 :: rest ->
  bnds !!! 0%nat <= t0 -> bnds !!! 1%nat <= t0 ->
  SplitResultsIntoBanks times bnds = Walked bs ->
  bs !! 0%nat = Some 0 /\ bs !! 1%nat = Some (2 ^ 64 - 1).
Proof.
  intros -> H0 H1 H. unfold SplitResultsIntoBanks in H.
  change (Z.to_nat LLC_BANKS) with 12%nat in H.
  change (seq 0 12) with (0%nat :: seq 1 11) in H.
  cbn [SplitResultsIntoBanks_from advance_to] in H.
  change (0 * 2)%nat with 0%nat in H.
  replace (t0 <? bnds !!! 0%nat) with false in H by (symmetry; by apply Z.ltb_ge).
  change (0 + 1)%nat with 1%nat in H. cbn [advance_to] in H.
  replace (t0 <? bnds !!! 1%nat) with false in H by (symmetry; by apply Z.ltb_ge).
  apply SplitResultsIntoBanks_from_prefix in H as [more ->]. done.
Qed.

Lemma SplitResultsIntoBanks_windows_witness :
  SplitResultsIntoBanks sample_times sample_boundaries
  = Walked (flat_map (bank_window sample_times sample_boundaries)
                     (seq 0 (Z.to_nat LLC_BANKS))) /\
  forall (bank i : nat) t,
    (bank < 12)%nat -> sample_times !! i = Some t ->
    (count_below (sample_boundaries !!! (bank * 2)%nat) sample_times <= Z.of_nat i
       <= count_below (sample_boundaries !!! (bank * 2 + 1)%nat) sample_times - 1
     <-> sample_boundaries !!! (bank * 2)%nat <= t
         < sample_boundaries !!! (bank * 2 + 1)%nat).
Proof.
  apply (SplitResultsIntoBanks_windows sample_times sample_boundaries
           10 [20; 30; 40; 50; 60]).
  - reflexivity.
  - unfold sample_times. repeat (constructor; [|repeat (constructor; [lia|])]); constructor.
  - unfold sample_boundaries.
    repeat (constructor; [|repeat (constructor; [lia|])]); constructor.
  - reflexivity.
  - vm_compute. reflexivity.
  - vm_compute. reflexivity.
  - vm_compute. discriminate.
Defined.

Lemma SplitResultsIntoBanks_first_window_wraps_witness :
  exists bs,
    SplitResultsIntoBanks [100; 200] (repeat 50 24) = Walked bs /\
    bs !! 0%nat = Some 0 /\ bs !! 1%nat = Some (2 ^ 64 - 1).
Proof.
  eexists. split; [vm_compute; reflexivity|].
  apply (SplitResultsIntoBanks_first_window_wraps [100; 200] (repeat 50 24) 100 [200]).
  - reflexivity.
  - vm_compute. discriminate.
  - vm_compute. discriminate.
  - vm_compute. reflexivity.
Defined.

(** ** GetAttackerClosestBank *)

Lemma vec_at_inv v i s x s' :
  vec_at v i s = Returned (x, s') -> v !! i = Some x /\ s' = s.
Proof.
  unfold vec_at. destruct (v !! i); [|discriminate]. by intros [= -> ->].
Qed.

Lemma rdtsc_inv s t s' :
  rdtsc s = Returned (t, s') ->
  tsc s = t :: tsc s' /\ nxt s' = nxt s /\ prv s' = prv s.
Proof.
  unfold rdtsc. destruct (tsc s) as [|t' rest] eqn:E; [discriminate|].
  intros [= -> <-]. done.
Qed.

Lemma measurements_range clock :
  Forall (fun t => 0 <= t < 2 ^ 64) (measurements clock).
Proof.
  induction clock as [clock IH] using (induction_ltof1 _ (@length Z)).
  unfold ltof in IH. destruct clock as [|t0 [|t1 rest]]; simpl; try constructor.
  - unfold u64. apply Z.mod_pos_bound. lia.
  - apply IH. simpl. lia.
Qed.

Lemma closest_bank_from_spec banks : forall evs cb st s cb' s',
  closest_bank_from banks evs cb st s = Returned (cb', s') ->
  let times := take (length banks) (measurements (tsc s)) in
  length times = length banks /\
  Forall (fun b => (b < length evs)%nat) banks /\
  nxt s' = nxt s /\ prv s' = prv s /\
  tsc s' = drop (2 * length banks) (tsc s) /\
  ((cb' = cb /\ Forall (fun t => st <= t) times) \/
   exists (i b : nat) t,
     banks !! i = Some b /\ cb' = Z.of_nat b /\ times !! i = Some t /\ t < st /\
     Forall (fun t' => t <= t') times /\ Forall (fun t' => t < t') (take i times)).
Proof.
  induction banks as [|bank banks IH]; intros evs cb st s cb' s' H.
  - injection H as <- <-. simpl. split_and!; auto.
  - cbn [closest_bank_from] in H.
    apply bind_inv in H as (node & s1 & Hv & H). apply vec_at_inv in Hv as [Hv ->].
    apply bind_inv in H as (t0 & s1 & H0 & H). apply rdtsc_inv in H0 as (E0 & En0 & Ep0).
    apply bind_inv in H as (t1 & s2 & H1 & H). apply rdtsc_inv in H1 as (E1 & En1 & Ep1).
    rewrite E1 in E0. rewrite E0. cbn [measurements length take].
    assert (Hbank : (bank < length evs)%nat) by (by apply lookup_lt_Some in Hv).
    replace (2 * S (length banks))%nat with (S (S (2 * length banks))) by lia.
    cbn [drop].
    destruct (Z.ltb_spec (u64 (t1 - t0)) st) as [Hlt|Hge];
      apply IH in H as (Hlen & Hev & En & Ep & Et & Hres); cbn zeta in *.
    + split_and!; [simpl; lia|by constructor|congruence|congruence|done|].
      right. destruct Hres as [[-> Hall]|(i & b & t & Hb & -> & Ht & Htlt & Hmin & Hbefore)].
      * exists 0%nat, bank, (u64 (t1 - t0)).
        split_and!; solve [auto | lia | cbn [take]; constructor; [lia|done] | constructor].
      * exists (S i), b, t.
        split_and!; solve [auto | lia | cbn [take]; constructor; [lia|done] | constructor].
    + split_and!; [simpl; lia|by constructor|congruence|congruence|done|].
      destruct Hres as [[-> Hall]|(i & b & t & Hb & -> & Ht & Htlt & Hmin & Hbefore)].
      * left. split; [done|]. constructor; [lia|done].
      * right. exists (S i), b, t.
        split_and!; solve [auto | lia | cbn [take]; constructor; [lia|done] | constructor].
Qed.

(** [GetAttackerClosestBank] takes one latency measurement per bank and
    returns the first bank whose measurement is the smallest. Only when
    every measurement is [2^64 - 1], the initial [shortestTime], does
    [*closestBank] keep its initial value [-1], which is no bank. A vector
    of fewer than [LLC_BANKS] handles is read past its end. *)
Theorem GetAttackerClosestBank_picks_first_minimum evs s cb s' :
  GetAttackerClosestBank evs s = Returned (cb, s') ->
  let times := take 12 (measurements (tsc s)) in
  (12 <= length evs)%nat /\ length times = 12%nat /\
  nxt s' = nxt s /\ prv s' = prv s /\ tsc s' = drop 24 (tsc s) /\
  ((cb = 2 ^ 64 - 1 /\ Forall (fun t => t = 2 ^ 64 - 1) times) \/
   exists (bank : nat) t,
     cb = Z.of_nat bank /\ times !! bank = Some t /\ t < 2 ^ 64 - 1 /\
     Forall (fun t' => t <= t') times /\
     Forall (fun t' => t < t') (take bank times)).
Proof.
  intros H. unfold GetAttackerClosestBank in H.
  change (Z.to_nat LLC_BANKS) with 12%nat in H.
  apply closest_bank_from_spec in H as (Hlen & Hev & En & Ep & Et & Hres).
  rewrite length_seq in *. cbn zeta in *. split_and!; auto.
  - rewrite Forall_forall in Hev. specialize (Hev 11%nat).
    assert (11 ∈ seq 0 12)%nat by (apply elem_of_seq; lia). apply Hev in H. lia.
  - change (u64 (-1)) with (2 ^ 64 - 1) in Hres.
    destruct Hres as [[-> Hall]|(i & b & t & Hb & -> & Ht & Htlt & Hmin & Hbefore)].
    + left. split; [done|].
      pose proof (measurements_range (tsc s)) as Hr.
      apply (Forall_take _ 12%nat) in Hr.
      rewrite Forall_forall in Hall, Hr. apply Forall_forall. intros t Ht.
      specialize (Hall t Ht). specialize (Hr t Ht). cbv beta in *. lia.
    + right. exists i, t. apply lookup_seq in Hb as [-> _]. split_and!; auto.
Qed.

Lemma GetAttackerClosestBank_picks_first_minimum_witness :
  exists cb s',
    GetAttackerClosestBank sample_handles sample_bank_clock = Returned (cb, s') /\
    let times := take 12 (measurements (tsc sample_bank_clock)) in
    (12 <= length sample_handles)%nat /\ length times = 12%nat /\
    nxt s' = nxt sample_bank_clock /\ prv s' = prv sample_bank_clock /\
    tsc s' = drop 24 (tsc sample_bank_clock) /\
    ((cb = 2 ^ 64 - 1 /\ Forall (fun t => t = 2 ^ 64 - 1) times) \/
     exists (bank : nat) t,
       cb = Z.of_nat bank /\ times !! bank = Some t /\ t < 2 ^ 64 - 1 /\
       Forall (fun t' => t <= t') times /\
       Forall (fun t' => t < t') (take bank times)).
Proof.
  assert (returned (GetAttackerClosestBank sample_handles sample_bank_clock) = true)
    as Hq by (vm_compute; reflexivity).
  destruct (GetAttackerClosestBank sample_handles sample_bank_clock)
    as [[cb s']| | | |] eqn:E; try discriminate Hq.
  exists cb, s'. split; [reflexivity|].
  exact (GetAttackerClosestBank_picks_first_minimum sample_handles
           sample_bank_clock cb s' E).
Defined.

(** Unlike the builder, [GetAttackerClosestBank] compares the measured times
    with each other: two traces on which the builder would take the same
    decisions can give different banks. *)
Lemma GetAttackerClosestBank_compares_latencies :
  ~ decides_alike (GetAttackerClosestBank sample_handles).
Proof.
  intros H.
  specialize (H (Machine ∅ ∅ (clock_from 0 (50 :: repeat 40 11)))
                (Machine ∅ ∅ (clock_from 0 (40 :: repeat 50 11)))
                eq_refl eq_refl).
  assert (Hd : same_decisions (clock_from 0 (50 :: repeat 40 11))
                              (clock_from 0 (40 :: repeat 50 11)))
    by (vm_compute; reflexivity).
  apply H in Hd. clear H.
  assert (E1 : GetAttackerClosestBank sample_handles
                 (Machine ∅ ∅ (clock_from 0 (50 :: repeat 40 11)))
               = Returned (1, Machine ∅ ∅ [])) by reflexivity.
  assert (E2 : GetAttackerClosestBank sample_handles
                 (Machine ∅ ∅ (clock_from 0 (40 :: repeat 50 11)))
               = Returned (0, Machine ∅ ∅ [])) by reflexivity.
  assert (Hne : forall r1 r2 : outcome (Z * machine),
            r1 = Returned (1, Machine ∅ ∅ []) -> r2 = Returned (0, Machine ∅ ∅ []) ->
            agree r1 r2 -> False).
  { intros r1 r2 -> -> [Hne _]. discriminate Hne. }
  exact (Hne _ _ E1 E2 Hd).
Qed.

(** ** SizeOfLinkedList *)

Lemma SizeOfLinkedList_loop_follows n : forall s head node size r s',
  SizeOfLinkedList_loop n head node size s = Returned (r, s') ->
  s' = s /\
  ((node = head /\ r = size) \/
   exists l, follows s node l head /\ (head ∉ node :: l) /\
             r = size + Z.of_nat (S (length l)) /\ (S (length l) <= n)%nat).
Proof.
  induction n as [|n IH]; intros s head node size r s' H; simpl in H.
  - destruct (Z.eqb_spec node head) as [->|Hne]; [|discriminate].
    injection H as <- <-. auto.
  - destruct (Z.eqb_spec node head) as [->|Hne].
    { injection H as <- <-. auto. }
    apply bind_inv in H as (nx & s1 & Hn & H). apply get_next_inv in Hn as [Hn ->].
    apply IH in H as [-> [[-> ->]|(l & Hf & Hnin & -> & Hlen)]]; split; auto; right.
    + exists []. simpl. split_and!; auto; try lia.
      intros Hin. apply elem_of_cons in Hin as [->|Hin]; [done|by apply elem_of_nil in Hin].
    + exists (nx :: l). simpl. split_and!; auto; try lia.
      intros Hin. apply elem_of_cons in Hin as [->|Hin]; [done|]. by apply Hnin.
Qed.

Lemma SizeOfLinkedList_loop_run l : forall s n head node size,
  follows s node l head -> head ∉ node :: l -> (S (length l) <= n)%nat ->
  SizeOfLinkedList_loop n head node size s
  = Returned (size + Z.of_nat (S (length l)), s).
Proof.
  induction l as [|z l IH]; intros s n head node size Hf Hnin Hlen;
    (destruct n as [|n]; [simpl in Hlen; lia|]); simpl in Hf |- *.
  - replace (node =? head) with false
      by (symmetry; apply Z.eqb_neq; intros ->; apply Hnin; left).
    rewrite (bind_Returned _ _ _ _ _ (get_next_eq _ _ _ Hf)).
    destruct n; simpl; rewrite Z.eqb_refl; reflexivity.
  - destruct Hf as [Hn Hf].
    replace (node =? head) with false
      by (symmetry; apply Z.eqb_neq; intros ->; apply Hnin; left).
    rewrite (bind_Returned _ _ _ _ _ (get_next_eq _ _ _ Hn)).
    rewrite (IH s n head z (size + 1) Hf); [|by intros Hin; apply Hnin; right|simpl in Hlen; lia].
    do 2 f_equal. simpl length. lia.
Qed.

(** [SizeOfLinkedList] returns [n] exactly when following [next] from the
    node comes back to it after [n] steps and not before; it reads [next]
    fields only and changes nothing. On a chain that never comes back to
    the node it does not return. *)
Theorem SizeOfLinkedList_measures_the_next_cycle fuel node s n s' :
  SizeOfLinkedList fuel node s = Returned (n, s') <->
  s' = s /\
  exists l, follows s node l node /\ (node ∉ l) /\
            n = Z.of_nat (S (length l)) /\ (length l <= fuel)%nat.
Proof.
  unfold SizeOfLinkedList. split.
  - intros H. apply bind_inv in H as (nx & s1 & Hn & H).
    apply get_next_inv in Hn as [Hn ->].
    destruct (Z.eqb_spec node nx) as [<-|Hne].
    + injection H as <- <-. split; [done|]. exists []. simpl. split_and!; auto; try lia.
      apply not_elem_of_nil.
    + apply SizeOfLinkedList_loop_follows in H
        as [-> [[-> ->]|(l & Hf & Hnin & -> & Hlen)]]; [done|].
      split; [done|]. exists (nx :: l). simpl. split_and!; auto; lia.
  - intros [-> (l & Hf & Hnin & -> & Hlen)]. destruct l as [|z l]; simpl in Hf.
    + rewrite (bind_Returned _ _ _ _ _ (get_next_eq _ _ _ Hf)).
      by rewrite Z.eqb_refl.
    + destruct Hf as [Hn Hf].
      rewrite (bind_Returned _ _ _ _ _ (get_next_eq _ _ _ Hn)).
      replace (node =? z) with false
        by (symmetry; apply Z.eqb_neq; intros ->; apply Hnin; left).
      rewrite (SizeOfLinkedList_loop_run l s fuel node z 1 Hf);
        [|done|simpl in Hlen; lia].
      do 2 f_equal. simpl length. lia.
Qed.

Lemma SizeOfLinkedList_measures_the_next_cycle_witness :
  SizeOfLinkedList 5 64 small_pool = Returned (3, small_pool).
Proof.
  apply (proj2 (SizeOfLinkedList_measures_the_next_cycle 5 64 small_pool 3 small_pool)).
  split; [reflexivity|]. exists [128; 192].
  split_and!; [vm_compute; auto|apply (bool_decide_unpack _); vm_compute; exact I
              |reflexivity|simpl; lia].
Defined.

(** ** SanityCheckEvictionSets is sound *)

Lemma set_insert_length_le a l : (length (set_insert a l) <= S (length l))%nat.
Proof.
  induction l as [|y l IH]; simpl; [lia|].
  destruct (a <? y); [simpl; lia|]. destruct (a =? y); simpl; lia.
Qed.

Lemma set_insert_present a l :
  ascending l -> a ∈ l -> set_insert a l = l.
Proof.
  induction l as [|y l IH]; intros Hs Ha; [by apply elem_of_nil in Ha|].
  apply StronglySorted_inv in Hs as [Hs Hy]. simpl.
  apply elem_of_cons in Ha as [->|Ha].
  - rewrite Z.ltb_irrefl, Z.eqb_refl. reflexivity.
  - rewrite Forall_forall in Hy. pose proof (Hy a Ha).
    replace (a <? y) with false by (symmetry; apply Z.ltb_ge; lia).
    replace (a =? y) with false by (symmetry; apply Z.eqb_neq; lia).
    by rewrite IH.
Qed.

Lemma foldl_set_insert_ascending l : forall acc,
  ascending acc -> ascending (foldl (fun acc x => set_insert x acc) acc l).
Proof.
  induction l as [|x l IH]; intros acc Hs; simpl; [done|].
  apply IH. by apply set_insert_ascending.
Qed.

Lemma foldl_set_insert_length_le l : forall acc,
  (length (foldl (fun acc x => set_insert x acc) acc l) <= length acc + length l)%nat.
Proof.
  induction l as [|x l IH]; intros acc; simpl; [lia|].
  pose proof (IH (set_insert x acc)). pose proof (set_insert_length_le x acc). lia.
Qed.

Lemma foldl_set_insert_full l : forall acc,
  ascending acc ->
  length (foldl (fun acc x => set_insert x acc) acc l) = (length acc + length l)%nat ->
  NoDup l /\ forall x, x ∈ l -> x ∉ acc.
Proof.
  induction l as [|x l IH]; intros acc Hs Hlen; simpl in Hlen.
  - split; [constructor|]. intros x Hx. by apply elem_of_nil in Hx.
  - pose proof (foldl_set_insert_length_le l (set_insert x acc)) as Hle.
    assert (Hx : x ∉ acc).
    { intros Hin. rewrite (set_insert_present x acc Hs Hin) in Hle, Hlen. lia. }
    pose proof (set_insert_length x acc Hx) as Hl1.
    destruct (IH (set_insert x acc)) as [Hnd Hdis];
      [by apply set_insert_ascending|lia|].
    split.
    + constructor; [|done]. intros Hin. apply (Hdis x Hin).
      apply set_insert_elem. by left.
    + intros y Hy. apply elem_of_cons in Hy as [->|Hy]; [done|].
      intros Hin. apply (Hdis y Hy). apply set_insert_elem. by right.
Qed.

Lemma walk_eviction_set_follows n : forall s head node allNodes size r s',
  walk_eviction_set n head node allNodes size s = Returned (r, s') ->
  s' = s /\
  ((node = head /\ r = (allNodes, size)) \/
   exists l, follows s node l head /\ (head ∉ node :: l) /\
     r = (foldl (fun acc x => set_insert x acc) allNodes (node :: l),
          size + Z.of_nat (S (length l)))).
Proof.
  induction n as [|n IH]; intros s head node allNodes size r s' H; simpl in H.
  - destruct (Z.eqb_spec node head) as [->|Hne]; [|discriminate].
    injection H as <- <-. auto.
  - destruct (Z.eqb_spec node head) as [->|Hne].
    { injection H as <- <-. auto. }
    apply bind_inv in H as (nx & s1 & Hn & H). apply get_next_inv in Hn as [Hn ->].
    apply IH in H as [-> [[-> ->]|(l & Hf & Hnin & ->)]]; split; auto; right.
    + exists []. simpl. split_and!; auto; try (f_equal; lia).
      intros Hin. apply elem_of_cons in Hin as [->|Hin]; [done|by apply elem_of_nil in Hin].
    + exists (nx :: l). simpl. split_and!; auto; try (f_equal; lia).
      intros Hin. apply elem_of_cons in Hin as [->|Hin]; [done|]. by apply Hnin.
Qed.

Lemma check_sizes_sound fuel heads : forall s allNodes r s',
  check_sizes fuel heads allNodes s = Returned (r, s') ->
  s' = s /\
  exists cycles,
    Forall2 (fun h c => next_cycle s h c /\ Z.of_nat (length c) = WAYS_PER_BANK)
            heads cycles /\
    r = foldl (fun acc x => set_insert x acc) allNodes (concat cycles).
Proof.
  induction heads as [|h heads IH]; intros s allNodes r s' H; simpl in H.
  - injection H as <- <-. split; [done|]. exists []. split; [constructor|done].
  - apply bind_inv in H as (nx & s1 & Hn & H). apply get_next_inv in Hn as [Hn ->].
    apply bind_inv in H as ([all size] & s1 & Hw & H).
    apply walk_eviction_set_follows in Hw as [-> Hw].
    apply bind_inv in H as (u & s1 & Ha & H). apply assert_inv in Ha as [Hsz ->].
    apply Z.eqb_eq in Hsz. apply IH in H as [-> (cycles & Hc & ->)].
    split; [done|].
    destruct Hw as [[-> [= -> ->]]|(l & Hf & Hnin & [= -> ->])].
    + discriminate Hsz.
    + exists ((h :: nx :: l) :: cycles). split.
      * constructor; [|done]. split.
        -- exists (nx :: l). simpl. auto.
        -- rewrite <- Hsz. simpl length. lia.
      * simpl. by rewrite foldl_app.
Qed.

(** Twelve handles pass [SanityCheckEvictionSets] only if following [next]
    from each handle comes back to it after exactly [WAYS_PER_BANK] nodes
    and no node lies on two of these cycles. The check looks at [next]
    fields only, and it changes no link. *)
Theorem SanityCheckEvictionSets_is_sound fuel heads s u s' :
  Z.of_nat (length heads) = LLC_BANKS ->
  SanityCheckEvictionSets fuel heads s = Returned (u, s') ->
  nxt s' = nxt s /\ prv s' = prv s /\
  exists cycles,
    Forall2 (fun h c => next_cycle s h c /\ Z.of_nat (length c) = WAYS_PER_BANK)
            heads cycles /\
    NoDup (concat cycles).
Proof.
  intros Hheads H.
  destruct (SanityCheckEvictionSets_links _ _ _ _ _ H) as [En Ep].
  split; [done|]. split; [done|].
  unfold SanityCheckEvictionSets in H.
  apply bind_inv in H as (all & s1 & Hc & H).
  apply check_sizes_sound in Hc as [-> (cycles & Hcycles & ->)].
  apply bind_inv in H as (u1 & s1 & Ha & _). apply assert_inv in Ha as [Hall _].
  apply Z.eqb_eq in Hall.
  exists cycles. split; [done|].
  assert (Hlen : length (concat cycles) = 240%nat).
  { assert (Hgen : forall hs cs,
              Forall2 (fun h c => next_cycle s h c
                                  /\ Z.of_nat (length c) = WAYS_PER_BANK) hs cs ->
              length (concat cs) = (20 * length hs)%nat).
    { induction 1 as [|h c hs cs [_ Hl] _ IH]; [done|].
      simpl. rewrite length_app, IH. unfold WAYS_PER_BANK in Hl. lia. }
    rewrite (Hgen _ _ Hcycles). unfold LLC_BANKS in Hheads. lia. }
  apply (foldl_set_insert_full (concat cycles) []); [constructor|].
  unfold CONFLICT_SET_SIZE, LLC_BANKS, WAYS_PER_BANK in Hall. simpl length. lia.
Qed.

Lemma SanityCheckEvictionSets_is_sound_witness :
  exists u s',
    SanityCheckEvictionSets 100 sample_ring_heads sample_rings = Returned (u, s') /\
    nxt s' = nxt sample_rings /\ prv s' = prv sample_rings /\
    exists cycles,
      Forall2 (fun h c => next_cycle sample_rings h c
                          /\ Z.of_nat (length c) = WAYS_PER_BANK)
              sample_ring_heads cycles /\
      NoDup (concat cycles).
Proof.
  assert (returned (SanityCheckEvictionSets 100 sample_ring_heads sample_rings) = true)
    as Hq by (vm_compute; reflexivity).
  destruct (SanityCheckEvictionSets 100 sample_ring_heads sample_rings)
    as [[u s']| | | |] eqn:E; try discriminate Hq.
  exists u, s'. split; [reflexivity|].
  assert (Hh : Z.of_nat (length sample_ring_heads) = LLC_BANKS) by reflexivity.
  exact (SanityCheckEvictionSets_is_sound 100 sample_ring_heads sample_rings u s' Hh E).
Defined.

(** ** FindCandidates: how many candidates there are *)

Lemma candidates_of_ascending array setIndex : ascending (candidates_of array setIndex).
Proof.
  unfold candidates_of. change 512 with (Z.of_nat 512).
  apply ascending_fmap_seqZ. intros i j Hij. lia.
Qed.

Lemma candidates_of_elem array setIndex a :
  Z.land array CACHE_LINE_BITS = 0 -> 0 <= setIndex < SETS_PER_BANK ->
  a ∈ candidates_of array setIndex <->
  node_of_region array a /\
  (Z.land a SET_INDEX_BITS =? u64 (Z.shiftl setIndex NUM_CACHE_LINE_BITS)) = true.
Proof.
  intros Hal Hs. rewrite (mask_test_iff setIndex a Hs).
  change CACHE_LINE_BITS with (Z.ones 6) in Hal. rewrite Z.land_ones in Hal by lia.
  change (2 ^ 6) with 64 in Hal.
  unfold maps_to_set, node_of_region, candidates_of, SETS_PER_BANK in *.
  rewrite list_elem_of_fmap.
  change NUM_CACHE_LINE_BITS with 6. change NUM_SET_INDEX_BITS with 11.
  change (Z.shiftl 1 11) with 2048. rewrite (Z.shiftr_div_pow2 a 6) by lia.
  change (2 ^ 6) with 64. change ARRAY_ENTRIES with 1048576.
  change CACHE_LINE_SIZE with 64.
  split.
  - intros (k & -> & Hk). apply elem_of_seqZ in Hk. split.
    + exists ((setIndex - array / 64) mod 2048 + 2048 * k). split; [|lia].
      Z.div_mod_to_equations. lia.
    + Z.div_mod_to_equations. lia.
  - intros [(i & Hi & ->) Hm]. exists (i / 2048).
    rewrite elem_of_seqZ. Z.div_mod_to_equations. lia.
Qed.

Lemma FindCandidates_candidates_of array setIndex :
  Z.land array CACHE_LINE_BITS = 0 -> 0 <= setIndex < SETS_PER_BANK ->
  FindCandidates array [] setIndex = Returned (candidates_of array setIndex).
Proof.
  intros Hal Hs.
  destruct (FindCandidates_aligned array [] setIndex Hal (SSorted_nil _))
    as (l & E & Hasc & Hmem).
  rewrite E. f_equal. apply ascending_unique; [done|apply candidates_of_ascending|].
  intros a. rewrite Hmem, (candidates_of_elem array setIndex a Hal Hs), elem_of_nil. tauto.
Qed.

Lemma FindCandidates_count array setIndex :
  Z.land array CACHE_LINE_BITS = 0 -> 0 <= setIndex < SETS_PER_BANK ->
  exists candidates,
    FindCandidates array [] setIndex = Returned candidates /\
    Z.of_nat (length candidates) = ARRAY_ENTRIES / SETS_PER_BANK /\
    2 * LLC_BANKS * WAYS_PER_BANK <= Z.of_nat (length candidates) /\
    NoDup candidates.
Proof.
  intros Hal Hs. exists (candidates_of array setIndex).
  split; [by apply FindCandidates_candidates_of|].
  assert (Hlen : length (candidates_of array setIndex) = 512%nat).
  { unfold candidates_of. rewrite length_fmap, length_seqZ. reflexivity. }
  rewrite Hlen. split_and!.
  - reflexivity.
  - vm_compute. discriminate.
  - apply ascending_NoDup, candidates_of_ascending.
Qed.

(** On a line-aligned region of [ARRAY_SIZE] bytes every valid set index
    has exactly [ARRAY_ENTRIES / SETS_PER_BANK] = 512 candidates, all
    different: with the sizes of [constants.h] the count that the builder
    asserts, [2 * LLC_BANKS * WAYS_PER_BANK], is always met. *)
Theorem FindCandidates_finds_one_node_per_stride array setIndex :
  Z.land array CACHE_LINE_BITS = 0 -> 0 <= setIndex < SETS_PER_BANK ->
  exists candidates,
    FindCandidates array [] setIndex = Returned candidates /\
    Z.of_nat (length candidates) = ARRAY_ENTRIES / SETS_PER_BANK /\
    2 * LLC_BANKS * WAYS_PER_BANK <= Z.of_nat (length candidates) /\
    NoDup candidates.
Proof. exact (FindCandidates_count array setIndex). Qed.

Lemma FindCandidates_finds_one_node_per_stride_witness :
  exists candidates,
    FindCandidates region27 [] 27 = Returned candidates /\
    Z.of_nat (length candidates) = ARRAY_ENTRIES / SETS_PER_BANK /\
    2 * LLC_BANKS * WAYS_PER_BANK <= Z.of_nat (length candidates) /\
    NoDup candidates.
Proof.
  assert (H1 : Z.land region27 CACHE_LINE_BITS = 0) by reflexivity.
  assert (H2 : 0 <= 27 < SETS_PER_BANK) by (unfold SETS_PER_BANK; lia).
  exact (FindCandidates_finds_one_node_per_stride region27 27 H1 H2).
Defined.

(** ** Only the measurements make the builder fail *)

Lemma benign_bind {A B} (c : M A) (k : A -> M B) s :
  benign (c s) -> (forall a s', c s = Returned (a, s') -> benign (k a s')) ->
  benign (bind c k s).
Proof.
  unfold bind. intros Hc Hk. destruct (c s) as [[a s']| | | |]; auto.
Qed.

Lemma Probe_attempts_cases clock :
  (exists r, Probe_attempts clock = Returned r) \/
  Probe_attempts clock = ClockExhausted.
Proof.
  induction clock as [clock IH] using (induction_ltof1 _ (@length Z)).
  unfold ltof in IH. destruct clock as [|t0 [|t1 rest]]; simpl; auto.
  destruct (_ || _); [apply IH; simpl; lia|eauto].
Qed.

Lemma Probe_cases a b s :
  (exists r s', Probe a b s = Returned (r, s')) \/ Probe a b s = ClockExhausted.
Proof.
  unfold Probe, bind, Probe_time.
  destruct (Probe_attempts_cases (tsc s)) as [[[time rest] E]|E]; rewrite E; eauto.
Qed.

Lemma Probe_benign a b s : benign (Probe a b s).
Proof. destruct (Probe_cases a b s) as [(r & s' & E)|E]; rewrite E; exact I. Qed.

Lemma assert_true w s : assert w true s = Returned (tt, s).
Proof. reflexivity. Qed.

Lemma SizeOfLinkedList_ring_benign {B} s fuel l x (k : Z -> M B) :
  ring s l -> x ∈ l ->
  benign (k (Z.of_nat (length l)) s) ->
  benign (bind (SizeOfLinkedList fuel x) k s).
Proof.
  intros Hr Hx Hk. unfold bind. rewrite (SizeOfLinkedList_ring s fuel l x Hr Hx).
  case_decide; [exact Hk|exact I].
Qed.

Lemma seed_conflict_set_benign s fuel size a m1 b m2 :
  ring s ((a :: m1) ++ b :: m2) ->
  length (a :: m1) = Z.to_nat WAYS_PER_BANK ->
  size = Z.of_nat (length ((a :: m1) ++ b :: m2)) -> size < 2 ^ 64 ->
  benign (seed_conflict_set fuel size a s).
Proof.
  intros Hr Hlen Hsize Hsmall.
  pose proof (ring_split _ _ _ _ _ Hr) as [Hr1 Hr2].
  set (s1 := link (List.last m1 a) a (link (List.last m2 b) b s)) in *.
  unfold seed_conflict_set.
  assert (Hp : path s ((a :: m1) ++ [b])).
  { destruct Hr as [_ Hp]. change (path s (((a :: m1) ++ b :: m2) ++ [a])) in Hp.
    rewrite <- app_assoc in Hp. change (path s ((a :: m1) ++ b :: m2 ++ [a])) in Hp.
    by apply path_app in Hp as [Hp _]. }
  rewrite <- Hlen.
  rewrite (bind_Returned _ _ _ _ _ (advance_path _ _ _ _ Hp)).
  assert (Hpb : prv s !! b = Some (List.last m1 a)).
  { destruct (snoc_last a m1) as [l' Hl']. rewrite Hl', <- app_assoc in Hp.
    apply path_last_edge in Hp. apply Hp. }
  assert (Hpa : prv s !! a = Some (List.last m2 b)).
  { change ((a :: m1) ++ b :: m2) with (a :: (m1 ++ b :: m2)) in Hr.
    rewrite (ring_head_prev _ _ _ Hr). f_equal. apply last_app_cons. }
  rewrite (bind_Returned _ _ _ _ _ (get_prev_eq _ _ _ Hpb)).
  rewrite (bind_Returned _ _ _ _ _ (get_prev_eq _ _ _ Hpa)).
  do 4 (unfold bind at 1; simpl).
  change (Machine _ _ _) with s1.
  apply (SizeOfLinkedList_ring_benign s1 fuel (a :: m1) a); [done|left|].
  replace (Z.of_nat (length (a :: m1)) =? WAYS_PER_BANK) with true
    by (symmetry; apply Z.eqb_eq; rewrite Hlen; reflexivity).
  rewrite (bind_Returned _ _ _ _ _ (assert_true _ _)).
  apply (SizeOfLinkedList_ring_benign s1 fuel (b :: m2) b); [done|left|].
  replace (Z.of_nat (length (b :: m2)) =? u64 (size - WAYS_PER_BANK)) with true.
  - exact I.
  - symmetry. apply Z.eqb_eq. rewrite Hsize, length_app, Hlen.
    unfold u64, WAYS_PER_BANK. rewrite Z.mod_small; [lia|].
    rewrite Hsize, length_app, Hlen in Hsmall. unfold WAYS_PER_BANK in Hsmall. lia.
Qed.

Lemma warmup_benign n a b s : benign (warmup n a b s).
Proof.
  revert s. induction n as [|n IH]; intros s; simpl; [exact I|].
  apply benign_bind; [apply Probe_benign|]. intros _ s' _. apply IH.
Qed.

Lemma SanityCheckCandidates_benign c s : benign (SanityCheckCandidates c s).
Proof.
  unfold SanityCheckCandidates, average_access_time, bind, rdtsc, assert, ret, abort.
  destruct (tsc s) as [|t0 [|t1 rest]]; simpl; try exact I.
  destruct (165 <=? _); [|exact I]. destruct (_ <=? 190); exact I.
Qed.

Lemma SanityCheckConflictSet_benign c s : benign (SanityCheckConflictSet c s).
Proof.
  unfold SanityCheckConflictSet, average_access_time, bind, rdtsc, assert, ret, abort.
  destruct (tsc s) as [|t0 [|t1 rest]]; simpl; try exact I.
  destruct (_ && _); exact I.
Qed.

Lemma grow_conflict_bound n : forall clock c l c' l' clock',
  grow_conflict n clock c l = Returned (c', l', clock') ->
  Z.of_nat (length c) <= CONFLICT_SET_SIZE ->
  Z.of_nat (length c') <= CONFLICT_SET_SIZE.
Proof.
  induction n as [|n IH]; intros clock c l c' l' clock' H Hle; simpl in H.
  - destruct (_ <? CONFLICT_SET_SIZE); [discriminate|]. by injection H as <- <- <-.
  - destruct (Z.ltb_spec (Z.of_nat (length c)) CONFLICT_SET_SIZE) as [Hlt|Hge].
    2:{ by injection H as <- <- <-. }
    destruct l as [|x l]; [discriminate|].
    destruct (Probe_attempts clock) as [[time clock1]| | | |]; try discriminate.
    destruct (LLC_CYCLE_THRESHOLD <? time).
    + by apply IH in H.
    + apply IH in H; [done|]. rewrite length_app. simpl. lia.
Qed.

Lemma fill_step_cases s count h cl c prest csh total :
  fill_inv s count h cl c prest csh total ->
  (length (h :: cl) + 1 < total)%nat ->
  fill_step count h csh c s = ClockExhausted \/
  exists count' csh' c' s' cl' prest',
    fill_step count h csh c s = Returned ((count', csh', c'), s') /\
    fill_inv s' count' h cl' c' prest' csh' total.
Proof.
  intros (Hc & Hp & Hnd & Hcsh & Hcount & Htotal) Hroom.
  destruct prest as [|p1 prest].
  { rewrite length_app in Htotal. simpl in *. lia. }
  unfold fill_step.
  destruct (Probe_cases h c s) as [(miss & s0 & HP)|HP].
  2:{ left. unfold bind. by rewrite HP. }
  right. rewrite (bind_Returned _ _ _ _ _ HP).
  apply Probe_links in HP as [En Ep].
  pose proof (ring_same_links _ _ _ En Ep Hc) as Hc0.
  pose proof (ring_same_links _ _ _ En Ep Hp) as Hp0.
  destruct miss; simpl.
  - destruct (ring_head_edges _ _ _ Hp0) as [_ [Hn _]]. simpl in Hn.
    rewrite (bind_Returned _ _ _ _ _ (get_next_eq _ _ _ Hn)).
    assert (Hperm : (h :: cl) ++ p1 :: prest ++ [c] ≡ₚ (h :: cl) ++ c :: p1 :: prest).
    { apply Permutation_app_head.
      change (p1 :: prest ++ [c]) with ((p1 :: prest) ++ [c]).
      rewrite Permutation_app_comm. done. }
    exists count, csh, p1, s0, cl, (prest ++ [c]). split; [reflexivity|].
    unfold fill_inv. split_and!; auto.
    + change (ring s0 ((p1 :: prest) ++ [c])).
      apply (ring_rotate s0 [c] (p1 :: prest)); done.
    + by rewrite Hperm.
    + change (p1 :: prest ++ [c]) with ((p1 :: prest) ++ [c]).
      rewrite elem_of_app, list_elem_of_singleton.
      apply elem_of_cons in Hcsh as [->|Hcsh]; auto.
    + by rewrite (Permutation_length Hperm).
  - destruct (move_to_conflict_set_ring s0 h cl c p1 prest csh Hc0 Hp0 Hnd)
      as (s2 & Hmv & Hc2 & Hp2 & Et & _).
    rewrite (bind_Returned _ _ _ _ _ Hmv).
    assert (Hperm : (h :: cl ++ [c]) ++ p1 :: prest ≡ₚ (h :: cl) ++ c :: p1 :: prest).
    { change (h :: cl ++ [c]) with ((h :: cl) ++ [c]). by rewrite <- app_assoc. }
    exists (count + 1), (if c =? csh then p1 else csh), p1, s2, (cl ++ [c]), prest.
    split; [reflexivity|]. unfold fill_inv. split_and!; auto.
    + by rewrite Hperm.
    + destruct (Z.eqb_spec c csh) as [->|Hne]; [left|].
      apply elem_of_cons in Hcsh as [->|Hcsh]; done.
    + rewrite Hcount. simpl. rewrite length_app. simpl. lia.
    + by rewrite (Permutation_length Hperm).
Qed.

Lemma fill_conflict_set_benign n : forall s count h cl c prest csh total,
  fill_inv s count h cl c prest csh total ->
  CONFLICT_SET_SIZE < Z.of_nat total ->
  benign (fill_conflict_set n count h csh c s).
Proof.
  induction n as [|n IH]; intros s count h cl c prest csh total Hinv Htotal; simpl.
  - destruct (_ <? CONFLICT_SET_SIZE); exact I.
  - destruct (Z.ltb_spec count CONFLICT_SET_SIZE) as [Hlt|Hge]; [|exact I].
    destruct (fill_step_cases s count h cl c prest csh total Hinv)
      as [E|(count' & csh' & c' & s' & cl' & prest' & E & Hinv')].
    { destruct Hinv as (_ & _ & _ & _ & -> & _). lia. }
    + unfold bind. by rewrite E.
    + rewrite (bind_Returned _ _ _ _ _ E). by apply (IH s' count' h cl' c' prest' csh' total).
Qed.

Lemma construct_conflict_set_benign fuel size s a L :
  ring s (a :: L) ->
  size = Z.of_nat (length (a :: L)) ->
  2 * LLC_BANKS * WAYS_PER_BANK <= size -> size < 2 ^ 64 ->
  benign (construct_conflict_set fuel size a s).
Proof.
  intros Hr Hsize Hbig Hsmall.
  assert (Hlen : (480 <= length (a :: L))%nat).
  { unfold LLC_BANKS, WAYS_PER_BANK in Hbig. lia. }
  pose proof (take_drop (Z.to_nat WAYS_PER_BANK) (a :: L)) as Hsplit.
  assert (Htake : length (take (Z.to_nat WAYS_PER_BANK) (a :: L)) = 20%nat).
  { rewrite length_take, WAYS_PER_BANK_nat. lia. }
  assert (Hdrop : length (drop (Z.to_nat WAYS_PER_BANK) (a :: L))
                  = (length (a :: L) - 20)%nat).
  { rewrite length_drop, WAYS_PER_BANK_nat. lia. }
  destruct (take (Z.to_nat WAYS_PER_BANK) (a :: L)) as [|a' m1] eqn:Et;
    [simpl in Htake, Hlen; lia|].
  assert (a' = a) as -> by (rewrite WAYS_PER_BANK_nat in Et; simpl in Et; congruence).
  destruct (drop (Z.to_nat WAYS_PER_BANK) (a :: L)) as [|b m2] eqn:Ed;
    [simpl in Hdrop, Hlen; lia|].
  rewrite <- Hsplit in Hr.
  pose proof (ring_split _ _ _ _ _ Hr) as [Hr1 Hr2].
  assert (Htot : length ((a :: m1) ++ b :: m2) = length (a :: L)) by (by rewrite Hsplit).
  unfold construct_conflict_set.
  apply benign_bind.
  { apply (seed_conflict_set_benign s fuel size a m1 b m2); auto.
    by rewrite Htot. }
  intros ch0 s1 Hseed.
  apply seed_conflict_set_inv with (m1 := m1) (b := b) (m2 := m2) in Hseed
    as [-> ->]; [|exact Hr|by rewrite Htake].
  set (s1 := link _ _ _) in *.
  apply benign_bind; [apply warmup_benign|].
  intros u s2 Hw. apply warmup_inv in Hw as (En & Ep & _).
  assert (Hinv : fill_inv s2 WAYS_PER_BANK a m1 b m2 b (length (a :: L))).
  { unfold fill_inv. split_and!.
    - eapply ring_same_links; eauto.
    - eapply ring_same_links; eauto.
    - by apply ring_NoDup in Hr.
    - left.
    - unfold WAYS_PER_BANK. simpl in Htake |- *. lia.
    - exact Htot. }
  assert (Htotal : CONFLICT_SET_SIZE < Z.of_nat (length (a :: L))).
  { unfold CONFLICT_SET_SIZE, LLC_BANKS, WAYS_PER_BANK. lia. }
  apply benign_bind.
  { by apply (fill_conflict_set_benign fuel s2 WAYS_PER_BANK a m1 b m2 b (length (a :: L))). }
  intros ch1 s3 Hfill.
  destruct Hinv as (Hc2 & Hp2 & Hnd2 & Hcsh2 & Hcount2 & Htot2).
  eapply fill_conflict_set_refines with (cl := m1) (prest := m2) in Hfill
    as (conflict & leftover & Hg & Hc3 & Hp3 & Hnd3 & Hin3 & Hch3 & Hperm3 & Hfull);
    [|exact Hc2|exact Hp2|exact Hnd2|exact Hcsh2|exact Hcount2|by rewrite Htot2].
  apply grow_conflict_bound in Hg; [|rewrite Htake; vm_compute; discriminate].
  assert (Hl240 : Z.of_nat (length conflict) = CONFLICT_SET_SIZE) by lia.
  assert (Hlrest : Z.of_nat (length leftover) = size - CONFLICT_SET_SIZE).
  { apply Permutation_length in Hperm3. rewrite Htot, length_app in Hperm3. lia. }
  apply (SizeOfLinkedList_ring_benign s3 fuel conflict a); [done|done|].
  rewrite Hl240, Z.eqb_refl, (bind_Returned _ _ _ _ _ (assert_true _ _)).
  apply benign_bind; [apply SanityCheckConflictSet_benign|].
  intros u2 s4 Hsan. apply SanityCheckConflictSet_inv in Hsan as (En4 & Ep4 & _).
  assert (Hp4 : ring s4 leftover) by (eapply ring_same_links; eauto).
  apply (SizeOfLinkedList_ring_benign s4 fuel leftover ch1); [done|done|].
  replace (Z.of_nat (length leftover) =? u64 (size - CONFLICT_SET_SIZE)) with true;
    [exact I|].
  symmetry. apply Z.eqb_eq. rewrite Hlrest. unfold u64. rewrite Z.mod_small; [done|].
  unfold CONFLICT_SET_SIZE, LLC_BANKS, WAYS_PER_BANK in *. lia.
Qed.

Section Safety.

Variable random_shuffle : list nat -> list nat.
Hypothesis random_shuffle_permutes : forall l, random_shuffle l ≡ₚ l.

Lemma build_conflict_set_benign fuel candidates s :
  NoDup candidates ->
  2 * LLC_BANKS * WAYS_PER_BANK <= Z.of_nat (length candidates) ->
  Z.of_nat (length candidates) < 2 ^ 64 ->
  benign (build_conflict_set random_shuffle fuel candidates s).
Proof.
  intros Hnd Hbig Hsmall.
  assert (Hne : candidates <> []).
  { intros ->. unfold LLC_BANKS, WAYS_PER_BANK in Hbig. simpl in Hbig. lia. }
  destruct (RandomizeLinkedList_ring random_shuffle candidates s)
    as (s1 & L & Hrun & Hr & Hperm & Et); auto.
  unfold build_conflict_set.
  rewrite (bind_Returned _ _ _ _ _ Hrun).
  destruct candidates as [|first rest] eqn:Ec; [done|].
  unfold set_begin. unfold bind at 1.
  assert (Hfirst : first ∈ L) by (rewrite Hperm; left).
  apply (SizeOfLinkedList_ring_benign s1 fuel L first); [done|done|].
  rewrite (Permutation_length Hperm), Z.eqb_refl,
    (bind_Returned _ _ _ _ _ (assert_true _ _)).
  apply benign_bind; [apply SanityCheckCandidates_benign|].
  intros u s2 Hsan. apply SanityCheckCandidates_inv in Hsan as (En & Ep & _).
  pose proof (ring_same_links _ _ _ En Ep Hr) as Hr2.
  destruct (ring_at _ _ _ Hr2 Hfirst) as (l1 & l2 & EL & Hr2').
  assert (HpL : L ≡ₚ first :: l2 ++ l1).
  { rewrite EL. symmetry. apply Permutation_cons_app, Permutation_app_comm. }
  assert (Hlen : length (first :: l2 ++ l1) = length (first :: rest)).
  { rewrite <- (Permutation_length HpL). by apply Permutation_length. }
  apply (construct_conflict_set_benign fuel _ s2 first (l2 ++ l1)); auto.
Qed.

End Safety.

Lemma bind_ClockExhausted {A B} (c : M A) (k : A -> M B) s :
  c s = ClockExhausted -> bind c k s = ClockExhausted.
Proof. unfold bind. by intros ->. Qed.

Lemma bind_set_next {B} n v (k : unit -> M B) s :
  bind (set_next n v) k s = k tt (Machine (<[n := v]> (nxt s)) (prv s) (tsc s)).
Proof. reflexivity. Qed.

Lemma bind_set_prev {B} n v (k : unit -> M B) s :
  bind (set_prev n v) k s = k tt (Machine (nxt s) (<[n := v]> (prv s)) (tsc s)).
Proof. reflexivity. Qed.

Lemma get_next_defined x s :
  is_Some (nxt s !! x) -> exists v, get_next x s = Returned (v, s).
Proof. intros [v Hv]. exists v. by apply get_next_eq. Qed.

Lemma get_prev_defined x s :
  is_Some (prv s !! x) -> exists v, get_prev x s = Returned (v, s).
Proof. intros [v Hv]. exists v. by apply get_prev_eq. Qed.

Lemma drop_candidate_benign s c rest :
  ring s (c :: rest) -> benign (drop_candidate c s).
Proof.
  intros Hr. destruct rest as [|a l].
  - pose proof (ring_head_next _ _ _ Hr) as Hn. simpl in Hn.
    by rewrite (drop_candidate_last _ _ Hn).
  - destruct (ring_drop_head _ _ _ _ Hr) as [E _]. by rewrite E.
Qed.

Lemma confirm_benign i : forall s csh c rest,
  ring s (c :: rest) -> benign (confirm i csh c s).
Proof.
  induction i as [|i IH]; intros s csh c rest Hr; simpl; [exact I|].
  apply benign_bind; [apply Probe_benign|]. intros miss s0 HP.
  apply Probe_links in HP as [En Ep].
  pose proof (ring_same_links _ _ _ En Ep Hr) as Hr0.
  destruct miss; simpl.
  - by apply (IH s0 csh c rest).
  - apply benign_bind; [by apply (drop_candidate_benign s0 c rest)|].
    intros; exact I.
Qed.

Lemma drop_hits_benign m : forall s csh c rest miss,
  ring s (c :: rest) -> benign (drop_hits m csh c miss s).
Proof.
  induction m as [|m IH]; intros s csh c rest miss Hr; simpl.
  - destruct miss; exact I.
  - destruct miss; simpl; [exact I|].
    apply benign_bind; [by apply (drop_candidate_benign s c rest)|].
    intros c2 s1 Hd.
    apply drop_candidate_ring with (rest := rest) in Hd
      as (kept & -> & Hr1 & _ & _); [|done].
    apply benign_bind; [apply Probe_benign|]. intros miss2 s2 HP.
    apply Probe_links in HP as [En Ep].
    apply (IH s2 csh c2 kept). eapply ring_same_links; eauto.
Qed.

Lemma find_witness_benign n : forall fuel s csh c rest,
  ring s (c :: rest) -> benign (find_witness n fuel csh c s).
Proof.
  induction n as [|n IH]; intros fuel s csh c rest Hr; [exact I|].
  cbn [find_witness].
  apply benign_bind; [apply Probe_benign|]. intros miss s0 HP.
  apply Probe_links in HP as [En Ep].
  pose proof (ring_same_links _ _ _ En Ep Hr) as Hr0.
  apply benign_bind; [by apply (drop_hits_benign fuel s0 csh c rest)|].
  intros c1 s1 Hd.
  apply drop_hits_inv with (rest := rest) in Hd
    as (dropped & kept & _ & Hr1 & _ & _); [|done].
  apply benign_bind; [by apply (confirm_benign 100 s1 csh c1 kept)|].
  intros [found c2] s2 Hc.
  apply confirm_inv with (rest := kept) in Hc as [_ Hc]; [|done].
  destruct found; [exact I|].
  destruct Hc as (kept2 & -> & Hr2 & _). by apply (IH fuel s2 csh c2 kept2).
Qed.

Lemma ring_fields s conf t :
  ring s conf -> t ∈ conf -> is_Some (nxt s !! t) /\ is_Some (prv s !! t).
Proof.
  intros Hr Ht. destruct (ring_at _ _ _ Hr Ht) as (l1 & l2 & _ & Hr').
  destruct (ring_head_edges _ _ _ Hr') as [[_ Hp] [Hn _]]. eauto.
Qed.

Lemma test_node_benign s conf candidate t ev :
  ring s conf -> t ∈ conf -> benign (test_node candidate t ev s).
Proof.
  intros Hr Ht. destruct (ring_fields s conf t Hr Ht) as [[n Hn] [p Hp]].
  unfold test_node.
  rewrite (bind_Returned _ _ _ _ _ (unlink_eq _ _ _ _ Hn Hp)).
  rewrite (bind_Returned _ _ _ _ _ (get_next_eq _ _ _ (link_next_self _ _ p _ Hn))).
  destruct (Probe_cases n candidate (link p n s)) as [(miss & s1 & HP)|HP].
  2:{ by rewrite (bind_ClockExhausted _ _ _ HP). }
  rewrite (bind_Returned _ _ _ _ _ HP). apply Probe_links in HP as [En Ep].
  assert (Hp1 : is_Some (prv s1 !! t)).
  { rewrite Ep. simpl. apply lookup_insert_is_Some'. right. eauto. }
  destruct (get_prev_defined _ _ Hp1) as [p1 E1].
  rewrite (bind_Returned _ _ _ _ _ E1), bind_set_next.
  assert (Hn1 : is_Some (nxt s1 !! t)).
  { rewrite En. simpl. apply lookup_insert_is_Some'. right. eauto. }
  match goal with |- benign (bind (get_next t) _ ?st) =>
    assert (Hn2 : is_Some (nxt st !! t))
      by (simpl; apply lookup_insert_is_Some'; by right);
    destruct (get_next_defined _ _ Hn2) as [n2 E2];
    rewrite (bind_Returned _ _ _ _ _ E2), bind_set_prev
  end.
  match goal with |- benign (bind (get_next t) _ ?st) =>
    assert (Hn3 : is_Some (nxt st !! t))
      by (simpl; apply lookup_insert_is_Some'; by right);
    destruct (get_next_defined _ _ Hn3) as [n3 E3];
    rewrite (bind_Returned _ _ _ _ _ E3)
  end.
  exact I.
Qed.

Lemma isolate_slice_benign n : forall s conf candidate t marked,
  ring s conf -> t ∈ conf ->
  benign (isolate_slice n candidate t marked s).
Proof.
  induction n as [|n IH]; intros s conf candidate t marked Hr Ht; simpl.
  - destruct (_ <? WAYS_PER_BANK); exact I.
  - destruct (_ <? WAYS_PER_BANK); [|exact I]. case_bool_decide as Hmarked.
    + destruct (ring_fields s conf t Hr Ht) as [[nx Hn] _].
      rewrite (bind_Returned _ _ _ _ _ (get_next_eq _ _ _ Hn)).
      apply (IH s conf); [done|]. eapply ring_next_elem; eauto.
    + apply benign_bind; [by apply (test_node_benign s conf)|].
      intros [marked' t'] s1 Htest.
      destruct (test_node_inv _ _ _ _ _ _ _ Hr Ht Htest)
        as (nx & p & miss & s0 & Hn & Hp & Hu & HP & -> & Er).
      injection Er as -> ->.
      apply (IH _ conf).
      * eapply ring_same_links; [| |exact Hr]; reflexivity.
      * eapply ring_next_elem; eauto.
Qed.

Lemma partition_round_benign fuel s conf0 csh cand heads conf pool evs :
  partition_inv s conf0 csh cand heads conf pool evs ->
  (length heads < 11)%nat ->
  benign (partition_round fuel csh cand s).
Proof.
  intros (Hc & Hcsh & Hp & [prest ->] & Hevs & Hheads & Hnd & Hperm & Hsize) Hlt.
  pose proof (Forall2_length _ _ _ Hheads) as Hlen.
  apply NoDup_app in Hnd as (Hndp & Hdisj & Hnd).
  assert (D1 : forall x, x ∈ cand :: prest -> x ∉ conf).
  { intros x Hx Hin. apply (Hdisj x Hx). apply elem_of_app. by left. }
  unfold partition_round.
  apply benign_bind; [by apply (find_witness_benign fuel fuel s csh cand prest)|].
  intros w s1 Hfw.
  apply find_witness_refines with (rest := prest) in Hfw
    as (dropped & kept & Hsplit & Hp1 & Hf1 & _); [|exact Hp].
  assert (Hsubp : forall x, x ∈ w :: kept -> x ∈ cand :: prest).
  { intros x Hx. rewrite Hsplit. apply elem_of_app. by right. }
  assert (Hc1 : ring s1 conf).
  { eapply ring_frame; [exact Hc|exact Hf1| |]; intros x Hx Hin; by apply (D1 x). }
  apply benign_bind; [by apply (isolate_slice_benign fuel s1 conf)|].
  intros marked s2 Hiso.
  apply isolate_slice_inv with (conf := conf) in Hiso
    as (En & Ep & Hasc & Hsubm & Hlenm); auto.
  2:{ intros x Hx. by apply elem_of_nil in Hx. }
  2:{ constructor. }
  2:{ unfold WAYS_PER_BANK. simpl. lia. }
  assert (Hc2 : ring s2 conf) by (eapply ring_same_links; eauto).
  assert (Hp2 : ring s2 (w :: kept)) by (eapply ring_same_links; eauto).
  unfold WAYS_PER_BANK in Hlenm.
  destruct marked as [|e' mrest]; [simpl in Hlenm; lia|].
  destruct (splice_out_spec s2 conf csh e' mrest Hc2 Hcsh)
    as (csh2 & s3 & conf' & Hrun & Hc3 & He3 & Hcsh3 & Hperm3 & Et3 & Hf3).
  { by apply ascending_NoDup. }
  { exact Hsubm. }
  { lia. }
  rewrite (bind_Returned _ _ _ _ _ Hrun).
  assert (Hp3 : ring s3 (w :: kept)).
  { eapply ring_frame; [exact Hp2|exact Hf3| |]; intros x Hx Hin;
      apply (D1 x); auto. }
  apply benign_bind; [by apply (drop_candidate_benign s3 w kept)|].
  intros; exact I.
Qed.

Lemma partition_benign n : forall fuel s conf0 csh cand heads conf pool evs,
  partition_inv s conf0 csh cand heads conf pool evs ->
  (length heads <= 11)%nat ->
  benign (partition n fuel heads csh cand s).
Proof.
  induction n as [|n IH]; intros fuel s conf0 csh cand heads conf pool evs Hinv Hle;
    simpl.
  - destruct (_ <? _); exact I.
  - destruct (Z.ltb_spec (Z.of_nat (length heads)) (LLC_BANKS - 1)) as [E|E];
      [|exact I].
    unfold LLC_BANKS in E.
    apply benign_bind.
    { apply (partition_round_benign fuel s conf0 csh cand heads conf pool evs);
        [done|lia]. }
    intros [[e csh1] cand1] s1 Hround.
    eapply partition_round_inv in Hround as (conf1 & pool1 & ev & Hinv1);
      [|exact Hinv|lia].
    eapply IH; [exact Hinv1|]. rewrite length_app. simpl. lia.
Qed.

Lemma walk_eviction_set_path_cases s head : forall rest n node allNodes size,
  path s (node :: rest ++ [head]) -> head ∉ node :: rest ->
  walk_eviction_set n head node allNodes size s
  = if decide (length rest < n)%nat
    then Returned ((foldl (fun acc x => set_insert x acc) allNodes (node :: rest),
                    size + Z.of_nat (S (length rest))), s)
    else OutOfFuel.
Proof.
  intros rest n node allNodes size H Hn.
  destruct (decide (length rest < n)%nat) as [Hlt|Hge].
  - by apply walk_eviction_set_path.
  - revert rest node allNodes size H Hn Hge.
    induction n as [|n IH]; intros rest node allNodes size H Hn Hge.
    + simpl. replace (node =? head) with false; [done|].
      symmetry. apply Z.eqb_neq. intros ->. apply Hn. left.
    + destruct rest as [|b rest]; [simpl in Hge; lia|].
      change (path s (node :: b :: rest ++ [head])) in H. rewrite path_cons2 in H.
      destruct H as [[H _] Hp]. simpl.
      replace (node =? head) with false
        by (symmetry; apply Z.eqb_neq; intros ->; apply Hn; left).
      rewrite (bind_Returned _ _ _ _ _ (get_next_eq _ _ _ H)).
      apply (IH rest b); [done| |simpl in Hge; lia]. intros Hin. apply Hn. by right.
Qed.

Lemma check_sizes_rings fuel s : forall heads rings allNodes,
  Forall2 (fun h r => h ∈ r /\ ring s r /\ length r = 20%nat) heads rings ->
  check_sizes fuel heads allNodes s = OutOfFuel \/
  exists all,
    check_sizes fuel heads allNodes s = Returned (all, s) /\
    (forall x, x ∈ all <-> x ∈ allNodes \/ x ∈ concat rings) /\
    (ascending allNodes -> ascending all).
Proof.
  intros heads rings allNodes HF. revert allNodes.
  induction HF as [|h r heads rings (Hh & Hr & Hl) _ IH]; intros allNodes.
  - right. exists allNodes. simpl. split_and!; auto.
    intros x. rewrite elem_of_nil. tauto.
  - destruct (ring_at _ _ _ Hr Hh) as (l1 & l2 & -> & Hr').
    assert (Hmem : forall x, x ∈ l1 ++ h :: l2 <-> x ∈ h :: l2 ++ l1).
    { intros x. rewrite elem_of_app, !elem_of_cons, elem_of_app. tauto. }
    assert (Hl' : length (h :: l2 ++ l1) = 20%nat).
    { rewrite length_app in Hl. simpl in *. rewrite length_app. lia. }
    destruct (l2 ++ l1) as [|y l] eqn:El; [simpl in Hl'; lia|].
    destruct (ring_head_edges _ _ _ Hr') as [_ [Hn _]]. simpl in Hn.
    pose proof (ring_NoDup _ _ Hr') as Hnd. apply NoDup_cons in Hnd as [Hnin _].
    destruct Hr' as [_ Hp]. simpl in Hp. destruct Hp as [_ Hp].
    assert (Estep : check_sizes fuel (h :: heads) allNodes s
                    = if decide (length l < fuel)%nat
                      then check_sizes fuel heads
                             (foldl (fun acc x => set_insert x acc)
                                    (set_insert h allNodes) (y :: l)) s
                      else OutOfFuel).
    { cbn [check_sizes].
      rewrite (bind_Returned _ _ _ _ _ (get_next_eq _ _ _ Hn)).
      unfold bind at 1.
      rewrite (walk_eviction_set_path_cases s h l fuel y _ 1 Hp Hnin).
      case_decide; [|done].
      replace (1 + Z.of_nat (S (length l)) =? WAYS_PER_BANK) with true
        by (symmetry; apply Z.eqb_eq; unfold WAYS_PER_BANK; simpl in Hl'; lia).
      by rewrite (bind_Returned _ _ _ _ _ (assert_true _ _)). }
    rewrite Estep. case_decide; [|by left].
    destruct (IH (foldl (fun acc x => set_insert x acc)
                        (set_insert h allNodes) (y :: l)))
      as [E|(all & E & Hall & Hasc)]; [by left|].
    right. exists all. split; [exact E|]. split.
    + intros x. rewrite Hall, foldl_set_insert_elem, set_insert_elem.
      simpl concat. rewrite elem_of_app, Hmem, !elem_of_cons. tauto.
    + intros Ha. apply Hasc. apply foldl_set_insert_ascending.
      by apply set_insert_ascending.
Qed.

Lemma check_times_benign heads : forall s, benign (check_times heads s).
Proof.
  induction heads as [|h heads IH]; intros s; simpl; [exact I|].
  apply benign_bind.
  { unfold average_access_time, bind, rdtsc, ret.
    destruct (tsc s) as [|t0 [|t1 rest]]; exact I. }
  intros time s1 _. apply benign_bind; [|intros; apply IH].
  unfold assert, ret, abort. destruct (_ && _); exact I.
Qed.

Lemma SanityCheckEvictionSets_benign fuel heads rings s :
  Forall2 (fun h r => h ∈ r /\ ring s r /\ length r = 20%nat) heads rings ->
  NoDup (concat rings) -> length heads = 12%nat ->
  benign (SanityCheckEvictionSets fuel heads s).
Proof.
  intros HF Hnd Hlen. unfold SanityCheckEvictionSets.
  destruct (check_sizes_rings fuel s heads rings [] HF)
    as [E|(all & E & Hall & Hasc)].
  { unfold bind. by rewrite E. }
  rewrite (bind_Returned _ _ _ _ _ E).
  assert (Hperm : all ≡ₚ concat rings).
  { apply NoDup_Permutation; [apply ascending_NoDup, Hasc; constructor|done|].
    intros x. rewrite Hall, elem_of_nil. tauto. }
  assert (Hcount : length (concat rings) = 240%nat).
  { assert (Hgen : forall hs rs,
              Forall2 (fun h r => h ∈ r /\ ring s r /\ length r = 20%nat) hs rs ->
              length (concat rs) = (20 * length hs)%nat).
    { induction 1 as [|h r hs rs (_ & _ & Hl) _ IH]; [done|].
      simpl. rewrite length_app, IH, Hl. lia. }
    rewrite (Hgen _ _ HF), Hlen. reflexivity. }
  rewrite (Permutation_length Hperm), Hcount.
  change (Z.of_nat 240 =? CONFLICT_SET_SIZE) with true.
  rewrite (bind_Returned _ _ _ _ _ (assert_true _ _)).
  apply check_times_benign.
Qed.

Lemma partition_conflict_set_benign fuel s conf pool csh ch :
  ring s conf -> ring s pool -> NoDup (conf ++ pool) ->
  csh ∈ conf -> ch ∈ pool -> length conf = 240%nat ->
  benign (partition_conflict_set fuel csh ch s).
Proof.
  intros Hc Hp Hnd Hcsh Hch Hlen.
  destruct (ring_at _ _ _ Hp Hch) as (l1 & l2 & Epool & Hp').
  assert (Hpp : pool ≡ₚ ch :: l2 ++ l1).
  { rewrite Epool. symmetry. apply Permutation_cons_app, Permutation_app_comm. }
  assert (Hinv : partition_inv s conf csh ch [] conf (ch :: l2 ++ l1) []).
  { unfold partition_inv. split_and!; auto.
    - by exists (l2 ++ l1).
    - intros r Hr. by apply elem_of_nil in Hr.
    - change (concat []) with (@nil Z). rewrite app_nil_r, <- Hpp.
      by rewrite Permutation_app_comm.
    - simpl. lia. }
  unfold partition_conflict_set.
  apply benign_bind.
  { eapply partition_benign; [exact Hinv|simpl; lia]. }
  intros [heads1 csh1] s1 Hpart.
  eapply partition_loop_inv in Hpart
    as (cand' & conf' & pool' & evs' & Hinv' & Hlen'); [|exact Hinv|simpl; lia].
  destruct Hinv' as (Hc' & Hcsh' & Hp1 & _ & Hevs & Hheads & Hnd' & Hperm & Hsize).
  pose proof (Forall2_length _ _ _ Hheads) as Hl.
  apply benign_bind; [|intros; exact I].
  apply (SanityCheckEvictionSets_benign fuel _ (evs' ++ [conf'])).
  - apply Forall2_app.
    + apply Forall2_same_length_lookup. split; [done|].
      intros i h r Hi Hri. split_and!.
      * by eapply Forall2_lookup_lr in Hheads.
      * apply Hevs. by eapply list_elem_of_lookup_2.
      * apply Hevs. by eapply list_elem_of_lookup_2.
    + constructor; [|constructor]. split_and!; auto. lia.
  - rewrite concat_app. simpl. rewrite app_nil_r.
    apply NoDup_app in Hnd' as (_ & _ & Hnd').
    by rewrite Permutation_app_comm.
  - rewrite length_app. simpl. lia.
Qed.

Section SafetyOfTheBuilder.

Variable random_shuffle : list nat -> list nat.
Hypothesis random_shuffle_permutes : forall l, random_shuffle l ≡ₚ l.

Lemma GetEvictionSet_benign fuel region setIndex s :
  Z.land region CACHE_LINE_BITS = 0 -> 0 <= setIndex < SETS_PER_BANK ->
  benign (GetEvictionSet random_shuffle fuel 0 region setIndex s).
Proof.
  intros Hal Hs. unfold GetEvictionSet.
  change (0 =? 0) with true.
  replace (setIndex <? SETS_PER_BANK) with true by (symmetry; apply Z.ltb_lt; lia).
  rewrite !(bind_Returned _ _ _ _ _ (assert_true _ _)).
  destruct (FindCandidates_count region setIndex Hal Hs)
    as (candidates & Hfc & Hlen & Hbig & Hnd).
  unfold bind at 1, lift. rewrite Hfc. clear Hfc.
  replace (2 * LLC_BANKS * WAYS_PER_BANK <=? Z.of_nat (length candidates)) with true
    by (symmetry; by apply Z.leb_le).
  rewrite (bind_Returned _ _ _ _ _ (assert_true _ _)).
  assert (Hsmall : Z.of_nat (length candidates) < 2 ^ 64).
  { rewrite Hlen. vm_compute. reflexivity. }
  apply benign_bind.
  { by apply build_conflict_set_benign. }
  intros [csh ch] s1 Hb.
  apply (build_conflict_set_inv random_shuffle random_shuffle_permutes) in Hb
    as (conflict & leftover & Hc & Hp & Hnd' & Hperm & Hcsh & Hch & Hlc & Hll);
    [|done|done].
  apply (partition_conflict_set_benign fuel s1 conflict leftover); auto.
  unfold CONFLICT_SET_SIZE, LLC_BANKS, WAYS_PER_BANK in Hlc. lia.
Qed.

(** Called as its interface asks (null [*array], valid set index) on a
    line-aligned region, the builder fails no assertion on the shape of its
    lists, and its list surgery and counting loops read no [next] or [prev]
    field that was not written (the timed traversals are represented by
    their counter readings): a run that aborts does so on a measured time
    ([CandidatesMissToDRAM], [ConflictSetHitsLLC], [EvictionSetHitsLLC]) or
    because the leftover pool ran out of candidates
    ([OtherCandidatesLeft]). *)
Theorem GetEvictionSet_fails_only_on_measurements fuel region setIndex s :
  Z.land region CACHE_LINE_BITS = 0 -> 0 <= setIndex < SETS_PER_BANK ->
  GetEvictionSet random_shuffle fuel 0 region setIndex s <> Undefined /\
  forall w,
    GetEvictionSet random_shuffle fuel 0 region setIndex s = Aborted w ->
    w = CandidatesMissToDRAM \/ w = ConflictSetHitsLLC \/
    w = OtherCandidatesLeft \/ w = EvictionSetHitsLLC.
Proof.
  intros Hal Hs. pose proof (GetEvictionSet_benign fuel region setIndex s Hal Hs) as HB.
  remember (GetEvictionSet random_shuffle fuel 0 region setIndex s) as r eqn:E.
  clear E. split.
  - intros ->. exact HB.
  - intros w ->. destruct w; simpl in HB; auto; contradiction.
Qed.

(** Every node of every ring that the builder returns is a node of the
    region that maps to the requested cache set. *)
Theorem eviction_sets_lie_in_the_target_set
    fuel array region setIndex s heads s' :
  0 <= setIndex ->
  GetEvictionSet random_shuffle fuel array region setIndex s = Returned (heads, s') ->
  exists rings : list (list Z),
    Forall2 (fun h r => h ∈ r /\ ring s' r) heads rings /\
    forall r x, r ∈ rings -> x ∈ r ->
      node_of_region region x /\ maps_to_set setIndex x.
Proof.
  intros Hpos H.
  destruct (GetEvictionSet_rings random_shuffle random_shuffle_permutes
              _ _ _ _ _ _ _ H)
    as (candidates & csh & ch & s1 & conflict & rings & Hfc & _ & _ & _ & _ &
        Hsub & _ & _ & Hheads & Hrings & _ & Hperm).
  assert (Hvalid : setIndex < SETS_PER_BANK).
  { unfold GetEvictionSet in H.
    apply bind_inv in H as (u1 & s2 & Ha & H). apply assert_inv in Ha as [_ ->].
    apply bind_inv in H as (u2 & s2 & Ha & _). apply assert_inv in Ha as [Hv _].
    by apply Z.ltb_lt in Hv. }
  clear H.
  assert (Hal : Z.land region CACHE_LINE_BITS = 0).
  { destruct (decide (Z.land region CACHE_LINE_BITS = 0)) as [Hal|Hal]; [done|].
    rewrite (FindCandidates_unaligned region [] setIndex Hal) in Hfc. discriminate Hfc. }
  destruct (FindCandidates_aligned region [] setIndex Hal (SSorted_nil _))
    as (l & El & _ & Hmem).
  rewrite El in Hfc. injection Hfc as <-. clear El.
  exists rings. split.
  - apply Forall2_same_length_lookup. split; [by eapply Forall2_length|].
    intros i h r Hi Hri. split.
    + by eapply Forall2_lookup_lr in Hheads.
    + apply Hrings. by eapply list_elem_of_lookup_2.
  - intros r x Hr Hx.
    assert (Hxc : x ∈ conflict).
    { rewrite <- Hperm. apply elem_of_concat. eauto. }
    apply Hsub, Hmem in Hxc as [Hxc|[Hnode Hmask]]; [by apply elem_of_nil in Hxc|].
    split; [done|]. apply mask_test_iff; [lia|done].
Qed.

End SafetyOfTheBuilder.

Lemma GetEvictionSet_fails_only_on_measurements_witness :
  GetEvictionSet (@rev nat) 1000 0 region27 27 cached_machine
  = Aborted CandidatesMissToDRAM /\
  GetEvictionSet (@rev nat) 1000 0 region27 27 cached_machine <> Undefined /\
  forall w,
    GetEvictionSet (@rev nat) 1000 0 region27 27 cached_machine = Aborted w ->
    w = CandidatesMissToDRAM \/ w = ConflictSetHitsLLC \/
    w = OtherCandidatesLeft \/ w = EvictionSetHitsLLC.
Proof.
  split.
  - rewrite GetEvictionSet_after_enumeration. vm_compute. reflexivity.
  - assert (H1 : Z.land region27 CACHE_LINE_BITS = 0) by reflexivity.
    assert (H2 : 0 <= 27 < SETS_PER_BANK) by (unfold SETS_PER_BANK; lia).
    exact (GetEvictionSet_fails_only_on_measurements (@rev nat) rev_permutes
             1000 region27 27 cached_machine H1 H2).
Defined.

Lemma eviction_sets_lie_in_the_target_set_witness :
  exists heads s',
    GetEvictionSet (@rev nat) 1000 0 region27 27 quiet_machine = Returned (heads, s') /\
    exists rings : list (list Z),
      Forall2 (fun h r => h ∈ r /\ ring s' r) heads rings /\
      forall r x, r ∈ rings -> x ∈ r ->
        node_of_region region27 x /\ maps_to_set 27 x.
Proof.
  pose proof quiet_run_returns as Hq.
  destruct (GetEvictionSet (@rev nat) 1000 0 region27 27 quiet_machine)
    as [[heads s']| | | |] eqn:E; try discriminate Hq.
  exists heads, s'. split; [reflexivity|].
  assert (H0 : 0 <= 27) by lia.
  exact (eviction_sets_lie_in_the_target_set (@rev nat) rev_permutes
           1000 0 region27 27 quiet_machine heads s' H0 E).
Defined.

(** ** Unlinking *)

(** The two stores that take a node out of its list give the same state in
    either order. On a ring of at least two nodes they leave the ring of the
    other nodes, and the node itself still points at its former
    neighbours. *)
Theorem unlink_takes_the_node_out s c a l :
  ring s (c :: a :: l) ->
  let s' := link (List.last l a) a s in
  unlink c s = Returned (tt, s') /\ unlink_rev c s = Returned (tt, s') /\
  ring s' (a :: l) /\
  nxt s' !! c = Some a /\ prv s' !! c = Some (List.last l a).
Proof.
  intros Hr s'. destruct (ring_head_edges _ _ _ Hr) as [[_ Hp] [Hn _]].
  simpl in Hn. rewrite last_cons_default in Hp.
  destruct (ring_drop_head _ _ _ _ Hr) as [_ Hr'].
  apply ring_NoDup, NoDup_cons in Hr as [Hnin _].
  split_and!.
  - by apply unlink_eq.
  - by apply unlink_rev_eq.
  - exact Hr'.
  - unfold s'. simpl. rewrite lookup_insert_ne; [done|].
    intros E. apply Hnin. rewrite <- E. apply last_elem_of.
  - unfold s'. simpl. rewrite lookup_insert_ne; [done|].
    intros ->. apply Hnin. left.
Qed.

Lemma unlink_takes_the_node_out_witness :
  let s' := link 192 128 small_pool in
  unlink 64 small_pool = Returned (tt, s') /\
  unlink_rev 64 small_pool = Returned (tt, s') /\
  ring s' [128; 192] /\
  nxt s' !! 64 = Some 128 /\ prv s' !! 64 = Some 192.
Proof.
  exact (unlink_takes_the_node_out small_pool 64 128 [192] small_pool_ring).
Defined.

(** Dropping a candidate from the leftover pool fails the assertion
    [candidate->next != candidate] exactly when it is the only node left;
    otherwise the pool is the ring of the others and the search goes on
    with the successor. *)
Theorem drop_candidate_needs_another_candidate s c rest :
  ring s (c :: rest) ->
  match rest with
  | [] => drop_candidate c s = Aborted OtherCandidatesLeft
  | a :: l =>
      exists s', drop_candidate c s = Returned (a, s') /\
                 ring s' (a :: l) /\ tsc s' = tsc s
  end.
Proof.
  intros Hr. destruct rest as [|a l].
  - pose proof (ring_head_next _ _ _ Hr) as Hn. simpl in Hn.
    by apply drop_candidate_last.
  - destruct (ring_drop_head _ _ _ _ Hr) as [E Hr']. eauto.
Qed.

Lemma drop_candidate_needs_another_candidate_witness :
  exists s', drop_candidate 64 small_pool = Returned (128, s') /\
             ring s' [128; 192] /\ tsc s' = tsc small_pool.
Proof.
  exact (drop_candidate_needs_another_candidate small_pool 64 [128; 192]
           small_pool_ring).
Defined.

(** ** Moving a candidate to the conflict set *)

(** The candidate leaves the leftover pool and becomes the last node of the
    conflict ring, in front of its head; the pool's handle moves on when it
    was the candidate, and the probing goes on with the candidate's
    successor. No reading is consumed. *)
Theorem move_to_conflict_set_moves_one_node s h cl c p1 prest csh :
  ring s (h :: cl) -> ring s (c :: p1 :: prest) ->
  NoDup ((h :: cl) ++ c :: p1 :: prest) ->
  exists s',
    move_to_conflict_set h csh c s
      = Returned ((if c =? csh then p1 else csh, p1), s') /\
    ring s' (h :: cl ++ [c]) /\ ring s' (p1 :: prest) /\ tsc s' = tsc s.
Proof.
  intros Hc Hp Hnd.
  destruct (move_to_conflict_set_ring s h cl c p1 prest csh Hc Hp Hnd)
    as (s' & E & Hc' & Hp' & Et & _).
  eauto.
Qed.

Lemma two_rings_conflict : ring two_rings [64; 128].
Proof. apply (bool_decide_unpack _). vm_compute. exact I. Qed.

Lemma two_rings_pool : ring two_rings [1024; 1088; 1152].
Proof. apply (bool_decide_unpack _). vm_compute. exact I. Qed.

Lemma move_to_conflict_set_moves_one_node_witness :
  exists s',
    move_to_conflict_set 64 1024 1024 two_rings
      = Returned ((if 1024 =? 1024 then 1088 else 1024, 1088), s') /\
    ring s' (64 :: [128] ++ [1024]) /\ ring s' [1088; 1152] /\
    tsc s' = tsc two_rings.
Proof.
  apply (move_to_conflict_set_moves_one_node two_rings 64 [128] 1024 1088 [1152] 1024
           two_rings_conflict two_rings_pool).
  apply (bool_decide_unpack _). vm_compute. exact I.
Defined.

(** ** Isolating a slice *)

(** The scan of the conflict ring ends with exactly [WAYS_PER_BANK]
    different marked nodes, all of them on the conflict ring, and leaves
    every link as it found it. *)
Theorem isolate_slice_marks_a_full_slice n s conf candidate csh ev s' :
  ring s conf -> csh ∈ conf ->
  isolate_slice n candidate csh [] s = Returned (ev, s') ->
  nxt s' = nxt s /\ prv s' = prv s /\ ring s' conf /\
  Z.of_nat (length ev) = WAYS_PER_BANK /\ NoDup ev /\
  forall x, x ∈ ev -> x ∈ conf.
Proof.
  intros Hr Hcsh H.
  apply isolate_slice_inv with (conf := conf) in H
    as (En & Ep & Hasc & Hsub & Hlen); auto.
  - split_and!; auto.
    + eapply ring_same_links; eauto.
    + by apply ascending_NoDup.
  - intros x Hx. by apply elem_of_nil in Hx.
  - constructor.
  - unfold WAYS_PER_BANK. simpl. lia.
Qed.

Lemma sample_slice_ring :
  ring sample_slice ((fun j => 64 * j) <$> seqZ 0 20).
Proof. apply (bool_decide_unpack _). vm_compute. exact I. Qed.

Lemma isolate_slice_marks_a_full_slice_witness :
  exists ev s',
    isolate_slice 100 4096 0 [] sample_slice = Returned (ev, s') /\
    nxt s' = nxt sample_slice /\ prv s' = prv sample_slice /\
    ring s' ((fun j => 64 * j) <$> seqZ 0 20) /\
    Z.of_nat (length ev) = WAYS_PER_BANK /\ NoDup ev /\
    forall x, x ∈ ev -> x ∈ (fun j => 64 * j) <$> seqZ 0 20.
Proof.
  assert (returned (isolate_slice 100 4096 0 [] sample_slice) = true) as Hq
    by (vm_compute; reflexivity).
  destruct (isolate_slice 100 4096 0 [] sample_slice) as [[ev s']| | | |] eqn:E;
    try discriminate Hq.
  exists ev, s'. split; [reflexivity|].
  apply (isolate_slice_marks_a_full_slice 100 sample_slice _ 4096 0 ev s'
           sample_slice_ring); [|exact E].
  apply (bool_decide_unpack _). vm_compute. exact I.
Defined.

(** ** Splicing a slice out *)

(** The marked nodes leave the conflict ring and form a ring of their own,
    in the order of the marked set, with its first node as handle; the
    other nodes stay a ring, and the conflict handle is one of them. *)
Theorem splice_out_separates_the_slice s conf csh e mrest :
  ring s conf -> csh ∈ conf -> NoDup (e :: mrest) ->
  (forall x, x ∈ e :: mrest -> x ∈ conf) ->
  (length (e :: mrest) < length conf)%nat ->
  exists csh' s' conf',
    splice_out (e :: mrest) csh s = Returned ((e, csh'), s') /\
    ring s' (e :: mrest) /\ ring s' conf' /\ csh' ∈ conf' /\
    conf ≡ₚ (e :: mrest) ++ conf' /\ tsc s' = tsc s.
Proof.
  intros Hc Hcsh Hnd Hsub Hlen.
  destruct (splice_out_spec s conf csh e mrest Hc Hcsh Hnd Hsub Hlen)
    as (csh' & s' & conf' & E & Hc' & He & Hin & Hperm & Et & _).
  exists csh', s', conf'. auto 10.
Qed.

Lemma splice_out_separates_the_slice_witness :
  exists csh' s' conf',
    splice_out [64; 128] 64 small_pool = Returned ((64, csh'), s') /\
    ring s' [64; 128] /\ ring s' conf' /\ csh' ∈ conf' /\
    [64; 128; 192] ≡ₚ [64; 128] ++ conf' /\ tsc s' = tsc small_pool.
Proof.
  apply (splice_out_separates_the_slice small_pool [64; 128; 192] 64 64 [128]
           small_pool_ring).
  - left.
  - apply (bool_decide_unpack _). vm_compute. exact I.
  - intros x Hx. apply elem_of_cons in Hx as [->|Hx]; [left|].
    apply list_elem_of_singleton in Hx as ->. right. left.
  - simpl. lia.
Defined.

(** ** FindCandidates: the alignment assertion, and a set that is not empty *)

(** On a region that is not line-aligned the first iteration fails the
    assertion on the address; on an aligned one the enumeration returns and
    adds the matching nodes of the region to the candidates that the set
    already held. *)
Theorem FindCandidates_checks_alignment array candidates setIndex :
  ascending candidates ->
  (Z.land array CACHE_LINE_BITS <> 0 ->
   FindCandidates array candidates setIndex = Aborted NodeAligned) /\
  (Z.land array CACHE_LINE_BITS = 0 ->
   exists l,
     FindCandidates array candidates setIndex = Returned l /\ ascending l /\
     forall a, a ∈ l <->
       a ∈ candidates \/
       (node_of_region array a /\
        Z.land a SET_INDEX_BITS = u64 (Z.shiftl setIndex NUM_CACHE_LINE_BITS))).
Proof.
  intros Hasc. split; intros Hal.
  - by apply FindCandidates_unaligned.
  - destruct (FindCandidates_aligned array candidates setIndex Hal Hasc)
      as (l & E & Hl & Hel).
    exists l. split_and!; auto. intros a. rewrite Hel, Z.eqb_eq. done.
Qed.

Lemma FindCandidates_checks_alignment_witness :
  FindCandidates (region27 + 8) [] 27 = Aborted NodeAligned.
Proof.
  apply (FindCandidates_checks_alignment (region27 + 8) [] 27 (SSorted_nil _)).
  vm_compute. discriminate.
Defined.

(** ** Probe: when it returns *)

(** [Probe] returns exactly when one of the latencies that the counter
    yields, taken two readings at a time, lies in the window [[20, 200]];
    when none does, it repeats the measurement for as long as there are
    readings. It fails no assertion and reads no link. *)
Theorem Probe_returns_on_a_plausible_latency setStartNode candidate s :
  ((exists b s', Probe setStartNode candidate s = Returned (b, s'))
   <-> Exists (fun time => 20 <= time <= 200) (measurements (tsc s))) /\
  (Probe setStartNode candidate s = ClockExhausted
   <-> Forall implausible (measurements (tsc s))).
Proof.
  assert (Hex : forall clock,
    Forall implausible (measurements clock) -> Probe_attempts clock = ClockExhausted).
  { intros clock. induction clock as [clock IH] using (induction_ltof1 _ (@length Z)).
    unfold ltof in IH. destruct clock as [|t0 [|t1 rest]]; simpl; auto.
    intros Hf. inversion Hf as [|? ? H1 H2]; subst.
    replace ((u64 (t1 - t0) <? 20) || (200 <? u64 (t1 - t0))) with true.
    - apply IH; [simpl; lia|done].
    - symmetry. apply orb_true_iff. unfold implausible in H1. lia. }
  assert (Hret : forall clock time rest,
    Probe_attempts clock = Returned (time, rest) ->
    Exists (fun time => 20 <= time <= 200) (measurements clock)).
  { intros clock. induction clock as [clock IH] using (induction_ltof1 _ (@length Z)).
    unfold ltof in IH. destruct clock as [|t0 [|t1 rest]]; simpl; try discriminate.
    intros time rest'.
    destruct ((u64 (t1 - t0) <? 20) || (200 <? u64 (t1 - t0))) eqn:E.
    - intros H. apply Exists_cons_tl. eapply IH; [simpl; lia|exact H].
    - intros _. apply Exists_cons_hd. apply orb_false_iff in E. lia. }
  assert (Hdec : Exists (fun time => 20 <= time <= 200) (measurements (tsc s)) \/
                 Forall implausible (measurements (tsc s))).
  { induction (measurements (tsc s)) as [|t l IH]; [right; constructor|].
    destruct (decide (20 <= t <= 200)) as [Ht|Ht]; [left; by apply Exists_cons_hd|].
    destruct IH as [IH|IH]; [left; by apply Exists_cons_tl|right].
    constructor; [unfold implausible; lia|done]. }
  assert (Hdisj : Exists (fun time => 20 <= time <= 200) (measurements (tsc s)) ->
                  Forall implausible (measurements (tsc s)) -> False).
  { intros He Hf. apply Exists_exists in He as (t & Ht & Hw).
    rewrite Forall_forall in Hf. apply Hf in Ht. unfold implausible in Ht. lia. }
  unfold Probe, bind, Probe_time.
  destruct (Probe_attempts (tsc s)) as [[time rest]| | | |] eqn:E.
  - pose proof (Hret _ _ _ E) as He. split; split; try discriminate.
    + intros _. exact He.
    + intros _. eauto.
    + intros Hf. destruct (Hdisj He Hf).
  - by apply Probe_attempts_no_abort in E.
  - destruct (Probe_attempts_cases (tsc s)) as [[r Er]|Er]; congruence.
  - destruct Hdec as [He|Hf].
    + exfalso. apply Exists_exists in He as (t & Ht & Hw).
      clear Hdisj Hret. revert E Ht.
      generalize (tsc s). intros clock.
      induction clock as [clock IH] using (induction_ltof1 _ (@length Z)).
      unfold ltof in IH. destruct clock as [|t0 [|t1 rest]]; simpl;
        try (intros _ Hin; by apply elem_of_nil in Hin).
      destruct ((u64 (t1 - t0) <? 20) || (200 <? u64 (t1 - t0))) eqn:Eb;
        [|discriminate].
      intros E Hin. apply elem_of_cons in Hin as [->|Hin].
      * apply orb_true_iff in Eb. lia.
      * eapply IH; [|exact E|exact Hin]. simpl. lia.
    + split; split; try done.
      * intros (b & s' & H). discriminate H.
      * intros He. destruct (Hdisj He Hf).
  - destruct (Probe_attempts_cases (tsc s)) as [[r Er]|Er]; congruence.
Qed.

Lemma Probe_returns_on_a_plausible_latency_witness :
  exists b s', Probe 64 4096 (Machine ∅ ∅ glitch_clock) = Returned (b, s').
Proof.
  apply (proj1 (Probe_returns_on_a_plausible_latency 64 4096 (Machine ∅ ∅ glitch_clock))).
  apply Exists_cons_tl, Exists_cons_hd. vm_compute. split; discriminate.
Defined.

(** ** The windows of the sanity loops, in elapsed cycles *)

(** Both sanity loops divide the elapsed cycles by the number of accesses
    with the integer division, so they accept a half-open window of elapsed
    cycles: from 165 up to, but not including, 191 cycles per access for
    the candidates, and from 31 up to 50 for the conflict set. They consume
    two readings and write no link. *)
Theorem sanity_windows_in_elapsed_cycles node s t0 t1 rest :
  tsc s = t0 :: t1 :: rest ->
  let elapsed := u64 (t1 - t0) in
  let s' := Machine (nxt s) (prv s) rest in
  SanityCheckCandidates node s
  = (if decide (165 * (100000 * LLC_BANKS * WAYS_PER_BANK) <= elapsed
                < 191 * (100000 * LLC_BANKS * WAYS_PER_BANK))
     then Returned (tt, s') else Aborted CandidatesMissToDRAM) /\
  SanityCheckConflictSet node s
  = (if decide (31 * (10000 * LLC_BANKS * WAYS_PER_BANK) <= elapsed
                < 50 * (10000 * LLC_BANKS * WAYS_PER_BANK))
     then Returned (tt, s') else Aborted ConflictSetHitsLLC).
Proof.
  intros Ht elapsed s'.
  assert (Eavg : forall iterations,
    average_access_time iterations s = Returned (elapsed / iterations, s')).
  { intros iterations. unfold average_access_time, bind, rdtsc. rewrite Ht. reflexivity. }
  unfold SanityCheckCandidates, SanityCheckConflictSet.
  rewrite !(bind_Returned _ _ _ _ _ (Eavg _)).
  change (100000 * LLC_BANKS * WAYS_PER_BANK) with 24000000.
  change (10000 * LLC_BANKS * WAYS_PER_BANK) with 2400000.
  generalize elapsed. clear. intros e. split.
  - unfold bind, assert.
    destruct (Z.leb_spec 165 (e / 24000000)) as [H1|H1];
      destruct (Z.leb_spec (e / 24000000) 190) as [H2|H2];
      case_decide as Hd; try reflexivity; exfalso;
      revert H1 H2 Hd; Z.div_mod_to_equations; lia.
  - unfold assert.
    destruct (Z.ltb_spec 30 (e / 2400000)) as [H1|H1];
      destruct (Z.ltb_spec (e / 2400000) 50) as [H2|H2];
      case_decide as Hd; try reflexivity; exfalso;
      revert H1 H2 Hd; Z.div_mod_to_equations; lia.
Qed.

Lemma sanity_windows_in_elapsed_cycles_witness :
  SanityCheckCandidates 64 (Machine ∅ ∅ [0; 190 * 24000000 + 23999999])
  = Returned (tt, Machine ∅ ∅ []) /\
  SanityCheckConflictSet 64 (Machine ∅ ∅ [0; 190 * 24000000 + 23999999])
  = Aborted ConflictSetHitsLLC.
Proof.
  exact (sanity_windows_in_elapsed_cycles 64
           (Machine ∅ ∅ [0; 190 * 24000000 + 23999999])
           0 (190 * 24000000 + 23999999) [] eq_refl).
Defined.

(** ** RandomizeLinkedList: the order of the ring, and its footprint *)

Lemma link_all_next_other src dst idxs : forall s x,
  x ∉ src <$> idxs -> nxt (link_all src dst idxs s) !! x = nxt s !! x.
Proof.
  induction idxs as [|i idxs IH]; intros s x Hx; [done|].
  rewrite fmap_cons in Hx. apply not_elem_of_cons in Hx as [Hne Hx].
  simpl. rewrite IH by done. simpl. by apply lookup_insert_ne.
Qed.

Lemma link_all_prev_other src dst idxs : forall s x,
  x ∉ dst <$> idxs -> prv (link_all src dst idxs s) !! x = prv s !! x.
Proof.
  induction idxs as [|i idxs IH]; intros s x Hx; [done|].
  rewrite fmap_cons in Hx. apply not_elem_of_cons in Hx as [Hne Hx].
  simpl. rewrite IH by done. simpl. by apply lookup_insert_ne.
Qed.

Section RandomizeOrder.

Variable random_shuffle : list nat -> list nat.

(** When the shuffle permutes the indices, the candidate at the position
    where the shuffled vector holds [v] is linked to the candidate at the
    position where it holds [v + 1] (modulo the number of candidates); the
    candidates then form one ring, no counter reading is consumed, and no
    field of a node outside the candidates is written. With no candidates
    nothing is written. *)
Theorem RandomizeLinkedList_follows_the_shuffle candidates s :
  let k := length candidates in
  let permutation := random_shuffle (seq 0 k) in
  permutation ≡ₚ seq 0 k -> NoDup candidates ->
  exists s',
    RandomizeLinkedList random_shuffle candidates s = Returned (tt, s') /\
    tsc s' = tsc s /\
    (forall i j v a b,
       permutation !! i = Some v -> permutation !! j = Some ((v + 1) mod k)%nat ->
       candidates !! i = Some a -> candidates !! j = Some b ->
       linked s' a b) /\
    (forall x, x ∉ candidates ->
       nxt s' !! x = nxt s !! x /\ prv s' !! x = prv s !! x) /\
    (candidates = [] -> s' = s) /\
    (candidates <> [] -> exists L, ring s' L /\ L ≡ₚ candidates).
Proof.
  intros k perm Hperm Hnd.
  assert (Hlen : length perm = k).
  { rewrite (Permutation_length Hperm). apply length_seq. }
  assert (Hndp : NoDup perm) by (rewrite Hperm; apply NoDup_seq).
  assert (Hin : forall v, v ∈ perm <-> (v < k)%nat).
  { intros v. rewrite Hperm, elem_of_seq. lia. }
  set (d := make_dictionary perm).
  set (inv := fun v => default 0%nat (d !! v)).
  assert (I0 : forall j v, perm !! j = Some v -> inv v = j).
  { intros j v Hj. unfold inv, d. by rewrite (make_dictionary_lookup perm j v Hndp Hj). }
  assert (I1 : forall v, (v < k)%nat -> perm !! inv v = Some v /\ (inv v < k)%nat).
  { intros v Hv. apply Hin in Hv. apply list_elem_of_lookup in Hv as [j Hj].
    rewrite (I0 j v Hj). split; [done|]. apply lookup_lt_Some in Hj. lia. }
  set (node := fun v => candidates !!! inv v).
  set (dst := fun i => candidates !!! inv ((i + 1) mod k)%nat).
  assert (Hnode : forall v, (v < k)%nat -> candidates !! inv v = Some (node v)).
  { intros v Hv. apply list_lookup_lookup_total_lt. by apply I1. }
  assert (Hinj : forall v1 v2, (v1 < k)%nat -> (v2 < k)%nat ->
                               node v1 = node v2 -> v1 = v2).
  { intros v1 v2 H1 H2 E.
    pose proof (Hnode v1 H1) as E1. pose proof (Hnode v2 H2) as E2.
    rewrite E in E1.
    pose proof (NoDup_lookup _ _ _ _ Hnd E1 E2) as Ei.
    destruct (I1 v1 H1) as [P1 _]. destruct (I1 v2 H2) as [P2 _].
    rewrite Ei in P1. congruence. }
  assert (Hrun : RandomizeLinkedList random_shuffle candidates s
                 = Returned (tt, link_all node dst (seq 0 k) s)).
  { unfold RandomizeLinkedList. fold k. fold perm. rewrite Hlen. fold d.
    apply link_in_order_eq. intros i Hi. apply elem_of_seq in Hi.
    split; [apply I1; lia|]. apply I1. apply succ_mod_lt. lia. }
  assert (Hsrc : NoDup (node <$> seq 0 k)).
  { apply NoDup_fmap_2_strong; [|apply NoDup_seq].
    intros x y Hx Hy. apply elem_of_seq in Hx, Hy. apply Hinj; lia. }
  assert (Hdst : NoDup (dst <$> seq 0 k)).
  { apply NoDup_fmap_2_strong; [|apply NoDup_seq].
    intros x y Hx Hy E. apply elem_of_seq in Hx, Hy.
    apply (succ_mod_inj k); [lia|lia|].
    apply Hinj; [apply succ_mod_lt; lia|apply succ_mod_lt; lia|exact E]. }
  exists (link_all node dst (seq 0 k) s). split_and!.
  - exact Hrun.
  - apply link_all_tsc.
  - intros i j v a b Hi Hj Ha Hb.
    assert (Hv : (v < k)%nat) by (apply Hin; by eapply list_elem_of_lookup_2).
    assert (Ea : node v = a).
    { unfold node. rewrite (I0 i v Hi). by apply list_lookup_total_correct. }
    assert (Eb : dst v = b).
    { unfold dst. rewrite (I0 j _ Hj). by apply list_lookup_total_correct. }
    rewrite <- Ea, <- Eb. apply link_all_linked; [done|done|].
    apply elem_of_seq. lia.
  - intros x Hx. split.
    + apply link_all_next_other. intros Hi. apply Hx.
      apply list_elem_of_fmap in Hi as (v & -> & Hv). apply elem_of_seq in Hv.
      eapply list_elem_of_lookup_2. apply Hnode. lia.
    + apply link_all_prev_other. intros Hi. apply Hx.
      apply list_elem_of_fmap in Hi as (v & -> & Hv). apply elem_of_seq in Hv.
      eapply list_elem_of_lookup_2. apply Hnode. apply succ_mod_lt. lia.
  - intros E. unfold k. rewrite E. reflexivity.
  - intros Hne.
    destruct (RandomizeLinkedList_ring random_shuffle candidates s Hperm Hnd Hne)
      as (s1 & L & E & Hr & HL & _).
    rewrite Hrun in E. injection E as <-. eauto.
Qed.

End RandomizeOrder.

Lemma RandomizeLinkedList_follows_the_shuffle_witness :
  exists s',
    RandomizeLinkedList (@rev nat) [64; 128; 192] (Machine ∅ ∅ [])
    = Returned (tt, s') /\
    linked s' 192 128 /\ linked s' 128 64 /\ linked s' 64 192.
Proof.
  assert (H1 : @rev nat (seq 0 (length [64; 128; 192]))
               ≡ₚ seq 0 (length [64; 128; 192])) by apply rev_permutes.
  assert (H2 : NoDup [64; 128; 192])
    by (apply (bool_decide_unpack _); vm_compute; exact I).
  destruct (RandomizeLinkedList_follows_the_shuffle (@rev nat) [64; 128; 192]
              (Machine ∅ ∅ []) H1 H2) as (s' & E & _ & Hedge & _).
  exists s'. split; [exact E|]. split_and!.
  - exact (Hedge 2%nat 1%nat 0%nat 192 128 eq_refl eq_refl eq_refl eq_refl).
  - exact (Hedge 1%nat 0%nat 1%nat 128 64 eq_refl eq_refl eq_refl eq_refl).
  - exact (Hedge 0%nat 2%nat 2%nat 64 192 eq_refl eq_refl eq_refl eq_refl).
Defined.
